(** * Static analysis engine of ts-functions-visualisation (analysis.ts)

    A shallow embedding of the call-graph and wiring-graph analyses
    ([analyzeDirectoryGraph], [analyzeWiringGraph], [analyzeDirectoryModules])
    together with the helpers they rely on ([simplifyPath], [shortHash],
    [buildSignatureKey], [getClassRole]).

    The parser and the type checker (ts-morph) are external: the embedding
    takes their answers as data.  A [Project] is the list of parsed source
    files; every syntax node the analysis inspects carries the answers the
    checker gives for it (the symbol at a location, its aliased symbol, the
    declarations of a symbol).  JavaScript strings are modelled by [string]
    (code units below 256), JavaScript [Map]s by insertion-ordered
    association lists, 32-bit integer arithmetic by [Z] with the wrap-around
    written out. *)

From Stdlib Require Import String Ascii List ZArith Lia Bool Arith.
Import ListNotations.
Open Scope string_scope.
Open Scope list_scope.

Set Implicit Arguments.

(* ------------------------------------------------------------------ *)
(** ** JavaScript string helpers *)

Module Str.

(** Template literals and [+] on strings are [append]. *)

Fixpoint mem (c : ascii) (s : string) : bool :=
  match s with
  | EmptyString => false
  | String d s' => Ascii.eqb d c || mem c s'
  end.

(** [s.slice(0, n)] *)
Fixpoint take (n : nat) (s : string) : string :=
  match n, s with
  | O, _ => EmptyString
  | S _, EmptyString => EmptyString
  | S n', String c s' => String c (take n' s')
  end.

(** [s.split(sep)] for a one-character separator. *)
Fixpoint split (sep : ascii) (s : string) : list string :=
  match s with
  | EmptyString => [EmptyString]
  | String c s' =>
      if Ascii.eqb c sep then EmptyString :: split sep s'
      else match split sep s' with
           | [] => [String c EmptyString]
           | p :: ps => String c p :: ps
           end
  end.

(** [parts.join(sep)] *)
Fixpoint join (sep : string) (parts : list string) : string :=
  match parts with
  | [] => EmptyString
  | [p] => p
  | p :: ps => p ++ sep ++ join sep ps
  end.

(** [Boolean(s)]: the empty string is falsy. *)
Definition truthy (s : string) : bool :=
  match s with EmptyString => false | _ => true end.

(** [parts.indexOf(x)], [None] standing for [-1]. *)
Fixpoint indexOf (x : string) (parts : list string) : option nat :=
  match parts with
  | [] => None
  | p :: ps =>
      if String.eqb p x then Some O
      else match indexOf x ps with Some i => Some (S i) | None => None end
  end.

(** [s.replace(/[QUOTES]/g, EMPTY)]: every single and double quote
    character is removed. *)
Definition singleQuote : ascii := ascii_of_nat 39.
Definition doubleQuote : ascii := ascii_of_nat 34.

Fixpoint stripQuotes (s : string) : string :=
  match s with
  | EmptyString => EmptyString
  | String c s' =>
      if Ascii.eqb c singleQuote || Ascii.eqb c doubleQuote then stripQuotes s'
      else String c (stripQuotes s')
  end.

(** ASCII lower-casing, for the [i] flag of the regular expressions: the
    patterns are made of ASCII letters and dots, which a non-unicode
    case-insensitive match only identifies with their ASCII case variants. *)
Definition lowerChar (c : ascii) : ascii :=
  let n := nat_of_ascii c in
  if (65 <=? n)%nat && (n <=? 90)%nat then ascii_of_nat (n + 32) else c.

Fixpoint lower (s : string) : string :=
  match s with
  | EmptyString => EmptyString
  | String c s' => String (lowerChar c) (lower s')
  end.

(** [s] ends with [suf]. *)
Definition endsWith (suf s : string) : bool :=
  let n := String.length s in
  let k := String.length suf in
  (k <=? n)%nat && String.eqb (substring (n - k) k s) suf.

(** [sub] occurs in [s]. *)
Fixpoint contains (sub s : string) : bool :=
  String.prefix sub s ||
  match s with
  | EmptyString => false
  | String _ s' => contains sub s'
  end.

(** [a || d] on a possibly undefined string: undefined and the empty string
    both fall through to [d]. *)
Definition orElse (a : option string) (d : string) : string :=
  match a with
  | Some s => if truthy s then s else d
  | None => d
  end.

(** [a ?? d]: only undefined falls through. *)
Definition nullish (a : option string) (d : string) : string :=
  match a with
  | Some s => s
  | None => d
  end.

End Str.

(* ------------------------------------------------------------------ *)
(** ** JavaScript [Map]: insertion-ordered, [set] on a present key keeps the
    key's position and replaces the value. *)

Module JsMap.
Section Defs.
Variables K V : Type.
Variable eqb : K -> K -> bool.

Definition t := list (K * V).

Fixpoint set (k : K) (v : V) (m : t) : t :=
  match m with
  | [] => [(k, v)]
  | (k', v') :: m' =>
      if eqb k' k then (k', v) :: m' else (k', v') :: set k v m'
  end.

Fixpoint get (k : K) (m : t) : option V :=
  match m with
  | [] => None
  | (k', v') :: m' => if eqb k' k then Some v' else get k m'
  end.

Definition has (k : K) (m : t) : bool :=
  match get k m with Some _ => true | None => false end.

(** [new Map(entries)] *)
Definition ofEntries (entries : list (K * V)) : t :=
  fold_left (fun m kv => set (fst kv) (snd kv) m) entries [].

(** [Array.from(m.values())] *)
Definition values (m : t) : list V := map snd m.

Definition keys (m : t) : list K := map fst m.
End Defs.
End JsMap.

(* ------------------------------------------------------------------ *)
(** ** [shortHash]: 32-bit FNV-1a over the code units, printed in base 36 and
    cut to six characters. *)

Definition toInt32 (z : Z) : Z := ((z + 2147483648) mod 4294967296 - 2147483648)%Z.
Definition toUint32 (z : Z) : Z := (z mod 4294967296)%Z.

(** [Math.imul(a, b)] *)
Definition imul (a b : Z) : Z := toInt32 (toInt32 a * toInt32 b).

(** [a ^ b] on numbers *)
Definition xor32 (a b : Z) : Z := toInt32 (Z.lxor (toInt32 a) (toInt32 b)).

Definition charCodeAt (c : ascii) : Z := Z.of_nat (nat_of_ascii c).

Definition digit36 (d : Z) : ascii :=
  if (d <? 10)%Z then ascii_of_nat (48 + Z.to_nat d)
  else ascii_of_nat (87 + Z.to_nat d).

(** [n.toString(36)] for [0 <= n]; [fuel] bounds the number of digits. *)
Fixpoint toString36_aux (fuel : nat) (n : Z) (acc : string) : string :=
  match fuel with
  | O => acc
  | S f =>
      let acc' := String (digit36 (n mod 36)) acc in
      if (n / 36 =? 0)%Z then acc' else toString36_aux f (n / 36) acc'
  end.

(** Seven base-36 digits are enough for an unsigned 32-bit value. *)
Definition toString36 (n : Z) : string := toString36_aux 7 n EmptyString.

Fixpoint hashLoop (h : Z) (input : string) : Z :=
  match input with
  | EmptyString => h
  | String c rest => hashLoop (imul (xor32 h (charCodeAt c)) 16777619) rest
  end.

Definition shortHash (input : string) : string :=
  Str.take 6 (toString36 (toUint32 (hashLoop (toUint32 2166136261) input))).

(* ------------------------------------------------------------------ *)
(** ** [simplifyPath] *)

Definition pathParts (p : string) : list string :=
  filter Str.truthy (Str.split "/"%char p).

Definition simplifyPath (p : string) : string :=
  let parts := pathParts p in
  match Str.indexOf "src" parts with
  | Some idx => Str.join "/" (skipn idx parts)
  | None => Str.join "/" (skipn (List.length parts - 3) parts)
  end.

(** [sf.getBaseName()]: the last segment of the file path. *)
Definition baseName (p : string) : string :=
  last (Str.split "/"%char p) EmptyString.

(* ------------------------------------------------------------------ *)
(** ** The graph *)

Inductive Role := RModule | RController | RService | RProvider | RHelper.

Record GraphNode := {
  id : string;
  label : string;
  kind : string;
  isAsync : option bool;
  filePath : string;
  fileKey : string;
  className : option string;
  role : option Role
}.

Record GraphEdge := {
  from : string;
  to : string;
  crossFile : bool
}.

Record Graph := {
  nodes : list GraphNode;
  edges : list GraphEdge
}.

(** The de-duplication step shared by the entry points:
    [Array.from(new Map(nodes.map(n => [n.id, n])).values())] and
    [Array.from(new Map(edges.map(e => [from|to, e]))).map(([, e]) => e)]. *)

Definition dedupBy (K A : Type) (eqb : K -> K -> bool) (key : A -> K) (l : list A)
  : list A :=
  JsMap.values (JsMap.ofEntries eqb (map (fun x => (key x, x)) l)).

Definition edgeKey (e : GraphEdge) : string := from e ++ "|" ++ to e.

Definition uniqueNodes (ns : list GraphNode) : list GraphNode :=
  dedupBy String.eqb id ns.
Definition uniqueEdges (es : list GraphEdge) : list GraphEdge :=
  dedupBy String.eqb edgeKey es.

(** The de-duplication of edges as the specification words it: keyed by
    the ordered pair [(from, to)], last write wins. *)
Definition edgePair (e : GraphEdge) : string * string := (from e, to e).

Definition pairEqb (a b : string * string) : bool :=
  String.eqb (fst a) (fst b) && String.eqb (snd a) (snd b).

Definition dedupEdgesByPair (es : list GraphEdge) : list GraphEdge :=
  dedupBy pairEqb edgePair es.

(* ------------------------------------------------------------------ *)
(** ** The program model: what the analysis reads off ts-morph *)

Inductive SyntaxKind :=
  FunctionDeclaration | MethodDeclaration | FunctionExpression | ArrowFunction.

(** [SyntaxKind[decl.getKind()]] *)
Definition kindName (k : SyntaxKind) : string :=
  match k with
  | FunctionDeclaration => "FunctionDeclaration"
  | MethodDeclaration => "MethodDeclaration"
  | FunctionExpression => "FunctionExpression"
  | ArrowFunction => "ArrowFunction"
  end.

(** A class declaration as seen through a reference to it: the attributes the
    wiring pass reads from a resolved class ([getName], the path of its source
    file, the names of its decorators). *)
Record ClassRef := {
  ref_name : option string;
  ref_filePath : string;
  ref_decorators : list string
}.

(** A declaration node a symbol points to.  Function-like nodes have an
    identity ([uid], the object identity of the node in the model); every node
    knows its first enclosing class declaration, if any. *)
Inductive DeclNode :=
| DClass (c : ClassRef)
| DCallable (k : SyntaxKind) (uid : nat) (ancestor : option ClassRef)
| DOther (ancestor : option ClassRef).

Record SymbolData := { getDeclarations : list DeclNode }.

Record Symbol := {
  sym_self : SymbolData;
  getAliasedSymbol : option SymbolData
}.

Definition unwrapAlias (sym : Symbol) : SymbolData :=
  match getAliasedSymbol sym with
  | Some s => s
  | None => sym_self sym
  end.

(** [Node.isClassDeclaration(d) ? d : d.getFirstAncestorByKind(ClassDeclaration)] *)
Definition classOfDecl (d : DeclNode) : option ClassRef :=
  match d with
  | DClass c => Some c
  | DCallable _ _ a => a
  | DOther a => a
  end.

(** A decorator on a parameter: its name and, when it has a first argument,
    the symbol the checker finds at that argument. *)
Record ParamDecorator := {
  pdeco_name : string;
  pdeco_arg0 : option (option Symbol)
}.

Record ParameterDeclaration := {
  par_typeText : option string;       (* p.getType().getText() when available *)
  par_text : string;                  (* p.getText() *)
  par_decorators : list ParamDecorator;
  par_typeSymbol : option Symbol      (* p.getType().getSymbol() *)
}.

(** The callee expression of a call, with the checker's answers. *)
Inductive CalleeExpr :=
| PropertyAccess (nameSym : option Symbol)
| ElementAccess (argText : option string)
                (typeProps : list (string * Symbol))
                (exprSym : option Symbol)
| OtherCallee (sym : option Symbol).

Record CallExpression := { getExpression : option CalleeExpr }.

Record Callable := {
  c_uid : nat;
  c_kind : SyntaxKind;
  c_name : option string;             (* getName(), undefined for arrows *)
  c_isAsync : bool;
  c_params : list ParameterDeclaration;
  c_calls : list CallExpression       (* getDescendantsOfKind(CallExpression) *)
}.

Inductive Initializer :=
| InitCallable (c : Callable)
| InitOther.

Record PropertyDeclaration := {
  prop_name : string;
  prop_initializer : option Initializer
}.

Record VariableDeclaration := {
  var_name : string;
  var_initializer : option Initializer
}.

(** The metadata argument of a class decorator. *)
Inductive ArrayElement :=
| SpreadElement
| Element (sym : option Symbol).

Inductive InitExpr :=
| ArrayLiteral (els : list ArrayElement)
| OtherExpr (sym : option Symbol).

Inductive ObjectProperty :=
| PropertyAssignment (name : string) (init : option InitExpr)
| OtherProperty.

Inductive DecoratorArg :=
| ObjectLiteral (props : list ObjectProperty)
| OtherArg.

Record Decorator := {
  deco_name : string;
  deco_arg0 : option DecoratorArg
}.

Record ClassDeclaration := {
  cls_name : option string;
  cls_decorators : list Decorator;
  cls_methods : list Callable;
  cls_properties : list PropertyDeclaration;
  cls_constructors : list (list ParameterDeclaration)
}.

Record SourceFile := {
  sf_filePath : string;
  sf_functions : list Callable;
  sf_classes : list ClassDeclaration;
  sf_variables : list VariableDeclaration
}.

(** The model built by [buildProjectAndAnalyze]: one source file per entry of
    [filesByPath]; an empty mapping gives the empty project. *)
Definition Project := list SourceFile.

Definition getSourceFile (project : Project) (path : string) : option SourceFile :=
  find (fun sf => String.eqb (sf_filePath sf) path) project.

Definition includes (x : string) (l : list string) : bool :=
  existsb (String.eqb x) l.

(* ------------------------------------------------------------------ *)
(** ** [getClassRole] *)

(** The three tests of [getClassRole] on plain data: the class name
    ([cls.getName() || EMPTY]), the decorator names and the base name of the
    source file. *)
Definition classRole (name : string) (decos : list string) (base : string)
  : option Role :=
  if includes "Module" decos
     || Str.endsWith "module" (Str.lower name)
     || Str.contains ".module." (Str.lower base)
  then Some RModule
  else if includes "Controller" decos || Str.endsWith "controller" (Str.lower name)
  then Some RController
  else if includes "Injectable" decos || Str.endsWith "service" (Str.lower name)
  then Some RService
  else if includes "Injectable" decos || Str.endsWith "provider" (Str.lower name)
  then Some RProvider
  else None.

Definition getClassRole (sf : SourceFile) (cls : ClassDeclaration) : option Role :=
  classRole (Str.orElse (cls_name cls) EmptyString)
            (map deco_name (cls_decorators cls))
            (baseName (sf_filePath sf)).

(* ------------------------------------------------------------------ *)
(** ** [buildSignatureKey] and identifiers *)

Definition paramTypeText (p : ParameterDeclaration) : string :=
  match par_typeText p with
  | Some txt => txt
  | None => par_text p
  end.

Definition buildSignatureKey (decl : Callable) : string :=
  Str.nullish (c_name decl) "<anon>"
  ++ "(" ++ Str.join "," (map paramTypeText (c_params decl)) ++ ")".

(** [idFor(sf, name, signatureText)] *)
Definition idFor (sfPath name : string) (signatureText : option string) : string :=
  let sig := Str.nullish signatureText name in
  sfPath ++ "#" ++ name ++ "::" ++ shortHash sig.

Definition fileKeyFor (p : string) : string :=
  simplifyPath p ++ "#" ++ shortHash p.

(** The qualified name given to [idFor] by [addCallable]. *)
Definition qualifiedName (name className : option string) : string :=
  match className with
  | Some cn =>
      if Str.truthy cn then cn ++ "." ++ Str.nullish name "<anon>"
      else Str.nullish name "<anon>"
  | None => Str.nullish name "<anon>"
  end.

(* ------------------------------------------------------------------ *)
(** ** [analyzeDirectoryGraph] *)

Record CallableInfo := {
  ci_id : string;
  ci_name : string;
  ci_filePath : string;
  ci_fileKey : string;
  ci_className : option string;
  ci_decl : Callable;
  ci_isAsync : bool;
  ci_kind : string;
  ci_role : option Role
}.

(** The two accumulators of the collection pass: the [callables] array and
    the [callablesByDecl] map, keyed by declaration identity. *)
Record Collected := {
  callables : list CallableInfo;
  callablesByDecl : JsMap.t nat CallableInfo
}.

Definition emptyCollected : Collected :=
  {| callables := []; callablesByDecl := [] |}.

Definition mkInfo (sfPath : string) (decl : Callable)
           (name className : option string) (r : option Role) : CallableInfo :=
  {| ci_id := idFor sfPath (qualifiedName name className) (Some (buildSignatureKey decl));
     ci_name := Str.nullish name "<anon>";
     ci_filePath := sfPath;
     ci_fileKey := fileKeyFor sfPath;
     ci_className := className;
     ci_decl := decl;
     ci_isAsync := c_isAsync decl;
     ci_kind := kindName (c_kind decl);
     ci_role := r |}.

Definition addCallable (sfPath : string) (decl : Callable)
           (name className : option string) (r : option Role)
           (st : Collected) : Collected :=
  let info := mkInfo sfPath decl name className r in
  {| callables := callables st ++ [info];
     callablesByDecl := JsMap.set Nat.eqb (c_uid decl) info (callablesByDecl st) |}.

(** [Node.isArrowFunction(init) || Node.isFunctionExpression(init)] *)
Definition isFunctionValue (k : SyntaxKind) : bool :=
  match k with
  | ArrowFunction | FunctionExpression => true
  | _ => false
  end.

Definition addInitializer (sfPath : string) (init : option Initializer)
           (name : string) (className : option string) (r : option Role)
           (st : Collected) : Collected :=
  match init with
  | Some (InitCallable c) =>
      if isFunctionValue (c_kind c) then addCallable sfPath c (Some name) className r st
      else st
  | _ => st
  end.

Definition collectClass (sf : SourceFile) (st : Collected) (cls : ClassDeclaration)
  : Collected :=
  let clsRole := getClassRole sf cls in
  let clsName := cls_name cls in
  let st1 :=
    fold_left (fun s m => addCallable (sf_filePath sf) m (c_name m) clsName clsRole s)
              (cls_methods cls) st in
  fold_left (fun s prop =>
               addInitializer (sf_filePath sf) (prop_initializer prop)
                              (prop_name prop) clsName clsRole s)
            (cls_properties cls) st1.

Definition collectFile (sf : SourceFile) (st : Collected) : Collected :=
  let p := sf_filePath sf in
  let st1 :=
    fold_left (fun s fn =>
                 addCallable p fn (Some (Str.orElse (c_name fn) "<anon>")) None
                             (Some RHelper) s)
              (sf_functions sf) st in
  let st2 := fold_left (collectClass sf) (sf_classes sf) st1 in
  fold_left (fun s v =>
               addInitializer p (var_initializer v) (var_name v) None (Some RHelper) s)
            (sf_variables sf) st2.

(** Step 1: the loop over [filePaths]; a path without a source file is skipped. *)
Definition collectStep (project : Project) (st : Collected) (path : string)
  : Collected :=
  match getSourceFile project path with
  | Some sf => collectFile sf st
  | None => st
  end.

Definition collect (project : Project) (filePaths : list string) : Collected :=
  fold_left (collectStep project) filePaths emptyCollected.

Definition matchCallableFromDecl (byDecl : JsMap.t nat CallableInfo) (d : DeclNode)
  : option CallableInfo :=
  match d with
  | DCallable MethodDeclaration u _ => JsMap.get Nat.eqb u byDecl
  | DCallable FunctionDeclaration u _ => JsMap.get Nat.eqb u byDecl
  | DCallable FunctionExpression u _ => JsMap.get Nat.eqb u byDecl
  | DCallable ArrowFunction u _ => JsMap.get Nat.eqb u byDecl
  | _ => None
  end.

Fixpoint lookupProp (name : string) (props : list (string * Symbol)) : option Symbol :=
  match props with
  | [] => None
  | (k, s) :: rest => if String.eqb k name then Some s else lookupProp name rest
  end.

(** The symbol of the invoked expression. *)
Definition calleeSymbol (expr : CalleeExpr) : option Symbol :=
  match expr with
  | PropertyAccess nameSym => nameSym
  | ElementAccess arg typeProps exprSym =>
      let prop :=
        match arg with
        | Some txt =>
            let argText := Str.stripQuotes txt in
            if Str.truthy argText then lookupProp argText typeProps else None
        | None => None
        end in
      match prop with
      | Some s => Some s
      | None => exprSym
      end
  | OtherCallee sym => sym
  end.

(** The first declaration that is a collected callable. *)
Fixpoint firstCallee (byDecl : JsMap.t nat CallableInfo) (decls : list DeclNode)
  : option CallableInfo :=
  match decls with
  | [] => None
  | d :: rest =>
      match matchCallableFromDecl byDecl d with
      | Some m => Some m
      | None => firstCallee byDecl rest
      end
  end.

Definition resolveCall (byDecl : JsMap.t nat CallableInfo) (call : CallExpression)
  : option CallableInfo :=
  match getExpression call with
  | None => None
  | Some expr =>
      match calleeSymbol expr with
      | None => None
      | Some sym => firstCallee byDecl (getDeclarations (unwrapAlias sym))
      end
  end.

(** The edges one call contributes (none or one). *)
Definition callEdge (byDecl : JsMap.t nat CallableInfo) (caller : CallableInfo)
           (call : CallExpression) : list GraphEdge :=
  match resolveCall byDecl call with
  | None => []
  | Some calleeInfo =>
      if String.eqb (ci_id caller) (ci_id calleeInfo) then []
      else [{| from := ci_id caller;
               to := ci_id calleeInfo;
               crossFile := negb (String.eqb (simplifyPath (ci_filePath caller))
                                             (simplifyPath (ci_filePath calleeInfo))) |}]
  end.

(** Step 2: the edges pushed while walking every callable. *)
Definition callEdges (st : Collected) : list GraphEdge :=
  flat_map (fun caller =>
              flat_map (callEdge (callablesByDecl st) caller)
                       (c_calls (ci_decl caller)))
           (callables st).

(** Step 3 *)
Definition nodeOfCallable (c : CallableInfo) : GraphNode :=
  {| id := ci_id c;
     label := ci_name c;
     kind := ci_kind c;
     isAsync := Some (ci_isAsync c);
     filePath := ci_filePath c;
     fileKey := ci_fileKey c;
     className := ci_className c;
     role := ci_role c |}.

Definition analyzeDirectoryGraph (project : Project) (filePaths : list string) : Graph :=
  let st := collect project filePaths in
  {| nodes := uniqueNodes (map nodeOfCallable (callables st));
     edges := uniqueEdges (callEdges st) |}.

(* ------------------------------------------------------------------ *)
(** ** [analyzeWiringGraph] *)

Record ModuleInfo := {
  m_id : string;
  m_name : string;
  m_filePath : string;
  m_fileKey : string;
  m_controllers : list ClassRef;
  m_providers : list ClassRef;
  m_importedModules : list ClassRef
}.

Definition moduleKeyFor (sfPath moduleName : string) : string :=
  let moduleFileKey := (simplifyPath sfPath ++ "#" ++ shortHash sfPath)%string in
  moduleName ++ " (" ++ moduleFileKey ++ ")".

(** The case-sensitive test of the module file-name convention on a base
    name: it ends in [.module.ts], [.module.tsx], [.module.js] or
    [.module.jsx]. *)
Definition fileNameIndicatesModule (base : string) : bool :=
  Str.endsWith ".module.ts" base || Str.endsWith ".module.tsx" base
  || Str.endsWith ".module.js" base || Str.endsWith ".module.jsx" base.

Definition findModuleDecorator (cls : ClassDeclaration) : option Decorator :=
  find (fun d => String.eqb (deco_name d) "Module") (cls_decorators cls).

Definition symbolDecls (sym : option Symbol) : list DeclNode :=
  match sym with
  | Some s => getDeclarations (unwrapAlias s)
  | None => []
  end.

Definition pushIfClass (sym : option Symbol) : list ClassRef :=
  flat_map (fun d => match classOfDecl d with Some cd => [cd] | None => [] end)
           (symbolDecls sym).

Definition collectClasses (expr : InitExpr) : list ClassRef :=
  match expr with
  | ArrayLiteral els =>
      flat_map (fun el => match el with
                          | SpreadElement => []
                          | Element sym => pushIfClass sym
                          end) els
  | OtherExpr sym => pushIfClass sym
  end.

Definition readProperty (info : ModuleInfo) (p : ObjectProperty) : ModuleInfo :=
  match p with
  | PropertyAssignment name (Some init) =>
      let keyName := Str.stripQuotes name in
      if String.eqb keyName "imports" then
        {| m_id := m_id info; m_name := m_name info; m_filePath := m_filePath info;
           m_fileKey := m_fileKey info;
           m_controllers := m_controllers info;
           m_providers := m_providers info;
           m_importedModules := m_importedModules info ++ collectClasses init |}
      else if String.eqb keyName "controllers" then
        {| m_id := m_id info; m_name := m_name info; m_filePath := m_filePath info;
           m_fileKey := m_fileKey info;
           m_controllers := m_controllers info ++ collectClasses init;
           m_providers := m_providers info;
           m_importedModules := m_importedModules info |}
      else if String.eqb keyName "providers" || String.eqb keyName "exports" then
        {| m_id := m_id info; m_name := m_name info; m_filePath := m_filePath info;
           m_fileKey := m_fileKey info;
           m_controllers := m_controllers info;
           m_providers := m_providers info ++ collectClasses init;
           m_importedModules := m_importedModules info |}
      else info
  | _ => info
  end.

(** The identifier shared by module nodes and class nodes:
    [filePath#name::shortHash(name)]. *)
Definition wiringId (path name : string) : string :=
  path ++ "#" ++ name ++ "::" ++ shortHash name.

Definition moduleInfoOf (sf : SourceFile) (cls : ClassDeclaration) : ModuleInfo :=
  let moduleName := Str.orElse (cls_name cls) "<Module>" in
  let info0 :=
    {| m_id := wiringId (sf_filePath sf) moduleName;
       m_name := moduleName;
       m_filePath := sf_filePath sf;
       m_fileKey := moduleKeyFor (sf_filePath sf) moduleName;
       m_controllers := [];
       m_providers := [];
       m_importedModules := [] |} in
  match findModuleDecorator cls with
  | Some d =>
      match deco_arg0 d with
      | Some (ObjectLiteral props) => fold_left readProperty props info0
      | _ => info0
      end
  | None => info0
  end.

Definition moduleNodeOf (nodeId name path key : string) : GraphNode :=
  {| id := nodeId;
     label := name;
     kind := "ClassDeclaration";
     isAsync := Some false;
     filePath := path;
     fileKey := key;
     className := None;
     role := Some RModule |}.

Definition isModuleClass (sf : SourceFile) (cls : ClassDeclaration) : bool :=
  match findModuleDecorator cls with Some _ => true | None => false end
  || fileNameIndicatesModule (baseName (sf_filePath sf)).

(** First loop: the modules of the listed files and their nodes in [byId]. *)
Record Scan := {
  modules : list ModuleInfo;
  scan_byId : JsMap.t string GraphNode
}.

Definition scanClass (sf : SourceFile) (st : Scan) (cls : ClassDeclaration) : Scan :=
  if isModuleClass sf cls then
    let info := moduleInfoOf sf cls in
    {| modules := modules st ++ [info];
       scan_byId :=
         JsMap.set String.eqb (m_id info)
                   (moduleNodeOf (m_id info) (m_name info) (m_filePath info) (m_fileKey info))
                   (scan_byId st) |}
  else st.

Definition scanStep (project : Project) (st : Scan) (path : string) : Scan :=
  match getSourceFile project path with
  | Some sf => fold_left (scanClass sf) (sf_classes sf) st
  | None => st
  end.

Definition scanModules (project : Project) (filePaths : list string) : Scan :=
  fold_left (scanStep project) filePaths {| modules := []; scan_byId := [] |}.

Definition classNodeId (cls : ClassRef) : string :=
  wiringId (ref_filePath cls) (Str.orElse (ref_name cls) "<Class>").

Definition roleFor (cls : ClassRef) : Role :=
  if includes "Controller" (ref_decorators cls) then RController
  else if includes "Injectable" (ref_decorators cls) then RService
  else RProvider.

(** Second and later loops: the [byId] map, the [nodes] array and the
    [edges] array. *)
Record Wiring := {
  byId : JsMap.t string GraphNode;
  w_nodes : list GraphNode;
  w_edges : list GraphEdge
}.

Definition pushNode (n : GraphNode) (st : Wiring) : Wiring :=
  {| byId := byId st; w_nodes := w_nodes st ++ [n]; w_edges := w_edges st |}.

Definition pushEdge (e : GraphEdge) (st : Wiring) : Wiring :=
  {| byId := byId st; w_nodes := w_nodes st; w_edges := w_edges st ++ [e] |}.

Definition registerNode (n : GraphNode) (st : Wiring) : Wiring :=
  {| byId := JsMap.set String.eqb (id n) n (byId st);
     w_nodes := w_nodes st ++ [n];
     w_edges := w_edges st |}.

Definition hasNode (nodeId : string) (ns : list GraphNode) : bool :=
  existsb (fun n => String.eqb (id n) nodeId) ns.

Definition differentFiles (p q : string) : bool :=
  negb (String.eqb (simplifyPath p) (simplifyPath q)).

Definition ensureNode (m : ModuleInfo) (section : string) (st : Wiring) (cls : ClassRef)
  : Wiring :=
  let nodeId := classNodeId cls in
  let st1 :=
    if negb (JsMap.has String.eqb nodeId (byId st)) then
      registerNode {| id := nodeId;
                      label := Str.orElse (ref_name cls) "<Class>";
                      kind := "ClassDeclaration";
                      isAsync := None;
                      filePath := ref_filePath cls;
                      fileKey := m_fileKey m;
                      className := Some section;
                      role := Some (roleFor cls) |} st
    else if negb (hasNode nodeId (w_nodes st)) then
      match JsMap.get String.eqb nodeId (byId st) with
      | Some n => pushNode n st
      | None => st
      end
    else st in
  pushEdge {| from := m_id m; to := nodeId;
              crossFile := differentFiles (m_filePath m) (ref_filePath cls) |} st1.

Definition importModule (m : ModuleInfo) (st : Wiring) (im : ClassRef) : Wiring :=
  let modName := Str.orElse (ref_name im) "<Module>" in
  let targetId := wiringId (ref_filePath im) modName in
  let st1 :=
    if negb (JsMap.has String.eqb targetId (byId st)) then
      registerNode (moduleNodeOf targetId modName (ref_filePath im)
                                 (moduleKeyFor (ref_filePath im) modName)) st
    else st in
  pushEdge {| from := m_id m; to := targetId;
              crossFile := differentFiles (m_filePath m) (ref_filePath im) |} st1.

Definition wireModule (st : Wiring) (m : ModuleInfo) : Wiring :=
  let st0 :=
    match JsMap.get String.eqb (m_id m) (byId st) with
    | Some n => pushNode n st
    | None => st
    end in
  let st1 := fold_left (ensureNode m "Controllers") (m_controllers m) st0 in
  let st2 := fold_left (ensureNode m "Providers") (m_providers m) st1 in
  fold_left (importModule m) (m_importedModules m) st2.

Definition wireModules (sc : Scan) : Wiring :=
  fold_left wireModule (modules sc)
            {| byId := scan_byId sc; w_nodes := []; w_edges := [] |}.

(** The dependency-injection pass. *)

Definition isInjectable (n : GraphNode) : bool :=
  match role n with
  | Some RController | Some RService | Some RProvider =>
      String.eqb (kind n) "ClassDeclaration"
  | _ => false
  end.

Definition declaredClassId (sf : SourceFile) (c : ClassDeclaration) : string :=
  wiringId (sf_filePath sf) (Str.orElse (cls_name c) "<Class>").

Definition findClassOfNode (project : Project) (n : GraphNode) : option ClassDeclaration :=
  match getSourceFile project (filePath n) with
  | Some sf => find (fun c => String.eqb (declaredClassId sf c) (id n)) (sf_classes sf)
  | None => None
  end.

Definition classDeclsStep (project : Project)
           (acc : JsMap.t string ClassDeclaration) (n : GraphNode)
  : JsMap.t string ClassDeclaration :=
  if isInjectable n then
    match findClassOfNode project n with
    | Some cls => JsMap.set String.eqb (id n) cls acc
    | None => acc
    end
  else acc.

Definition classDeclsById (project : Project) (ns : list GraphNode)
  : JsMap.t string ClassDeclaration :=
  fold_left (classDeclsStep project) ns [].

Fixpoint firstClass (decls : list DeclNode) : option ClassRef :=
  match decls with
  | [] => None
  | d :: rest =>
      match classOfDecl d with
      | Some cd => Some cd
      | None => firstClass rest
      end
  end.

(** The class a constructor parameter is resolved to: the argument of an
    [Inject] decorator when it names a class, the declared type otherwise. *)
Definition injectionTarget (p : ParameterDeclaration) : option ClassRef :=
  let viaToken :=
    match find (fun d => String.eqb (pdeco_name d) "Inject") (par_decorators p) with
    | Some inj =>
        match pdeco_arg0 inj with
        | Some symAtArg => firstClass (symbolDecls symAtArg)
        | None => None
        end
    | None => None
    end in
  match viaToken with
  | Some cd => Some cd
  | None => firstClass (symbolDecls (par_typeSymbol p))
  end.

Definition injectionEdge (nodesById : JsMap.t string GraphNode) (fromId : string)
           (p : ParameterDeclaration) : list GraphEdge :=
  match injectionTarget p with
  | Some targetCls =>
      let toId := classNodeId targetCls in
      if JsMap.has String.eqb toId nodesById then
        match JsMap.get String.eqb fromId nodesById, JsMap.get String.eqb toId nodesById with
        | Some fromNode, Some toNode =>
            [{| from := id fromNode; to := id toNode;
                crossFile := differentFiles (filePath fromNode) (filePath toNode) |}]
        | _, _ => []
        end
      else []
  | None => []
  end.

(** Only the first declared constructor is read. *)
Definition injectionEdgesOf (nodesById : JsMap.t string GraphNode)
           (entry : string * ClassDeclaration) : list GraphEdge :=
  match cls_constructors (snd entry) with
  | [] => []
  | ctor :: _ => flat_map (injectionEdge nodesById (fst entry)) ctor
  end.

Definition injectionEdges (project : Project) (st : Wiring) : list GraphEdge :=
  flat_map (injectionEdgesOf (byId st)) (classDeclsById project (w_nodes st)).

Definition analyzeWiringGraph (project : Project) (filePaths : list string) : Graph :=
  let st := wireModules (scanModules project filePaths) in
  {| nodes := uniqueNodes (w_nodes st);
     edges := uniqueEdges (w_edges st ++ injectionEdges project st) |}.

(* ------------------------------------------------------------------ *)
(** ** [analyzeDirectoryModules] *)

Definition modulesOnlyClass (sf : SourceFile) (acc : list GraphNode)
           (cls : ClassDeclaration) : list GraphNode :=
  if isModuleClass sf cls then
    let name := Str.orElse (cls_name cls) "<Module>" in
    acc ++ [moduleNodeOf (sf_filePath sf ++ "#" ++ name)%string name (sf_filePath sf)
                         (simplifyPath (sf_filePath sf))]
  else acc.

Definition modulesOnlyStep (project : Project) (acc : list GraphNode) (path : string)
  : list GraphNode :=
  match getSourceFile project path with
  | Some sf => fold_left (modulesOnlyClass sf) (sf_classes sf) acc
  | None => acc
  end.

Definition analyzeDirectoryModules (project : Project) (filePaths : list string) : Graph :=
  {| nodes := uniqueNodes (fold_left (modulesOnlyStep project) filePaths []);
     edges := [] |}.

(* ------------------------------------------------------------------ *)
(** ** Concrete programs used below *)

Module Examples.

Definition symbolOf (decls : list DeclNode) : option Symbol :=
  Some {| sym_self := {| getDeclarations := decls |}; getAliasedSymbol := None |}.

Definition classSym (c : ClassRef) : option Symbol := symbolOf [DClass c].

Definition typedParam (txt : string) (ty : option Symbol) : ParameterDeclaration :=
  {| par_typeText := Some txt; par_text := txt; par_decorators := [];
     par_typeSymbol := ty |}.

Definition plainClass (name : string) (decos : list Decorator)
           (ctors : list (list ParameterDeclaration)) : ClassDeclaration :=
  {| cls_name := Some name; cls_decorators := decos; cls_methods := [];
     cls_properties := []; cls_constructors := ctors |}.

Definition classFile (path : string) (classes : list ClassDeclaration) : SourceFile :=
  {| sf_filePath := path; sf_functions := []; sf_classes := classes;
     sf_variables := [] |}.

Definition moduleDeco (props : list ObjectProperty) : Decorator :=
  {| deco_name := "Module"; deco_arg0 := Some (ObjectLiteral props) |}.

Definition bareDeco (name : string) : Decorator :=
  {| deco_name := name; deco_arg0 := None |}.

Definition listOf (name : string) (refs : list ClassRef) : ObjectProperty :=
  PropertyAssignment name (Some (ArrayLiteral (map (fun r => Element (classSym r)) refs))).

(** A module with one controller and one service; the controller's
    constructor takes the service. *)
Definition userControllerRef : ClassRef :=
  {| ref_name := Some "UserController";
     ref_filePath := "/app/src/user.controller.ts";
     ref_decorators := ["Controller"] |}.

Definition userServiceRef : ClassRef :=
  {| ref_name := Some "UserService";
     ref_filePath := "/app/src/user.service.ts";
     ref_decorators := ["Injectable"] |}.

Definition nestProject : Project :=
  [ classFile "/app/src/app.module.ts"
      [plainClass "AppModule"
         [moduleDeco [listOf "controllers" [userControllerRef];
                      listOf "providers" [userServiceRef]]] []];
    classFile "/app/src/user.controller.ts"
      [plainClass "UserController" [bareDeco "Controller"]
         [[typedParam "UserService" (classSym userServiceRef)]]];
    classFile "/app/src/user.service.ts"
      [plainClass "UserService" [bareDeco "Injectable"] []] ].

Definition nestFiles : list string :=
  ["/app/src/app.module.ts"; "/app/src/user.controller.ts"; "/app/src/user.service.ts"].

(** Two edges whose key strings coincide although their endpoints differ. *)
Definition barEdge1 : GraphEdge := {| from := "a|b"; to := "c"; crossFile := false |}.
Definition barEdge2 : GraphEdge := {| from := "a"; to := "b|c"; crossFile := true |}.

(** Two call sites between the same pair of callables. *)
Definition callSites : list GraphEdge :=
  [ {| from := "/a.ts#main::x"; to := "/a.ts#helper::y"; crossFile := false |};
    {| from := "/a.ts#main::x"; to := "/a.ts#helper::y"; crossFile := false |} ].

(** A class decorated as a controller whose name ends in [Module]. *)
Definition usersFile : SourceFile :=
  classFile "/app/src/users.ts" [plainClass "UsersModule" [bareDeco "Controller"] []].

Definition usersModuleClass : ClassDeclaration :=
  plainClass "UsersModule" [bareDeco "Controller"] [].

(** A class named as a service, without any decorator. *)
Definition fooFile : SourceFile :=
  classFile "/app/src/foo.ts" [plainClass "FooService" [] []].

Definition fooServiceClass : ClassDeclaration := plainClass "FooService" [] [].

(** A class decorated [Injectable] and named as a provider. *)
Definition cacheFile : SourceFile :=
  classFile "/app/src/cache.ts" [plainClass "CacheProvider" [bareDeco "Injectable"] []].

Definition cacheProviderClass : ClassDeclaration :=
  plainClass "CacheProvider" [bareDeco "Injectable"] [].

(** Function-like declarations. *)
Definition fn (uid : nat) (k : SyntaxKind) (name : option string)
           (params : list ParameterDeclaration) (calls : list CallExpression)
  : Callable :=
  {| c_uid := uid; c_kind := k; c_name := name; c_isAsync := false;
     c_params := params; c_calls := calls |}.

Definition callTo (k : SyntaxKind) (uid : nat) : CallExpression :=
  {| getExpression := Some (OtherCallee (symbolOf [DCallable k uid None])) |}.

(** Two anonymous function declarations in one file. *)
Definition anonProject : Project :=
  [ {| sf_filePath := "/app/src/a.ts";
       sf_functions := [fn 1 FunctionDeclaration None [] [];
                        fn 2 FunctionDeclaration None [] []];
       sf_classes := [];
       sf_variables := [] |} ].

(** A class with a static and an instance method of the same name and
    the same parameter types. *)
Definition twinProject : Project :=
  [ classFile "/app/src/factory.ts"
      [ {| cls_name := Some "Factory"; cls_decorators := [];
           cls_methods := [fn 1 MethodDeclaration (Some "create") [] [];
                           fn 2 MethodDeclaration (Some "create") [] []];
           cls_properties := []; cls_constructors := [] |} ] ].

(** Scenario 1 and 2 of the specification: [main] calls [helper] in the same
    file, [run] calls [util] of another file. *)
Definition callProject : Project :=
  [ {| sf_filePath := "/app/src/a.ts";
       sf_functions := [fn 1 FunctionDeclaration (Some "helper") [] [];
                        fn 2 FunctionDeclaration (Some "main") []
                           [callTo FunctionDeclaration 1]];
       sf_classes := []; sf_variables := [] |};
    {| sf_filePath := "/app/src/b.ts";
       sf_functions := [fn 3 FunctionDeclaration (Some "run") []
                           [callTo FunctionDeclaration 1]];
       sf_classes := []; sf_variables := [] |} ].

Definition callFiles : list string := ["/app/src/a.ts"; "/app/src/b.ts"].





(** A module that re-exports a module it imports. *)
Definition dbModuleRef : ClassRef :=
  {| ref_name := Some "DbModule"; ref_filePath := "/app/src/db.module.ts";
     ref_decorators := ["Module"] |}.

Definition reexportProject : Project :=
  [ classFile "/app/src/db.module.ts" [plainClass "DbModule" [moduleDeco []] []];
    classFile "/app/src/app.module.ts"
      [plainClass "AppModule"
         [moduleDeco [listOf "imports" [dbModuleRef]; listOf "exports" [dbModuleRef]]]
         []] ].

Definition reexportFiles : list string :=
  ["/app/src/db.module.ts"; "/app/src/app.module.ts"].

(** A module that imports itself and provides a service whose constructor
    takes the service itself; the module also lists itself as a provider. *)
Definition selfModuleRef : ClassRef :=
  {| ref_name := Some "AppModule"; ref_filePath := "/app/src/app.module.ts";
     ref_decorators := ["Module"] |}.

Definition loopServiceRef : ClassRef :=
  {| ref_name := Some "LoopService"; ref_filePath := "/app/src/loop.service.ts";
     ref_decorators := ["Injectable"] |}.

Definition selfWiredProject : Project :=
  [ classFile "/app/src/app.module.ts"
      [plainClass "AppModule"
         [moduleDeco [listOf "imports" [selfModuleRef];
                      listOf "providers" [loopServiceRef; selfModuleRef]]] []];
    classFile "/app/src/loop.service.ts"
      [plainClass "LoopService" [bareDeco "Injectable"]
         [[typedParam "LoopService" (classSym loopServiceRef)]]] ].

Definition selfWiredFiles : list string := ["/app/src/app.module.ts"].

(** A function that calls itself. *)
Definition recursiveProject : Project :=
  [ {| sf_filePath := "/app/src/rec.ts";
       sf_functions := [fn 1 FunctionDeclaration (Some "loop") []
                           [callTo FunctionDeclaration 1]];
       sf_classes := []; sf_variables := [] |} ].

End Examples.

(* ================================================================== *)
(** * Properties *)

(* ------------------------------------------------------------------ *)
(** ** Facts about [JsMap] *)

Section JsMapFacts.
Variables K V : Type.
Variable eqb : K -> K -> bool.
Hypothesis eqb_spec : forall a b, eqb a b = true <-> a = b.

Local Abbreviation set := (JsMap.set eqb).
Local Abbreviation get := (JsMap.get eqb).
Local Abbreviation has := (JsMap.has eqb).
Local Abbreviation ofEntries := (JsMap.ofEntries eqb).
Local Abbreviation keys := (@JsMap.keys K V).

Lemma eqb_refl' : forall a, eqb a a = true.
Proof. intro a. apply eqb_spec. reflexivity. Qed.

Lemma eqb_neq' : forall a b, a <> b -> eqb a b = false.
Proof.
  intros a b Hab. destruct (eqb a b) eqn:E; [|reflexivity].
  apply eqb_spec in E. contradiction.
Qed.

Lemma jsmap_get_set_same : forall (m : JsMap.t K V) k v, get k (set k v m) = Some v.
Proof.
  induction m as [|[k' v'] m IH]; intros k v; simpl.
  - now rewrite eqb_refl'.
  - destruct (eqb k' k) eqn:E; simpl; rewrite E; auto.
Qed.

Lemma jsmap_get_set_other :
  forall (m : JsMap.t K V) k v k', k' <> k -> get k' (set k v m) = get k' m.
Proof.
  induction m as [|[k0 v0] m IH]; intros k v k' Hne; simpl.
  - rewrite eqb_neq'; auto.
  - destruct (eqb k0 k) eqn:E; simpl.
    + apply eqb_spec in E. subst k0. rewrite eqb_neq'; auto.
    + destruct (eqb k0 k'); auto.
Qed.

Lemma jsmap_get_In : forall (m : JsMap.t K V) k v, get k m = Some v -> In (k, v) m.
Proof.
  induction m as [|[k0 v0] m IH]; intros k v; simpl; [discriminate|].
  destruct (eqb k0 k) eqn:E.
  - intros [= ->]. apply eqb_spec in E. subst. now left.
  - intros H. right. auto.
Qed.

Lemma jsmap_get_None : forall (m : JsMap.t K V) k, get k m = None <-> ~ In k (keys m).
Proof.
  induction m as [|[k0 v0] m IH]; intros k; simpl.
  - tauto.
  - destruct (eqb k0 k) eqn:E.
    + apply eqb_spec in E. subst. split; [discriminate|intros H; exfalso; apply H; now left].
    + rewrite IH. split.
      * intros H [H1|H1]; [subst; rewrite eqb_refl' in E; discriminate|auto].
      * intros H H1. apply H. now right.
Qed.

Lemma jsmap_In_get :
  forall (m : JsMap.t K V) k v, NoDup (keys m) -> In (k, v) m -> get k m = Some v.
Proof.
  induction m as [|[k0 v0] m IH]; intros k v Hnd Hin; simpl in *; [contradiction|].
  inversion Hnd as [|? ? Hnotin Hnd']; subst.
  destruct Hin as [[= -> ->]|Hin].
  - now rewrite eqb_refl'.
  - destruct (eqb k0 k) eqn:E.
    + apply eqb_spec in E. subst. exfalso. apply Hnotin.
      change k with (fst (k, v)). now apply in_map.
    + auto.
Qed.

Lemma jsmap_has_true : forall (m : JsMap.t K V) k, has k m = true <-> In k (keys m).
Proof.
  intros m k. unfold JsMap.has. destruct (get k m) eqn:E.
  - split; [intros _|reflexivity]. apply jsmap_get_In in E.
    change k with (fst (k, v)). now apply in_map.
  - split; [discriminate|]. intros H. apply jsmap_get_None in E. contradiction.
Qed.

Lemma jsmap_keys_set :
  forall (m : JsMap.t K V) k v,
    keys (set k v m) = if has k m then keys m else keys m ++ [k].
Proof.
  induction m as [|[k0 v0] m IH]; intros k v; simpl; [reflexivity|].
  unfold JsMap.has in *. simpl. destruct (eqb k0 k) eqn:E; simpl; [reflexivity|].
  rewrite IH. destruct (get k m); reflexivity.
Qed.

Lemma jsmap_set_absent :
  forall (m : JsMap.t K V) k v, ~ In k (keys m) -> set k v m = m ++ [(k, v)].
Proof.
  induction m as [|[k0 v0] m IH]; intros k v Hn; simpl in *; [reflexivity|].
  destruct (eqb k0 k) eqn:E.
  - apply eqb_spec in E. subst. exfalso. apply Hn. now left.
  - f_equal. apply IH. intros H. apply Hn. now right.
Qed.

Lemma jsmap_NoDup_set :
  forall (m : JsMap.t K V) k v, NoDup (keys m) -> NoDup (keys (set k v m)).
Proof.
  intros m k v Hnd. rewrite jsmap_keys_set. destruct (has k m) eqn:E; [assumption|].
  assert (~ In k (keys m)) as Hn.
  { intros H. apply jsmap_has_true in H. congruence. }
  apply NoDup_app; [assumption|repeat constructor; simpl; tauto|].
  intros x Hx [<-|[]]. contradiction.
Qed.

Lemma jsmap_In_set :
  forall (m : JsMap.t K V) k v k' v',
    In (k', v') (set k v m) -> (k' = k /\ v' = v) \/ In (k', v') m.
Proof.
  induction m as [|[k0 v0] m IH]; intros k v k' v'; simpl.
  - intros [[= <- <-]|[]]. now left.
  - destruct (eqb k0 k) eqn:E; simpl.
    + apply eqb_spec in E. subst. intros [[= <- <-]|H]; [now left|right; now right].
    + intros [H|H]; [right; now left|].
      apply IH in H. destruct H; [now left|right; now right].
Qed.

(** Folding [set] over entries, from any map. *)
Definition setAll (entries : list (K * V)) (m : JsMap.t K V) : JsMap.t K V :=
  fold_left (fun m kv => JsMap.set eqb (fst kv) (snd kv) m) entries m.

Lemma setAll_snoc :
  forall l kv m, setAll (l ++ [kv]) m = set (fst kv) (snd kv) (setAll l m).
Proof. intros. unfold setAll. now rewrite fold_left_app. Qed.

Lemma setAll_NoDup :
  forall l m, NoDup (keys m) -> NoDup (keys (setAll l m)).
Proof.
  induction l as [|[k v] l IH]; intros m H; simpl; [assumption|].
  apply IH. now apply jsmap_NoDup_set.
Qed.

Lemma setAll_In :
  forall l m kv, In kv (setAll l m) -> In kv l \/ In kv m.
Proof.
  induction l as [|[k v] l IH]; intros m [k' v'] H; simpl in *; [now right|].
  apply IH in H. destruct H as [H|H]; [left; now right|].
  apply jsmap_In_set in H. destruct H as [[-> ->]|H]; [left; now left|now right].
Qed.

Lemma setAll_keys_In :
  forall l m k, In k (keys (setAll l m)) <-> In k (map (@fst K V) l) \/ In k (keys m).
Proof.
  induction l as [|[k0 v0] l IH]; intros m k; simpl; [tauto|].
  rewrite IH, jsmap_keys_set. destruct (has k0 m) eqn:E.
  - apply jsmap_has_true in E. split; [tauto|]. intros [[<-|H]|H]; auto.
  - rewrite in_app_iff. simpl. tauto.
Qed.

(** On entries with pairwise distinct keys, absent from the map, [set]
    only appends. *)
Lemma setAll_fresh :
  forall l m, NoDup (keys (m ++ l)) -> setAll l m = m ++ l.
Proof.
  induction l as [|[k v] l IH]; intros m Hnd; simpl.
  - now rewrite app_nil_r.
  - assert (~ In k (keys m)) as Hk.
    { unfold JsMap.keys in Hnd. rewrite map_app in Hnd. simpl in Hnd.
      apply NoDup_remove_2 in Hnd. intros H. apply Hnd. apply in_or_app. now left. }
    rewrite jsmap_set_absent by assumption.
    rewrite IH; rewrite <- app_assoc; simpl; [reflexivity|assumption].
Qed.

(** Last write wins: the value under [k] is the one of the last entry
    with key [k]. *)
Lemma ofEntries_get :
  forall l k v,
    get k (ofEntries l) = Some v <->
    exists l1 l2, l = l1 ++ (k, v) :: l2 /\ ~ In k (map (@fst K V) l2).
Proof.
  induction l as [|[k0 v0] l IH] using rev_ind; intros k v.
  - simpl. split; [discriminate|]. intros (l1 & l2 & H & _).
    destruct l1; discriminate.
  - change (ofEntries (l ++ [(k0, v0)])) with (setAll (l ++ [(k0, v0)]) []).
    rewrite setAll_snoc. simpl. change (setAll l []) with (ofEntries l).
    split.
    + intros H. destruct (eqb k0 k) eqn:E.
      * apply eqb_spec in E. subst k0. rewrite jsmap_get_set_same in H.
        injection H as ->. exists l, []. simpl. tauto.
      * rewrite jsmap_get_set_other in H
          by (intros ->; rewrite eqb_refl' in E; discriminate).
        apply IH in H. destruct H as (l1 & l2 & -> & Hn).
        exists l1, (l2 ++ [(k0, v0)]). split.
        -- now rewrite <- app_assoc.
        -- rewrite map_app, in_app_iff. simpl. intros [H|[H|[]]]; [auto|].
           subst. rewrite eqb_refl' in E. discriminate.
    + intros (l1 & l2 & Heq & Hn).
      destruct l2 as [|x l2 _] using rev_ind.
      * apply app_inj_tail in Heq. destruct Heq as [-> [= -> ->]].
        apply jsmap_get_set_same.
      * rewrite app_comm_cons, app_assoc in Heq.
        apply app_inj_tail in Heq. destruct Heq as [-> <-].
        rewrite map_app, in_app_iff in Hn. simpl in Hn.
        rewrite jsmap_get_set_other by (intros ->; tauto).
        apply IH. exists l1, l2. split; [reflexivity|tauto].
Qed.

End JsMapFacts.

(* ------------------------------------------------------------------ *)
(** ** Facts about the de-duplication step *)

Section DedupFacts.
Variables K A : Type.
Variable eqb : K -> K -> bool.
Hypothesis eqb_spec : forall a b, eqb a b = true <-> a = b.
Variable key : A -> K.

Local Abbreviation entry := (fun x : A => (key x, x)).

Lemma entries_values :
  forall m : JsMap.t K A,
    (forall k v, In (k, v) m -> k = key v) -> map entry (JsMap.values m) = m.
Proof.
  induction m as [|[k v] m IH]; intros H; simpl; [reflexivity|].
  rewrite IH by (intros; apply H; now right).
  rewrite <- (H k v) by now left. reflexivity.
Qed.

Lemma ofEntries_entries :
  forall l k v, In (k, v) (JsMap.ofEntries eqb (map entry l)) -> k = key v.
Proof.
  intros l k v H. apply (setAll_In eqb eqb_spec) in H. destruct H as [H|H].
  - apply in_map_iff in H. destruct H as (x & Hx & _).
    injection Hx as <- <-. reflexivity.
  - destruct H.
Qed.

Lemma dedupBy_keys :
  forall l, map key (dedupBy eqb key l)
            = JsMap.keys (JsMap.ofEntries eqb (map entry l)).
Proof.
  intros l. unfold dedupBy, JsMap.values, JsMap.keys.
  rewrite map_map. apply map_ext_in. intros [k v] H. simpl.
  symmetry. eapply ofEntries_entries; eauto.
Qed.

Lemma dedupBy_NoDup : forall l, NoDup (map key (dedupBy eqb key l)).
Proof.
  intros l. rewrite dedupBy_keys. apply (setAll_NoDup eqb eqb_spec). constructor.
Qed.

Lemma dedupBy_In_iff :
  forall l x,
    In x (dedupBy eqb key l) <->
    exists l1 l2, l = l1 ++ x :: l2 /\ ~ In (key x) (map key l2).
Proof.
  intros l x. split.
  - intros H. unfold dedupBy, JsMap.values in H. apply in_map_iff in H.
    destruct H as ([k v] & Hx & Hin). simpl in Hx. subst v.
    pose proof (ofEntries_entries _ _ _ Hin) as ->.
    apply (jsmap_In_get eqb eqb_spec) in Hin;
      [|apply (setAll_NoDup eqb eqb_spec); constructor].
    apply (ofEntries_get eqb eqb_spec) in Hin.
    destruct Hin as (e1 & e2 & Heq & Hn).
    apply map_eq_app in Heq. destruct Heq as (l1 & r & -> & <- & Hr).
    apply map_eq_cons in Hr. destruct Hr as (y & l2 & -> & [= _ ->] & <-).
    exists l1, l2. split; [reflexivity|].
    rewrite map_map in Hn. exact Hn.
  - intros (l1 & l2 & -> & Hn).
    unfold dedupBy, JsMap.values. apply in_map_iff. exists (key x, x).
    split; [reflexivity|]. apply (jsmap_get_In eqb eqb_spec).
    apply (ofEntries_get eqb eqb_spec). exists (map entry l1), (map entry l2).
    split; [now rewrite map_app|]. now rewrite map_map.
Qed.

Lemma dedupBy_incl : forall l x, In x (dedupBy eqb key l) -> In x l.
Proof.
  intros l x H. apply dedupBy_In_iff in H. destruct H as (l1 & l2 & -> & _).
  apply in_or_app. right. now left.
Qed.

(** No key is lost. *)
Lemma dedupBy_keys_iff :
  forall l k, In k (map key (dedupBy eqb key l)) <-> In k (map key l).
Proof.
  intros l k. rewrite dedupBy_keys.
  unfold JsMap.ofEntries. fold (setAll eqb (map entry l) []).
  rewrite (setAll_keys_In eqb eqb_spec). rewrite map_map. simpl. tauto.
Qed.

Lemma dedupBy_fixed : forall l, NoDup (map key l) -> dedupBy eqb key l = l.
Proof.
  intros l H. unfold dedupBy, JsMap.ofEntries. fold (setAll eqb (map entry l) []).
  rewrite (setAll_fresh eqb eqb_spec).
  - simpl. unfold JsMap.values. rewrite map_map. simpl. apply map_id.
  - simpl. unfold JsMap.keys. now rewrite map_map.
Qed.

Lemma dedupBy_idempotent :
  forall l, dedupBy eqb key (dedupBy eqb key l) = dedupBy eqb key l.
Proof. intros l. apply dedupBy_fixed. apply dedupBy_NoDup. Qed.

(** The same step written on the values alone: [upsert x] replaces the
    first element carrying the key of [x], or appends [x]. *)
Fixpoint upsert (x : A) (vs : list A) : list A :=
  match vs with
  | [] => [x]
  | y :: vs' => if eqb (key y) (key x) then x :: vs' else y :: upsert x vs'
  end.

Lemma set_entry_upsert :
  forall vs x, JsMap.set eqb (key x) x (map entry vs) = map entry (upsert x vs).
Proof.
  induction vs as [|y vs IH]; intros x; simpl; [reflexivity|].
  destruct (eqb (key y) (key x)) eqn:E; simpl.
  - apply eqb_spec in E. now rewrite E.
  - now rewrite IH.
Qed.

Lemma dedupBy_upsert :
  forall l, dedupBy eqb key l = fold_left (fun vs x => upsert x vs) l [].
Proof.
  intros l. unfold dedupBy, JsMap.ofEntries.
  assert (forall vs,
             JsMap.values (fold_left (fun m kv => JsMap.set eqb (fst kv) (snd kv) m)
                                     (map entry l) (map entry vs))
             = fold_left (fun vs x => upsert x vs) l vs) as H.
  { induction l as [|x l IH]; intros vs; simpl.
    - unfold JsMap.values. rewrite map_map. apply map_id.
    - rewrite set_entry_upsert. apply IH. }
  apply (H []).
Qed.

Lemma upsert_In : forall vs x y, In y (upsert x vs) -> y = x \/ In y vs.
Proof.
  induction vs as [|z vs IH]; intros x y; simpl.
  - intros [<-|[]]. now left.
  - destruct (eqb (key z) (key x)); simpl.
    + intros [<-|H]; auto.
    + intros [<-|H]; auto. apply IH in H. tauto.
Qed.

End DedupFacts.

(** Two key functions that identify the same elements de-duplicate alike. *)
Lemma dedupBy_same_classes :
  forall (K1 K2 A : Type) (eqb1 : K1 -> K1 -> bool) (eqb2 : K2 -> K2 -> bool)
         (spec1 : forall a b, eqb1 a b = true <-> a = b)
         (spec2 : forall a b, eqb2 a b = true <-> a = b)
         (k1 : A -> K1) (k2 : A -> K2) (l : list A),
    (forall x y, In x l -> In y l -> eqb1 (k1 x) (k1 y) = eqb2 (k2 x) (k2 y)) ->
    dedupBy eqb1 k1 l = dedupBy eqb2 k2 l.
Proof.
  intros K1 K2 A eqb1 eqb2 spec1 spec2 k1 k2 l Hagree.
  rewrite (dedupBy_upsert eqb1 spec1), (dedupBy_upsert eqb2 spec2).
  assert (forall l' vs,
             (forall x, In x l' -> In x l) -> (forall x, In x vs -> In x l) ->
             fold_left (fun vs x => upsert eqb1 k1 x vs) l' vs
             = fold_left (fun vs x => upsert eqb2 k2 x vs) l' vs) as H.
  { induction l' as [|x l' IH]; intros vs Hl Hvs; simpl; [reflexivity|].
    assert (upsert eqb1 k1 x vs = upsert eqb2 k2 x vs) as ->.
    { assert (In x l) as Hx by (apply Hl; now left).
      clear Hl IH. induction vs as [|y vs IHvs]; simpl; [reflexivity|].
      rewrite Hagree by (auto; apply Hvs; now left).
      rewrite IHvs by (intros; apply Hvs; now right). reflexivity. }
    apply IH.
    - intros; apply Hl; now right.
    - intros y Hy. apply upsert_In in Hy. destruct Hy as [->|Hy]; auto.
      apply Hl. now left. }
  apply H; [auto|intros x []].
Qed.

(* ------------------------------------------------------------------ *)
(** ** Facts about strings and identifiers *)

Lemma str_app_assoc : forall a b c : string, ((a ++ b) ++ c = a ++ (b ++ c))%string.
Proof. induction a as [|x a IH]; intros b c; simpl; [reflexivity|now rewrite IH]. Qed.

Lemma str_mem_app :
  forall c a b, Str.mem c (a ++ b)%string = Str.mem c a || Str.mem c b.
Proof.
  induction a as [|x a IH]; intros b; simpl; [reflexivity|].
  now rewrite IH, orb_assoc.
Qed.

(** A string is cut in one way only at the last occurrence of a character. *)
Lemma str_cut_last :
  forall c (l1 l2 t1 t2 : string),
    Str.mem c t1 = false -> Str.mem c t2 = false ->
    (l1 ++ String c t1 = l2 ++ String c t2)%string -> l1 = l2 /\ t1 = t2.
Proof.
  intros c. induction l1 as [|x l1 IH]; intros [|y l2] t1 t2 H1 H2 Heq; simpl in Heq.
  - injection Heq as ->. auto.
  - injection Heq as <- ->. rewrite str_mem_app in H1. simpl in H1.
    rewrite Ascii.eqb_refl in H1. simpl in H1.
    rewrite orb_true_r in H1. discriminate.
  - injection Heq as -> <-. rewrite str_mem_app in H2. simpl in H2.
    rewrite Ascii.eqb_refl in H2. simpl in H2.
    rewrite orb_true_r in H2. discriminate.
  - injection Heq as -> Heq. destruct (IH l2 t1 t2 H1 H2 Heq) as [-> ->]. auto.
Qed.

(** ... and at its first occurrence. *)
Lemma str_cut_first :
  forall c (l1 l2 t1 t2 : string),
    Str.mem c l1 = false -> Str.mem c l2 = false ->
    (l1 ++ String c t1 = l2 ++ String c t2)%string -> l1 = l2 /\ t1 = t2.
Proof.
  intros c. induction l1 as [|x l1 IH]; intros [|y l2] t1 t2 H1 H2 Heq;
    simpl in Heq, H1, H2.
  - injection Heq as ->. auto.
  - injection Heq as <- _. rewrite Ascii.eqb_refl in H2. discriminate.
  - injection Heq as -> _. rewrite Ascii.eqb_refl in H1. discriminate.
  - injection Heq as -> Heq.
    apply orb_false_iff in H1. apply orb_false_iff in H2.
    destruct (IH l2 t1 t2 (proj2 H1) (proj2 H2) Heq) as [-> ->]. auto.
Qed.

Lemma str_app_inv_tail : forall a b t : string, (a ++ t = b ++ t)%string -> a = b.
Proof.
  intros a b t. revert a b. induction t as [|c t IH]; intros a b H.
  - assert (forall s : string, (s ++ "")%string = s) as E
        by (induction s as [|x s IHs]; simpl; [reflexivity|now rewrite IHs]).
    now rewrite !E in H.
  - assert (forall s : string, (s ++ String c t)%string = ((s ++ String c "") ++ t)%string) as E
        by (intros s; now rewrite str_app_assoc).
    rewrite (E a), (E b) in H. apply IH in H.
    apply (str_cut_last c a b "" "") in H; [tauto|reflexivity|reflexivity].
Qed.

(** The characters of a base-36 numeral. *)
Definition isDigit36 (c : ascii) : bool :=
  let n := nat_of_ascii c in
  ((48 <=? n)%nat && (n <=? 57)%nat) || ((97 <=? n)%nat && (n <=? 122)%nat).

Lemma digit36_isDigit36 : forall d, (0 <= d < 36)%Z -> isDigit36 (digit36 d) = true.
Proof.
  intros d Hd. assert (exists k, (k < 36)%nat /\ d = Z.of_nat k) as (k & Hk & ->).
  { exists (Z.to_nat d). split; lia. }
  do 36 (destruct k as [|k]; [reflexivity|]). lia.
Qed.

Fixpoint allChars (p : ascii -> bool) (s : string) : bool :=
  match s with
  | EmptyString => true
  | String c s' => p c && allChars p s'
  end.

Lemma toString36_aux_digits :
  forall fuel n acc,
    allChars isDigit36 acc = true ->
    allChars isDigit36 (toString36_aux fuel n acc) = true.
Proof.
  induction fuel as [|f IH]; intros n acc Hacc; simpl; [assumption|].
  assert (allChars isDigit36 (String (digit36 (n mod 36)) acc) = true) as H.
  { simpl. rewrite digit36_isDigit36 by (apply Z.mod_pos_bound; lia). assumption. }
  destruct (n / 36 =? 0)%Z; [assumption|]. now apply IH.
Qed.

Lemma allChars_take :
  forall p n s, allChars p s = true -> allChars p (Str.take n s) = true.
Proof.
  intros p. induction n as [|n IH]; intros [|c s] H; simpl in *; try reflexivity.
  apply andb_true_iff in H. destruct H as [-> H]. simpl. now apply IH.
Qed.

Lemma shortHash_digits : forall s, allChars isDigit36 (shortHash s) = true.
Proof.
  intros s. unfold shortHash. apply allChars_take.
  apply toString36_aux_digits. reflexivity.
Qed.

Lemma allChars_not_mem :
  forall p c s, p c = false -> allChars p s = true -> Str.mem c s = false.
Proof.
  intros p c. induction s as [|x s IH]; intros Hc H; simpl in *; [reflexivity|].
  apply andb_true_iff in H. destruct H as [Hx H].
  rewrite IH by assumption. rewrite orb_false_r.
  destruct (Ascii.eqb_spec x c) as [->|]; [congruence|reflexivity].
Qed.

Lemma shortHash_no_char :
  forall c s, isDigit36 c = false -> Str.mem c (shortHash s) = false.
Proof.
  intros c s H. eapply allChars_not_mem; [exact H|apply shortHash_digits].
Qed.

(** Seven digits are enough: the numeral of an unsigned 32-bit value reads
    back as the value. *)
Definition digitValue (c : ascii) : Z :=
  let n := Z.of_nat (nat_of_ascii c) in
  if (n <? 58)%Z then (n - 48)%Z else (n - 87)%Z.

Fixpoint numeralValue (s : string) : Z :=
  match s with
  | EmptyString => 0
  | String c s' => digitValue c * 36 ^ Z.of_nat (String.length s') + numeralValue s'
  end%Z.

Lemma digitValue_digit36 : forall d, (0 <= d < 36)%Z -> digitValue (digit36 d) = d.
Proof.
  intros d Hd. assert (exists k, (k < 36)%nat /\ d = Z.of_nat k) as (k & Hk & ->).
  { exists (Z.to_nat d). split; lia. }
  do 36 (destruct k as [|k]; [reflexivity|]). lia.
Qed.

Lemma numeralValue_toString36_aux :
  forall fuel n acc,
    (0 <= n < 36 ^ Z.of_nat fuel)%Z ->
    numeralValue (toString36_aux fuel n acc)
    = (n * 36 ^ Z.of_nat (String.length acc) + numeralValue acc)%Z.
Proof.
  induction fuel as [|f IH]; intros n acc Hn.
  - simpl in *. assert (n = 0)%Z as -> by lia. lia.
  - cbn [toString36_aux].
    assert (0 <= n mod 36 < 36)%Z as Hm by (apply Z.mod_pos_bound; lia).
    assert (n = 36 * (n / 36) + n mod 36)%Z as Hdiv by (apply Z.div_mod; lia).
    assert (0 <= n / 36 < 36 ^ Z.of_nat f)%Z as Hq.
    { split; [apply Z.div_pos; lia|]. apply Z.div_lt_upper_bound; [lia|].
      replace (Z.of_nat (S f)) with (1 + Z.of_nat f)%Z in Hn by lia.
      rewrite Z.pow_add_r in Hn by lia. lia. }
    assert (numeralValue (String (digit36 (n mod 36)) acc)
            = (n mod 36) * 36 ^ Z.of_nat (String.length acc) + numeralValue acc)%Z as Hd.
    { cbn [numeralValue]. now rewrite digitValue_digit36. }
    destruct (n / 36 =? 0)%Z eqn:E.
    + apply Z.eqb_eq in E. rewrite Hd. rewrite E in Hdiv. f_equal. f_equal. lia.
    + rewrite IH by assumption. rewrite Hd. cbn [String.length].
      replace (Z.of_nat (S (String.length acc))) with (1 + Z.of_nat (String.length acc))%Z by lia.
      rewrite Z.pow_add_r by lia. rewrite Hdiv at 3. ring.
Qed.

Lemma toString36_value :
  forall n, (0 <= n < 4294967296)%Z -> numeralValue (toString36 n) = n.
Proof.
  intros n Hn. unfold toString36. rewrite numeralValue_toString36_aux.
  - simpl. lia.
  - change (36 ^ Z.of_nat 7)%Z with 78364164096%Z. lia.
Qed.

(* ------------------------------------------------------------------ *)
(** ** Graph assembly: de-duplication (C6) *)

Lemma pairEqb_spec : forall a b, pairEqb a b = true <-> a = b.
Proof.
  intros [a1 a2] [b1 b2]. unfold pairEqb. simpl.
  rewrite andb_true_iff, !String.eqb_eq. split; [intros [-> ->]|intros [= -> ->]]; auto.
Qed.

Lemma edgeKey_pair :
  forall e1 e2, edgePair e1 = edgePair e2 -> edgeKey e1 = edgeKey e2.
Proof. intros e1 e2 [= H1 H2]. unfold edgeKey. now rewrite H1, H2. Qed.

(** The key string identifies the ordered pair as long as the source
    identifiers hold no vertical bar. *)
Lemma edgeKey_injective :
  forall e1 e2,
    Str.mem "|" (from e1) = false -> Str.mem "|" (from e2) = false ->
    edgeKey e1 = edgeKey e2 -> edgePair e1 = edgePair e2.
Proof.
  intros e1 e2 H1 H2 H. unfold edgeKey in H. simpl in H.
  apply str_cut_first in H; try assumption.
  unfold edgePair. destruct H as [-> ->]. reflexivity.
Qed.

Lemma NoDup_map_factor :
  forall (A B C : Type) (f : A -> B) (g : A -> C) (l : list A),
    (forall x y, f x = f y -> g x = g y) -> NoDup (map g l) -> NoDup (map f l).
Proof.
  intros A B C f g l Hfg. induction l as [|x l IH]; simpl; intros H; [constructor|].
  inversion H as [|? ? Hn Hnd]; subst. constructor; [|auto].
  intros Hin. apply Hn. apply in_map_iff in Hin. destruct Hin as (y & Hy & Hin).
  apply in_map_iff. exists y. split; [|assumption]. symmetry. apply Hfg. now symmetry.
Qed.

(** C6 (as amended).  The assembly step keeps one node per identifier and
    one edge per key string [from|to]; the survivor is the last element
    pushed with that key, at most one edge per ordered pair [(from, to)]
    remains, and the step is idempotent on any raw lists.  Whenever no source
    identifier of a raw edge holds the character [|], the step is exactly
    de-duplication by the ordered pair [(from, to)]. *)
Theorem dedup_last_write_wins_idempotent :
  forall (ns : list GraphNode) (es : list GraphEdge),
    NoDup (map id (uniqueNodes ns))
    /\ (forall n, In n (uniqueNodes ns) <->
                  exists l1 l2, ns = l1 ++ n :: l2 /\ ~ In (id n) (map id l2))
    /\ NoDup (map edgePair (uniqueEdges es))
    /\ (forall e, In e (uniqueEdges es) <->
                  exists l1 l2, es = l1 ++ e :: l2 /\ ~ In (edgeKey e) (map edgeKey l2))
    /\ ((forall e, In e es -> Str.mem "|" (from e) = false) ->
        uniqueEdges es = dedupEdgesByPair es)
    /\ uniqueNodes (uniqueNodes ns) = uniqueNodes ns
    /\ uniqueEdges (uniqueEdges es) = uniqueEdges es.
Proof.
  intros ns es. unfold uniqueNodes, uniqueEdges, dedupEdgesByPair.
  repeat split.
  - apply (dedupBy_NoDup String.eqb String.eqb_eq).
  - apply (dedupBy_In_iff String.eqb String.eqb_eq).
  - apply (dedupBy_In_iff String.eqb String.eqb_eq).
  - apply NoDup_map_factor with (g := edgeKey).
    + intros x y H. now apply edgeKey_pair.
    + apply (dedupBy_NoDup String.eqb String.eqb_eq).
  - apply (dedupBy_In_iff String.eqb String.eqb_eq).
  - apply (dedupBy_In_iff String.eqb String.eqb_eq).
  - intros Hbar.
    apply dedupBy_same_classes; [exact String.eqb_eq|exact pairEqb_spec|].
    intros x y Hx Hy.
    destruct (String.eqb_spec (edgeKey x) (edgeKey y)) as [E|E].
    + symmetry. apply pairEqb_spec. apply edgeKey_injective; auto.
    + destruct (pairEqb (edgePair x) (edgePair y)) eqn:P; [|reflexivity].
      apply pairEqb_spec in P. apply edgeKey_pair in P. contradiction.
  - apply (dedupBy_idempotent String.eqb String.eqb_eq).
  - apply (dedupBy_idempotent String.eqb String.eqb_eq).
Qed.

(** C6, the claim as first stated: two edges with different endpoints are
    merged when their key strings coincide, which de-duplication by the
    ordered pair would keep apart. *)
Lemma dedup_key_string_collision :
  uniqueEdges [Examples.barEdge1; Examples.barEdge2] = [Examples.barEdge2]
  /\ dedupEdgesByPair [Examples.barEdge1; Examples.barEdge2]
     = [Examples.barEdge1; Examples.barEdge2].
Proof. split; reflexivity. Qed.

Lemma dedup_call_sites_collapse :
  uniqueEdges Examples.callSites = dedupEdgesByPair Examples.callSites
  /\ List.length (uniqueEdges Examples.callSites) = 1%nat.
Proof.
  split; [|reflexivity].
  destruct (dedup_last_write_wins_idempotent [] Examples.callSites)
    as (_ & _ & _ & _ & Hpair & _).
  apply Hpair. intros e [<-|[<-|[]]]; reflexivity.
Defined.

(* ------------------------------------------------------------------ *)
(** ** Empty input and missing files (C9) *)

Definition emptyGraph : Graph := {| nodes := []; edges := [] |}.

(** The listed paths that have a source file in the model. *)
Definition presentPaths (project : Project) (filePaths : list string) : list string :=
  filter (fun p => match getSourceFile project p with
                   | Some _ => true
                   | None => false
                   end) filePaths.

Lemma fold_left_skip :
  forall (S X : Type) (f : S -> X -> S) (keep : X -> bool),
    (forall st x, keep x = false -> f st x = st) ->
    forall l st, fold_left f l st = fold_left f (filter keep l) st.
Proof.
  intros S X f keep Hskip. induction l as [|x l IH]; intros st; simpl; [reflexivity|].
  destruct (keep x) eqn:E; simpl.
  - apply IH.
  - rewrite Hskip by assumption. apply IH.
Qed.

Lemma collect_present :
  forall project filePaths,
    collect project filePaths = collect project (presentPaths project filePaths).
Proof.
  intros. unfold collect, presentPaths. apply fold_left_skip.
  intros st x H. unfold collectStep. destruct (getSourceFile project x); [discriminate|reflexivity].
Qed.

Lemma scanModules_present :
  forall project filePaths,
    scanModules project filePaths = scanModules project (presentPaths project filePaths).
Proof.
  intros. unfold scanModules, presentPaths. apply fold_left_skip.
  intros st x H. unfold scanStep. destruct (getSourceFile project x); [discriminate|reflexivity].
Qed.

Lemma modulesOnly_present :
  forall project filePaths,
    analyzeDirectoryModules project filePaths
    = analyzeDirectoryModules project (presentPaths project filePaths).
Proof.
  intros. unfold analyzeDirectoryModules, presentPaths. f_equal. f_equal.
  apply fold_left_skip.
  intros st x H. unfold modulesOnlyStep.
  destruct (getSourceFile project x); [discriminate|reflexivity].
Qed.

Lemma presentPaths_empty_project : forall filePaths, presentPaths [] filePaths = [].
Proof. induction filePaths as [|p l IH]; simpl; auto. Qed.

(** C9.  With no listed file, or with a model that holds no source file, each
    of the three entry points returns the graph without nodes and edges (the
    analyses are total functions: nothing is raised).  A listed path that has
    no source file in the model is skipped: every entry point gives the same
    graph as on the listed paths that do have one. *)
Theorem empty_input_empty_graph :
  (forall project,
      analyzeDirectoryGraph project [] = emptyGraph
      /\ analyzeWiringGraph project [] = emptyGraph
      /\ analyzeDirectoryModules project [] = emptyGraph)
  /\ (forall filePaths,
         analyzeDirectoryGraph [] filePaths = emptyGraph
         /\ analyzeWiringGraph [] filePaths = emptyGraph
         /\ analyzeDirectoryModules [] filePaths = emptyGraph)
  /\ (forall project filePaths,
         analyzeDirectoryGraph project filePaths
         = analyzeDirectoryGraph project (presentPaths project filePaths)
         /\ analyzeWiringGraph project filePaths
            = analyzeWiringGraph project (presentPaths project filePaths)
         /\ analyzeDirectoryModules project filePaths
            = analyzeDirectoryModules project (presentPaths project filePaths)).
Proof.
  assert (forall project filePaths,
             analyzeDirectoryGraph project filePaths
             = analyzeDirectoryGraph project (presentPaths project filePaths)
             /\ analyzeWiringGraph project filePaths
                = analyzeWiringGraph project (presentPaths project filePaths)
             /\ analyzeDirectoryModules project filePaths
                = analyzeDirectoryModules project (presentPaths project filePaths)) as Hskip.
  { intros project filePaths. repeat split.
    - unfold analyzeDirectoryGraph. now rewrite <- collect_present.
    - unfold analyzeWiringGraph. now rewrite <- scanModules_present.
    - apply modulesOnly_present. }
  split; [|split].
  - intros project. repeat split; reflexivity.
  - intros filePaths. destruct (Hskip [] filePaths) as (H1 & H2 & H3).
    rewrite H1, H2, H3, presentPaths_empty_project. repeat split; reflexivity.
  - exact Hskip.
Qed.

(* ------------------------------------------------------------------ *)
(** ** The dependency-injection pass reads one constructor (C8) *)

Definition ConstructorList := list (list ParameterDeclaration).

(** The same class with its constructor list rewritten by [g]. *)
Definition updConstructors (g : ConstructorList -> ConstructorList)
           (cls : ClassDeclaration) : ClassDeclaration :=
  {| cls_name := cls_name cls;
     cls_decorators := cls_decorators cls;
     cls_methods := cls_methods cls;
     cls_properties := cls_properties cls;
     cls_constructors := g (cls_constructors cls) |}.

Definition mapConstructorsFile (g : ConstructorList -> ConstructorList)
           (sf : SourceFile) : SourceFile :=
  {| sf_filePath := sf_filePath sf;
     sf_functions := sf_functions sf;
     sf_classes := map (updConstructors g) (sf_classes sf);
     sf_variables := sf_variables sf |}.

Definition mapConstructors (g : ConstructorList -> ConstructorList)
           (project : Project) : Project :=
  map (mapConstructorsFile g) project.

(** Every class keeps its first declared constructor only. *)
Definition firstConstructorOnly : Project -> Project := mapConstructors (firstn 1).

(** Every class loses its explicit constructors. *)
Definition withoutConstructors : Project -> Project := mapConstructors (fun _ => []).

Section ConstructorRewrite.
Variable g : ConstructorList -> ConstructorList.

Lemma getSourceFile_mapConstructors :
  forall project path,
    getSourceFile (mapConstructors g project) path
    = option_map (mapConstructorsFile g) (getSourceFile project path).
Proof.
  unfold getSourceFile. induction project as [|sf p IH]; intros path; simpl; [reflexivity|].
  destruct (String.eqb (sf_filePath sf) path); [reflexivity|apply IH].
Qed.

Lemma scanClasses_mapConstructors :
  forall sf classes st,
    fold_left (scanClass (mapConstructorsFile g sf)) (map (updConstructors g) classes) st
    = fold_left (scanClass sf) classes st.
Proof.
  intros sf. induction classes as [|c cs IH]; intros st; simpl; [reflexivity|].
  rewrite IH. reflexivity.
Qed.

Lemma scanModules_mapConstructors :
  forall project filePaths,
    scanModules (mapConstructors g project) filePaths = scanModules project filePaths.
Proof.
  intros project filePaths. unfold scanModules.
  generalize ({| modules := []; scan_byId := [] |}).
  induction filePaths as [|p ps IH]; intros st; simpl; [reflexivity|].
  rewrite <- IH. f_equal. unfold scanStep.
  rewrite getSourceFile_mapConstructors.
  destruct (getSourceFile project p) as [sf|]; simpl; [|reflexivity].
  apply scanClasses_mapConstructors.
Qed.

Lemma find_map :
  forall (A B : Type) (h : A -> B) (f : B -> bool) (l : list A),
    find f (map h l) = option_map h (find (fun x => f (h x)) l).
Proof.
  induction l as [|x l IH]; simpl; [reflexivity|].
  destruct (f (h x)); [reflexivity|apply IH].
Qed.

Lemma findClassOfNode_mapConstructors :
  forall project n,
    findClassOfNode (mapConstructors g project) n
    = option_map (updConstructors g) (findClassOfNode project n).
Proof.
  intros project n. unfold findClassOfNode.
  rewrite getSourceFile_mapConstructors.
  destruct (getSourceFile project (filePath n)) as [sf|]; simpl; [|reflexivity].
  apply find_map.
Qed.

Definition updEntry (e : string * ClassDeclaration) : string * ClassDeclaration :=
  (fst e, updConstructors g (snd e)).

Lemma set_updEntry :
  forall (m : JsMap.t string ClassDeclaration) k cls,
    JsMap.set String.eqb k (updConstructors g cls) (map updEntry m)
    = map updEntry (JsMap.set String.eqb k cls m).
Proof.
  induction m as [|[k0 c0] m IH]; intros k cls; simpl; [reflexivity|].
  destruct (String.eqb k0 k); simpl; [reflexivity|]. now rewrite IH.
Qed.

Lemma classDeclsById_mapConstructors :
  forall project ns,
    classDeclsById (mapConstructors g project) ns
    = map updEntry (classDeclsById project ns).
Proof.
  intros project ns. unfold classDeclsById.
  change (@nil (string * ClassDeclaration)) with (map updEntry []) at 1.
  generalize (@nil (string * ClassDeclaration)).
  induction ns as [|n ns IH]; intros acc; simpl; [reflexivity|].
  rewrite <- IH. f_equal. unfold classDeclsStep.
  destruct (isInjectable n); [|reflexivity].
  rewrite findClassOfNode_mapConstructors.
  destruct (findClassOfNode project n); simpl; [apply set_updEntry|reflexivity].
Qed.

End ConstructorRewrite.

Lemma injectionEdgesOf_first :
  forall nodesById e,
    injectionEdgesOf nodesById (updEntry (firstn 1) e) = injectionEdgesOf nodesById e.
Proof.
  intros nodesById [k cls]. unfold injectionEdgesOf, updEntry. simpl.
  destruct (cls_constructors cls); reflexivity.
Qed.

Lemma injectionEdges_first :
  forall project st,
    injectionEdges (firstConstructorOnly project) st = injectionEdges project st.
Proof.
  intros project st. unfold injectionEdges, firstConstructorOnly.
  rewrite classDeclsById_mapConstructors.
  induction (classDeclsById project (w_nodes st)) as [|e l IH]; [reflexivity|].
  cbn [map flat_map]. now rewrite injectionEdgesOf_first, IH.
Qed.

Lemma injectionEdges_none :
  forall project st, injectionEdges (withoutConstructors project) st = [].
Proof.
  intros project st. unfold injectionEdges, withoutConstructors.
  rewrite classDeclsById_mapConstructors.
  induction (classDeclsById project (w_nodes st)) as [|e l IH]; [reflexivity|].
  cbn [map flat_map]. rewrite IH. destruct e. reflexivity.
Qed.

(** C8.  The injection pass reads the first declared constructor of a class
    and nothing of the later ones: cutting every constructor list of the
    model down to its first element leaves the wiring graph unchanged, and
    the edges a class with constructors [ctor :: rest] contributes are those
    of the parameters of [ctor].  A class without an explicit constructor
    contributes no injection edge: in a model without constructors the wiring
    graph has the nodes of the original and only the containment and import
    edges. *)
Theorem injection_reads_first_constructor_only :
  forall project filePaths,
    analyzeWiringGraph (firstConstructorOnly project) filePaths
    = analyzeWiringGraph project filePaths
    /\ (forall nodesById nodeId cls ctor rest,
           injectionEdgesOf nodesById
             (nodeId, updConstructors (fun _ => ctor :: rest) cls)
           = flat_map (injectionEdge nodesById nodeId) ctor)
    /\ (forall nodesById nodeId cls,
           injectionEdgesOf nodesById (nodeId, updConstructors (fun _ => []) cls) = [])
    /\ nodes (analyzeWiringGraph (withoutConstructors project) filePaths)
       = nodes (analyzeWiringGraph project filePaths)
    /\ edges (analyzeWiringGraph (withoutConstructors project) filePaths)
       = uniqueEdges (w_edges (wireModules (scanModules project filePaths))).
Proof.
  intros project filePaths. repeat split.
  - unfold analyzeWiringGraph, firstConstructorOnly.
    rewrite scanModules_mapConstructors.
    fold (firstConstructorOnly project). now rewrite injectionEdges_first.
  - unfold analyzeWiringGraph, withoutConstructors. simpl.
    now rewrite scanModules_mapConstructors.
  - unfold analyzeWiringGraph, withoutConstructors. simpl.
    rewrite scanModules_mapConstructors.
    fold (withoutConstructors project). rewrite injectionEdges_none.
    now rewrite app_nil_r.
Qed.

(* ------------------------------------------------------------------ *)
(** ** Role classification (C4) *)

Definition hasDecorator (d : string) (cls : ClassDeclaration) : bool :=
  includes d (map deco_name (cls_decorators cls)).

(** The class name ends in [suffix], letter case ignored. *)
Definition nameEndsWith (suffix : string) (cls : ClassDeclaration) : bool :=
  Str.endsWith suffix (Str.lower (Str.orElse (cls_name cls) EmptyString)).

(** The base name of the file holds [.module.], letter case ignored. *)
Definition moduleFileName (sf : SourceFile) : bool :=
  Str.contains ".module." (Str.lower (baseName (sf_filePath sf))).

(** C4, the claim as first stated: a [Controller] decorator does not take
    priority over the name suffix [Module]; the class is a module. *)
Lemma decorator_does_not_outrank_suffix :
  hasDecorator "Controller" Examples.usersModuleClass = true
  /\ hasDecorator "Module" Examples.usersModuleClass = false
  /\ getClassRole Examples.usersFile Examples.usersModuleClass = Some RModule.
Proof. repeat split; reflexivity. Qed.

(** C4 (as amended).  [getClassRole] goes through the roles in the fixed
    order module, controller, service, provider and returns the first role
    one of whose marks is present: for module the [Module] decorator, the
    name suffix [Module] or a file name holding [.module.]; for controller
    the [Controller] decorator or the name suffix [Controller]; for service
    the [Injectable] decorator or the name suffix [Service]; for provider
    the name suffix [Provider]; a class with no mark has no role.  A mark of
    an earlier role, whatever its kind, outranks every mark of a later role;
    in particular a class decorated [Injectable] that is neither a module
    nor a controller is a service whatever its name. *)
Theorem getClassRole_priority :
  forall sf cls,
    let isModule :=
      hasDecorator "Module" cls || nameEndsWith "module" cls || moduleFileName sf in
    let isController :=
      hasDecorator "Controller" cls || nameEndsWith "controller" cls in
    let isService :=
      hasDecorator "Injectable" cls || nameEndsWith "service" cls in
    let isProvider := nameEndsWith "provider" cls in
    (isModule = true -> getClassRole sf cls = Some RModule)
    /\ (isModule = false -> isController = true ->
        getClassRole sf cls = Some RController)
    /\ (isModule = false -> isController = false -> isService = true ->
        getClassRole sf cls = Some RService)
    /\ (isModule = false -> isController = false -> isService = false ->
        isProvider = true ->
        getClassRole sf cls = Some RProvider)
    /\ (isModule = false -> isController = false -> isService = false ->
        isProvider = false ->
        getClassRole sf cls = None).
Proof.
  intros sf cls. unfold getClassRole, classRole, hasDecorator, nameEndsWith, moduleFileName.
  cbv zeta.
  set (m := includes "Module" _ || _ || _).
  set (c := includes "Controller" _ || _).
  set (i := includes "Injectable" _).
  set (s := Str.endsWith "service" _).
  set (p := Str.endsWith "provider" _).
  destruct m, c, i, s, p; simpl; repeat split; intros; try discriminate; auto.
Qed.

Lemma getClassRole_suffix_service :
  getClassRole Examples.fooFile Examples.fooServiceClass = Some RService
  /\ getClassRole Examples.cacheFile Examples.cacheProviderClass = Some RService.
Proof.
  split.
  - destruct (getClassRole_priority Examples.fooFile Examples.fooServiceClass)
      as (_ & _ & Hservice & _).
    apply Hservice; reflexivity.
  - destruct (getClassRole_priority Examples.cacheFile Examples.cacheProviderClass)
      as (_ & _ & Hservice & _).
    apply Hservice; reflexivity.
Defined.

(* ------------------------------------------------------------------ *)
(** ** Invariants of the collection pass *)

Lemma fold_left_invariant :
  forall (S X : Type) (I : S -> Prop) (f : S -> X -> S) (l : list X),
    (forall st x, In x l -> I st -> I (f st x)) ->
    forall st, I st -> I (fold_left f l st).
Proof.
  intros S X I f. induction l as [|x l IH]; intros Hstep st Hst; simpl; [assumption|].
  apply IH.
  - intros st' y Hy. apply Hstep. now right.
  - apply Hstep; [now left|assumption].
Qed.

Lemma getSourceFile_path :
  forall project path sf, getSourceFile project path = Some sf -> sf_filePath sf = path.
Proof.
  intros project path sf H. unfold getSourceFile in H.
  apply find_some in H. destruct H as [_ H]. now apply String.eqb_eq.
Qed.

Lemma getSourceFile_In :
  forall project path sf, getSourceFile project path = Some sf -> In sf project.
Proof.
  intros project path sf H. unfold getSourceFile in H.
  apply find_some in H. tauto.
Qed.

Section CollectInvariant.
Variable P : CallableInfo -> Prop.

(** Every collected callable satisfies [P], and the map by declaration only
    holds collected callables. *)
Definition collected (st : Collected) : Prop :=
  (forall c, In c (callables st) -> P c)
  /\ (forall u c, In (u, c) (callablesByDecl st) -> In c (callables st)).

Lemma collected_empty : collected emptyCollected.
Proof. split; simpl; intros; contradiction. Qed.

Lemma addCallable_collected :
  forall sfPath decl name cn r st,
    P (mkInfo sfPath decl name cn r) ->
    collected st -> collected (addCallable sfPath decl name cn r st).
Proof.
  intros sfPath decl name cn r st HP [H1 H2]. unfold addCallable. split; simpl.
  - intros c Hc. apply in_app_or in Hc. destruct Hc as [Hc|[<-|[]]]; auto.
  - intros u c Hin. apply (jsmap_In_set Nat.eqb Nat.eqb_eq) in Hin.
    apply in_or_app. destruct Hin as [[_ ->]|Hin]; [right; now left|left; eauto].
Qed.

Lemma addInitializer_collected :
  forall sfPath init name cn r st,
    (forall decl, P (mkInfo sfPath decl (Some name) cn r)) ->
    collected st -> collected (addInitializer sfPath init name cn r st).
Proof.
  intros sfPath init name cn r st HP Hst. unfold addInitializer.
  destruct init as [[c|]|]; try assumption.
  destruct (isFunctionValue (c_kind c)); [|assumption].
  now apply addCallable_collected.
Qed.

Lemma collectFile_collected :
  forall sf st,
    (forall decl name cn r, P (mkInfo (sf_filePath sf) decl name cn r)) ->
    collected st -> collected (collectFile sf st).
Proof.
  intros sf st HP Hst. unfold collectFile.
  apply fold_left_invariant.
  { intros; now apply addInitializer_collected. }
  apply fold_left_invariant.
  { intros st' cls _ Hst'. unfold collectClass.
    apply fold_left_invariant.
    { intros; now apply addInitializer_collected. }
    apply fold_left_invariant; [|assumption].
    intros; now apply addCallable_collected. }
  apply fold_left_invariant; [|assumption].
  intros; now apply addCallable_collected.
Qed.

Lemma collect_collected :
  forall project filePaths,
    (forall path sf decl name cn r,
        In path filePaths -> getSourceFile project path = Some sf ->
        P (mkInfo (sf_filePath sf) decl name cn r)) ->
    collected (collect project filePaths).
Proof.
  intros project filePaths HP. unfold collect.
  apply fold_left_invariant; [|apply collected_empty].
  intros st path Hin Hst. unfold collectStep.
  destruct (getSourceFile project path) as [sf|] eqn:E; [|assumption].
  apply collectFile_collected; [|assumption]. intros. eapply HP; eauto.
Qed.

End CollectInvariant.

(** The identifier of a collected callable is built from its file path, its
    qualified name and its signature key. *)
Definition qualifiedNameOf (c : CallableInfo) : string :=
  qualifiedName (Some (ci_name c)) (ci_className c).

Definition idWellFormed (c : CallableInfo) : Prop :=
  ci_id c = idFor (ci_filePath c) (qualifiedNameOf c)
                  (Some (buildSignatureKey (ci_decl c))).

Lemma mkInfo_idWellFormed :
  forall sfPath decl name cn r, idWellFormed (mkInfo sfPath decl name cn r).
Proof.
  intros. unfold idWellFormed, qualifiedNameOf, mkInfo, qualifiedName. simpl.
  destruct cn as [cn|]; [destruct (Str.truthy cn)|]; reflexivity.
Qed.

Lemma collect_idWellFormed :
  forall project filePaths c,
    In c (callables (collect project filePaths)) -> idWellFormed c.
Proof.
  intros project filePaths c H.
  destruct (@collect_collected idWellFormed project filePaths) as [H1 _]; auto.
  intros. apply mkInfo_idWellFormed.
Qed.

(** A resolved callee is a collected callable. *)
Lemma resolveCall_collected :
  forall project filePaths call callee,
    resolveCall (callablesByDecl (collect project filePaths)) call = Some callee ->
    In callee (callables (collect project filePaths)).
Proof.
  intros project filePaths call callee H.
  destruct (@collect_collected (fun _ => True) project filePaths) as [_ H2]; [auto|].
  unfold resolveCall in H.
  destruct (getExpression call) as [expr|]; [|discriminate].
  destruct (calleeSymbol expr) as [sym|]; [|discriminate].
  induction (getDeclarations (unwrapAlias sym)) as [|d ds IH]; simpl in H; [discriminate|].
  destruct (matchCallableFromDecl _ d) as [m|] eqn:E; [|auto].
  injection H as <-. unfold matchCallableFromDecl in E.
  destruct d as [|k u a|]; try discriminate.
  assert (JsMap.get Nat.eqb u (callablesByDecl (collect project filePaths)) = Some m) as G
      by (destruct k; assumption).
  apply (jsmap_get_In Nat.eqb Nat.eqb_eq) in G. eauto.
Qed.

(** What a raw call edge records. *)
Lemma callEdges_spec :
  forall project filePaths e,
    In e (callEdges (collect project filePaths)) ->
    exists caller callee,
      In caller (callables (collect project filePaths))
      /\ In callee (callables (collect project filePaths))
      /\ from e = ci_id caller /\ to e = ci_id callee
      /\ ci_id caller <> ci_id callee
      /\ crossFile e = differentFiles (ci_filePath caller) (ci_filePath callee).
Proof.
  intros project filePaths e H. unfold callEdges in H.
  apply in_flat_map in H. destruct H as (caller & Hcaller & H).
  apply in_flat_map in H. destruct H as (call & _ & H).
  unfold callEdge in H.
  destruct (resolveCall _ call) as [callee|] eqn:R; [|contradiction].
  destruct (String.eqb_spec (ci_id caller) (ci_id callee)) as [|Hne]; [contradiction|].
  destruct H as [<-|[]]. exists caller, callee. simpl.
  repeat split; auto. eapply resolveCall_collected; eauto.
Qed.

(** The call graph has no self-loop. *)
Lemma call_graph_no_self_loop :
  forall project filePaths e,
    In e (edges (analyzeDirectoryGraph project filePaths)) -> from e <> to e.
Proof.
  intros project filePaths e H. simpl in H.
  apply (dedupBy_incl String.eqb String.eqb_eq) in H.
  apply callEdges_spec in H. destruct H as (c1 & c2 & _ & _ & -> & -> & Hne & _).
  exact Hne.
Qed.

(** The end points of the call graph's edges are nodes of the graph. *)
Lemma call_graph_closed :
  forall project filePaths e,
    In e (edges (analyzeDirectoryGraph project filePaths)) ->
    In (from e) (map id (nodes (analyzeDirectoryGraph project filePaths)))
    /\ In (to e) (map id (nodes (analyzeDirectoryGraph project filePaths))).
Proof.
  intros project filePaths e H. simpl in *.
  apply (dedupBy_incl String.eqb String.eqb_eq) in H.
  apply callEdges_spec in H.
  destruct H as (c1 & c2 & H1 & H2 & -> & -> & _).
  unfold uniqueNodes. rewrite !(dedupBy_keys_iff String.eqb String.eqb_eq).
  rewrite map_map. simpl. split; now apply in_map.
Qed.

(* ------------------------------------------------------------------ *)
(** ** Identifiers of callables (C3) *)

Lemma idFor_shape :
  forall p n s,
    idFor p n (Some s)
    = (((p ++ "#" ++ n) ++ ":") ++ String ":" (shortHash s))%string.
Proof.
  intros p n s. unfold idFor. simpl. rewrite ?str_app_assoc. simpl.
  rewrite ?str_app_assoc. reflexivity.
Qed.

Lemma colon_not_digit36 : isDigit36 ":" = false.
Proof. reflexivity. Qed.

Lemma hash_not_digit36 : isDigit36 "#" = false.
Proof. reflexivity. Qed.

(** Two identifiers coincide exactly when the parts before the hash and
    the hashes do. *)
Lemma idFor_eq_iff :
  forall p1 n1 s1 p2 n2 s2,
    idFor p1 n1 (Some s1) = idFor p2 n2 (Some s2) <->
    (p1 ++ "#" ++ n1 = p2 ++ "#" ++ n2)%string /\ shortHash s1 = shortHash s2.
Proof.
  intros p1 n1 s1 p2 n2 s2. rewrite !idFor_shape. split.
  - intros H. apply str_cut_last in H;
      try (apply shortHash_no_char; exact colon_not_digit36).
    destruct H as [H ->]. split; [|reflexivity].
    now apply str_app_inv_tail in H.
  - intros [-> ->]. reflexivity.
Qed.

(** C3, the claim as first stated: two anonymous function declarations of one
    file, and the static and the instance method of one name in one class,
    are different declarations that receive the same identifier; the graph
    keeps a single node for each pair. *)
Lemma distinct_callables_share_an_id :
  map (fun c => (c_uid (ci_decl c), ci_id c))
      (callables (collect Examples.anonProject ["/app/src/a.ts"]))
  = [(1%nat, "/app/src/a.ts#<anon>::1i6civ"); (2%nat, "/app/src/a.ts#<anon>::1i6civ")]
  /\ map (fun c => (c_uid (ci_decl c), ci_id c))
         (callables (collect Examples.twinProject ["/app/src/factory.ts"]))
     = [(1%nat, "/app/src/factory.ts#Factory.create::5dnmgi");
        (2%nat, "/app/src/factory.ts#Factory.create::5dnmgi")]
  /\ List.length (nodes (analyzeDirectoryGraph Examples.anonProject ["/app/src/a.ts"]))
     = 1%nat.
Proof. repeat split; vm_compute; reflexivity. Qed.

(** C3 (as amended).  The identifier of a collected callable is a function of
    its file path, its qualified name and its signature key: two callables
    collected in one run have the same identifier exactly when their
    [filePath#qualifiedName] strings coincide and the short hashes of their
    signature keys coincide.  Callables that differ in one of the two receive
    distinct identifiers; the others share one. *)
Theorem callable_ids_equal_iff :
  forall project filePaths c1 c2,
    In c1 (callables (collect project filePaths)) ->
    In c2 (callables (collect project filePaths)) ->
    (ci_id c1 = ci_id c2 <->
     (ci_filePath c1 ++ "#" ++ qualifiedNameOf c1
      = ci_filePath c2 ++ "#" ++ qualifiedNameOf c2)%string
     /\ shortHash (buildSignatureKey (ci_decl c1))
        = shortHash (buildSignatureKey (ci_decl c2))).
Proof.
  intros project filePaths c1 c2 H1 H2.
  rewrite (collect_idWellFormed _ _ _ H1), (collect_idWellFormed _ _ _ H2).
  apply idFor_eq_iff.
Qed.

Definition helperInfo : CallableInfo :=
  mkInfo "/app/src/a.ts" (Examples.fn 1 FunctionDeclaration (Some "helper") [] [])
         (Some "helper") None (Some RHelper).

Definition mainInfo : CallableInfo :=
  mkInfo "/app/src/a.ts"
         (Examples.fn 2 FunctionDeclaration (Some "main") []
                      [Examples.callTo FunctionDeclaration 1])
         (Some "main") None (Some RHelper).

Lemma callable_ids_helper_main :
  ci_id helperInfo = ci_id mainInfo <->
  (ci_filePath helperInfo ++ "#" ++ qualifiedNameOf helperInfo
   = ci_filePath mainInfo ++ "#" ++ qualifiedNameOf mainInfo)%string
  /\ shortHash (buildSignatureKey (ci_decl helperInfo))
     = shortHash (buildSignatureKey (ci_decl mainInfo)).
Proof.
  apply (callable_ids_equal_iff Examples.callProject Examples.callFiles).
  - vm_compute. left. reflexivity.
  - vm_compute. right. left. reflexivity.
Defined.

(* ------------------------------------------------------------------ *)
(** ** Invariants of the wiring pass *)

Definition importId (im : ClassRef) : string :=
  wiringId (ref_filePath im) (Str.orElse (ref_name im) "<Module>").

(** The classes a module lists in its metadata. *)
Definition listedClasses (m : ModuleInfo) : list ClassRef :=
  m_controllers m ++ m_providers m ++ m_importedModules m.

Section WiringInvariant.
Variable okPath : string -> Prop.
Variable sc : Scan.

(** Identifiers under which a module node may be registered: those of the
    scanned modules and those of the imported classes. *)
Definition moduleLike (k : string) : Prop :=
  (exists m, In m (modules sc) /\ m_id m = k)
  \/ (exists m im, In m (modules sc) /\ In im (m_importedModules m) /\ importId im = k).

Definition roleGood (n : GraphNode) : Prop :=
  (role n = Some RModule /\ moduleLike (id n))
  \/ role n = Some RController \/ role n = Some RService \/ role n = Some RProvider.

Definition nodeGood (n : GraphNode) : Prop :=
  (exists name, id n = wiringId (filePath n) name)
  /\ okPath (filePath n) /\ roleGood n.

Definition edgeGood (st : Wiring) (e : GraphEdge) : Prop :=
  In (from e) (JsMap.keys (byId st)) /\ In (to e) (JsMap.keys (byId st))
  /\ exists pf pt namef namet,
      from e = wiringId pf namef /\ to e = wiringId pt namet
      /\ crossFile e = differentFiles pf pt /\ okPath pf /\ okPath pt.

Record WInv (st : Wiring) : Prop := {
  inv_nodup : NoDup (JsMap.keys (byId st));
  inv_byId : forall k n, In (k, n) (byId st) -> id n = k /\ nodeGood n;
  inv_nodes : forall n, In n (w_nodes st) -> In (id n, n) (byId st);
  inv_edges : forall e, In e (w_edges st) -> edgeGood st e;
  inv_scan : forall k, In k (JsMap.keys (scan_byId sc)) -> In k (JsMap.keys (byId st));
  inv_keys : forall k, In k (JsMap.keys (byId st)) ->
                       In k (JsMap.keys (scan_byId sc)) \/ In k (map id (w_nodes st))
}.

(** Nodes and keys only grow. *)
Definition grows (st st' : Wiring) : Prop :=
  (forall k, In k (map id (w_nodes st)) -> In k (map id (w_nodes st')))
  /\ (forall k, In k (JsMap.keys (byId st)) -> In k (JsMap.keys (byId st'))).

Lemma grows_refl : forall st, grows st st.
Proof. intros st. split; auto. Qed.

Lemma grows_trans : forall a b c, grows a b -> grows b c -> grows a c.
Proof. intros a b c [H1 H2] [H3 H4]. split; auto. Qed.

Lemma edgeGood_mono :
  forall st st' e, grows st st' -> edgeGood st e -> edgeGood st' e.
Proof.
  intros st st' e [_ Hk] (H1 & H2 & H3). repeat split; auto.
Qed.

Lemma pushNode_grows : forall n st, grows st (pushNode n st).
Proof.
  intros n st. split; simpl; auto.
  intros k H. rewrite map_app. apply in_or_app. now left.
Qed.

Lemma pushEdge_grows : forall e st, grows st (pushEdge e st).
Proof. intros e st. split; simpl; auto. Qed.

Lemma registerNode_grows : forall n st, grows st (registerNode n st).
Proof.
  intros n st. split; simpl.
  - intros k H. rewrite map_app. apply in_or_app. now left.
  - intros k H. apply (setAll_keys_In String.eqb String.eqb_eq [(id n, n)]). now right.
Qed.

Lemma pushNode_inv :
  forall n st, WInv st -> In (id n, n) (byId st) -> WInv (pushNode n st).
Proof.
  intros n st [H1 H2 H3 H4 H5 H6] Hn. constructor; simpl; auto.
  - intros x Hx. apply in_app_or in Hx. destruct Hx as [Hx|[<-|[]]]; auto.
  - intros k Hk. destruct (H6 k Hk) as [|Hk']; [now left|right].
    rewrite map_app. apply in_or_app. now left.
Qed.

Lemma registerNode_inv :
  forall n st,
    WInv st -> ~ In (id n) (JsMap.keys (byId st)) -> nodeGood n ->
    WInv (registerNode n st).
Proof.
  intros n st Hst Hfresh Hgood. pose proof (registerNode_grows n st) as Hg.
  destruct Hst as [H1 H2 H3 H4 H5 H6].
  constructor; simpl; rewrite ?(jsmap_set_absent String.eqb String.eqb_eq) by assumption.
  - unfold JsMap.keys. rewrite map_app. simpl. apply NoDup_app; auto.
    + repeat constructor. simpl. tauto.
    + intros x Hx [<-|[]]. contradiction.
  - intros k x Hx. apply in_app_or in Hx. destruct Hx as [Hx|[[= <- <-]|[]]]; auto.
  - intros x Hx. apply in_or_app. apply in_app_or in Hx.
    destruct Hx as [Hx|[<-|[]]]; [left; auto|right; now left].
  - intros e He. apply edgeGood_mono with st; [exact Hg|auto].
  - intros k Hk. unfold JsMap.keys. rewrite map_app. apply in_or_app. left. now apply H5.
  - intros k Hk. unfold JsMap.keys in Hk. rewrite map_app in Hk. apply in_app_or in Hk.
    rewrite map_app. destruct Hk as [Hk|[<-|[]]].
    + destruct (H6 k Hk); [now left|right; apply in_or_app; now left].
    + right. apply in_or_app. right. now left.
Qed.

Lemma pushEdge_inv :
  forall e st, WInv st -> edgeGood st e -> WInv (pushEdge e st).
Proof.
  intros e st [H1 H2 H3 H4 H5 H6] He. constructor; simpl; auto.
  intros x Hx. apply in_app_or in Hx. destruct Hx as [Hx|[<-|[]]].
  - destruct (H4 x Hx) as (A & B & C). repeat split; auto.
  - destruct He as (A & B & C). repeat split; auto.
Qed.

Lemma get_node_id :
  forall st k n, WInv st -> JsMap.get String.eqb k (byId st) = Some n -> id n = k.
Proof.
  intros st k n H G. apply (jsmap_get_In String.eqb String.eqb_eq) in G.
  now apply (inv_byId H) in G.
Qed.

Lemma has_false_fresh :
  forall (m : JsMap.t string GraphNode) k,
    JsMap.has String.eqb k m = false -> ~ In k (JsMap.keys m).
Proof.
  intros m k H Hin. apply (jsmap_has_true String.eqb String.eqb_eq) in Hin. congruence.
Qed.

(** The state after [ensureNode]: still well formed. *)
Lemma ensureNode_inv :
  forall m section st cls,
    WInv st -> In (m_id m) (JsMap.keys (scan_byId sc)) ->
    m_id m = wiringId (m_filePath m) (m_name m) ->
    okPath (m_filePath m) -> okPath (ref_filePath cls) ->
    WInv (ensureNode m section st cls) /\ grows st (ensureNode m section st cls).
Proof.
  intros m section st cls Hst Hm Hmid Hmp Hcp. unfold ensureNode.
  set (nodeId := classNodeId cls).
  set (e := {| from := m_id m; to := nodeId; crossFile := _ |}).
  match goal with |- WInv (pushEdge e ?s) /\ _ => set (st1 := s) end.
  assert (WInv st1 /\ grows st st1 /\ In nodeId (JsMap.keys (byId st1)))
    as (Hst1 & Hg & Hnode).
  { subst st1. destruct (JsMap.has String.eqb nodeId (byId st)) eqn:Hhas; simpl.
    - assert (In nodeId (JsMap.keys (byId st))) as Hin
          by now apply (jsmap_has_true String.eqb String.eqb_eq).
      destruct (hasNode nodeId (w_nodes st)) eqn:Hn; simpl.
      + split; [assumption|]. split; [apply grows_refl|assumption].
      + unfold JsMap.has in Hhas.
        destruct (JsMap.get String.eqb nodeId (byId st)) as [n|] eqn:G; [|discriminate].
        pose proof (get_node_id _ Hst G) as Hid.
        apply (jsmap_get_In String.eqb String.eqb_eq) in G. rewrite <- Hid in G.
        split; [now apply pushNode_inv|]. split; [apply pushNode_grows|assumption].
    - apply has_false_fresh in Hhas.
      split; [|split; [apply registerNode_grows|]].
      + apply registerNode_inv; [assumption|exact Hhas|].
        repeat split; simpl; [eexists; reflexivity|assumption|].
        right. unfold roleFor.
        destruct (includes "Controller" _); [now left|].
        destruct (includes "Injectable" _); [right; now left|right; now right].
      + simpl. apply (setAll_keys_In String.eqb String.eqb_eq [(nodeId, _)]).
        left. simpl. now left. }
  split.
  - apply pushEdge_inv; [assumption|]. repeat split; simpl; auto.
    + destruct Hg as [_ Hk]. apply Hk. now apply (inv_scan Hst).
    + exists (m_filePath m), (ref_filePath cls), (m_name m),
             (Str.orElse (ref_name cls) "<Class>").
      repeat split; auto.
  - eapply grows_trans; [exact Hg|apply pushEdge_grows].
Qed.

Lemma importModule_inv :
  forall m st im,
    WInv st -> In (m_id m) (JsMap.keys (scan_byId sc)) ->
    m_id m = wiringId (m_filePath m) (m_name m) ->
    okPath (m_filePath m) -> okPath (ref_filePath im) ->
    In m (modules sc) -> In im (m_importedModules m) ->
    WInv (importModule m st im) /\ grows st (importModule m st im).
Proof.
  intros m st im Hst Hm Hmid Hmp Hip Hmod Him. unfold importModule.
  set (targetId := wiringId _ _).
  set (e := {| from := m_id m; to := targetId; crossFile := _ |}).
  match goal with |- WInv (pushEdge e ?s) /\ _ => set (st1 := s) end.
  assert (WInv st1 /\ grows st st1 /\ In targetId (JsMap.keys (byId st1)))
    as (Hst1 & Hg & Hnode).
  { subst st1. destruct (JsMap.has String.eqb targetId (byId st)) eqn:Hhas; simpl.
    - split; [assumption|]. split; [apply grows_refl|].
      now apply (jsmap_has_true String.eqb String.eqb_eq).
    - apply has_false_fresh in Hhas.
      split; [|split; [apply registerNode_grows|]].
      + apply registerNode_inv; [assumption|exact Hhas|].
        repeat split; simpl; [eexists; reflexivity|assumption|].
        left. split; [reflexivity|]. right. exists m, im. auto.
      + simpl. apply (setAll_keys_In String.eqb String.eqb_eq [(targetId, _)]).
        left. simpl. now left. }
  split.
  - apply pushEdge_inv; [assumption|]. repeat split; simpl; auto.
    + destruct Hg as [_ Hk]. apply Hk. now apply (inv_scan Hst).
    + exists (m_filePath m), (ref_filePath im), (m_name m),
             (Str.orElse (ref_name im) "<Module>").
      repeat split; auto.
  - eapply grows_trans; [exact Hg|apply pushEdge_grows].
Qed.

(** What the scan pass guarantees of a module. *)
Definition moduleOk (m : ModuleInfo) : Prop :=
  In m (modules sc)
  /\ In (m_id m) (JsMap.keys (scan_byId sc))
  /\ m_id m = wiringId (m_filePath m) (m_name m)
  /\ okPath (m_filePath m)
  /\ forall r, In r (listedClasses m) -> okPath (ref_filePath r).

Lemma fold_inv_grows :
  forall (X : Type) (f : Wiring -> X -> Wiring) (l : list X),
    (forall st x, In x l -> WInv st -> WInv (f st x) /\ grows st (f st x)) ->
    forall st, WInv st -> WInv (fold_left f l st) /\ grows st (fold_left f l st).
Proof.
  intros X f. induction l as [|x l IH]; intros Hstep st Hst; simpl.
  - split; [assumption|apply grows_refl].
  - destruct (Hstep st x (or_introl eq_refl) Hst) as [H1 G1].
    destruct (IH (fun st' y Hy => Hstep st' y (or_intror Hy)) _ H1) as [H2 G2].
    split; [assumption|]. eapply grows_trans; eauto.
Qed.

Lemma wireModule_inv :
  forall m st,
    WInv st -> moduleOk m ->
    WInv (wireModule st m) /\ grows st (wireModule st m)
    /\ In (m_id m) (map id (w_nodes (wireModule st m))).
Proof.
  intros m st Hst (Hmod & Hkey & Hshape & Hpath & Hrefs). unfold wireModule.
  assert (In (m_id m) (JsMap.keys (byId st))) as Hk by now apply (inv_scan Hst).
  apply (jsmap_has_true String.eqb String.eqb_eq) in Hk. unfold JsMap.has in Hk.
  destruct (JsMap.get String.eqb (m_id m) (byId st)) as [n|] eqn:G; [|discriminate].
  pose proof (get_node_id _ Hst G) as Hid.
  apply (jsmap_get_In String.eqb String.eqb_eq) in G. rewrite <- Hid in G.
  assert (WInv (pushNode n st)) as H0 by now apply pushNode_inv.
  assert (In (m_id m) (map id (w_nodes (pushNode n st)))) as Hpushed.
  { simpl. rewrite map_app. apply in_or_app. right. simpl. now left. }
  destruct (@fold_inv_grows _ (ensureNode m "Controllers") (m_controllers m)) with (st := pushNode n st)
    as [H1 G1]; [|assumption|].
  { intros st' cls Hcls Hst'. apply ensureNode_inv; auto.
    apply Hrefs. unfold listedClasses. apply in_or_app. now left. }
  destruct (@fold_inv_grows _ (ensureNode m "Providers") (m_providers m)) with
      (st := fold_left (ensureNode m "Controllers") (m_controllers m) (pushNode n st))
    as [H2 G2]; [|assumption|].
  { intros st' cls Hcls Hst'. apply ensureNode_inv; auto.
    apply Hrefs. unfold listedClasses. apply in_or_app. right. apply in_or_app. now left. }
  destruct (@fold_inv_grows _ (importModule m) (m_importedModules m)) with
      (st := fold_left (ensureNode m "Providers") (m_providers m)
               (fold_left (ensureNode m "Controllers") (m_controllers m) (pushNode n st)))
    as [H3 G3]; [|assumption|].
  { intros st' im Him Hst'. apply importModule_inv; auto.
    apply Hrefs. unfold listedClasses. apply in_or_app. right. apply in_or_app. now right. }
  split; [assumption|].
  assert (grows (pushNode n st) (fold_left (importModule m) (m_importedModules m)
            (fold_left (ensureNode m "Providers") (m_providers m)
               (fold_left (ensureNode m "Controllers") (m_controllers m) (pushNode n st)))))
    as Gall by (eapply grows_trans; [exact G1|eapply grows_trans; eauto]).
  split.
  - eapply grows_trans; [apply pushNode_grows|exact Gall].
  - destruct Gall as [Gn _]. now apply Gn.
Qed.

Lemma wireAll_inv :
  forall ms st,
    WInv st -> (forall m, In m ms -> moduleOk m) ->
    WInv (fold_left wireModule ms st)
    /\ grows st (fold_left wireModule ms st)
    /\ forall m, In m ms -> In (m_id m) (map id (w_nodes (fold_left wireModule ms st))).
Proof.
  induction ms as [|m ms IH]; intros st Hst Hok; simpl.
  - split; [assumption|]. split; [apply grows_refl|intros m []].
  - destruct (wireModule_inv Hst (Hok m (or_introl eq_refl))) as (H1 & G1 & P1).
    destruct (IH _ H1 (fun m' Hm' => Hok m' (or_intror Hm'))) as (H2 & G2 & P2).
    split; [assumption|]. split; [eapply grows_trans; eauto|].
    intros m' [<-|Hm']; [|auto]. destruct G2 as [Gn _]. now apply Gn.
Qed.

End WiringInvariant.

(* ------------------------------------------------------------------ *)
(** ** Invariants of the module scan *)

Lemma readProperty_fields :
  forall info p,
    m_id (readProperty info p) = m_id info
    /\ m_name (readProperty info p) = m_name info
    /\ m_filePath (readProperty info p) = m_filePath info
    /\ m_fileKey (readProperty info p) = m_fileKey info.
Proof.
  intros info p. unfold readProperty.
  destruct p as [name [init|]|]; auto.
  destruct (String.eqb _ "imports"); [simpl; auto|].
  destruct (String.eqb _ "controllers"); [simpl; auto|].
  destruct (_ || _); simpl; auto.
Qed.

Lemma readProperties_fields :
  forall props info,
    m_id (fold_left readProperty props info) = m_id info
    /\ m_name (fold_left readProperty props info) = m_name info
    /\ m_filePath (fold_left readProperty props info) = m_filePath info
    /\ m_fileKey (fold_left readProperty props info) = m_fileKey info.
Proof.
  induction props as [|p props IH]; intros info; simpl; [auto|].
  destruct (IH (readProperty info p)) as (A & B & C & D).
  destruct (readProperty_fields info p) as (A' & B' & C' & D').
  repeat split; congruence.
Qed.

Lemma moduleInfoOf_fields :
  forall sf cls,
    m_id (moduleInfoOf sf cls)
    = wiringId (sf_filePath sf) (Str.orElse (cls_name cls) "<Module>")
    /\ m_name (moduleInfoOf sf cls) = Str.orElse (cls_name cls) "<Module>"
    /\ m_filePath (moduleInfoOf sf cls) = sf_filePath sf
    /\ m_fileKey (moduleInfoOf sf cls)
       = moduleKeyFor (sf_filePath sf) (Str.orElse (cls_name cls) "<Module>").
Proof.
  intros sf cls. unfold moduleInfoOf.
  destruct (findModuleDecorator cls) as [d|]; [|simpl; auto].
  destruct (deco_arg0 d) as [[props|]|]; try (simpl; auto; fail).
  apply readProperties_fields.
Qed.

Section ScanInvariant.
Variable P : ModuleInfo -> Prop.

(** The scanned modules satisfy [P] and have their node in the map; the map
    holds module nodes only, each under its own identifier. *)
Definition scanned (st : Scan) : Prop :=
  NoDup (JsMap.keys (scan_byId st))
  /\ (forall m, In m (modules st) ->
                P m /\ m_id m = wiringId (m_filePath m) (m_name m)
                /\ In (m_id m) (JsMap.keys (scan_byId st)))
  /\ (forall k n, In (k, n) (scan_byId st) ->
                  exists m, In m (modules st) /\ k = m_id m
                            /\ n = moduleNodeOf (m_id m) (m_name m)
                                                (m_filePath m) (m_fileKey m)).

Lemma scanClass_scanned :
  forall sf st cls,
    P (moduleInfoOf sf cls) -> scanned st -> scanned (scanClass sf st cls).
Proof.
  intros sf st cls HP (H1 & H2 & H3). unfold scanClass.
  destruct (isModuleClass sf cls); [|split; [|split]; assumption].
  set (info := moduleInfoOf sf cls) in *.
  destruct (moduleInfoOf_fields sf cls) as (A & B & C & _). fold info in A, B, C.
  split; [|split]; simpl.
  - now apply (jsmap_NoDup_set String.eqb String.eqb_eq).
  - intros m Hm. apply in_app_or in Hm.
    assert (forall k, In k (JsMap.keys (scan_byId st)) ->
                      In k (JsMap.keys (JsMap.set String.eqb (m_id info)
                              (moduleNodeOf (m_id info) (m_name info)
                                            (m_filePath info) (m_fileKey info))
                              (scan_byId st)))) as Hkeys.
    { intros k Hk.
      apply (setAll_keys_In String.eqb String.eqb_eq [(m_id info, _)]). now right. }
    destruct Hm as [Hm|[<-|[]]].
    + destruct (H2 m Hm) as (X & Y & Z). auto.
    + split; [assumption|]. split; [rewrite A, C, B; reflexivity|].
      apply (setAll_keys_In String.eqb String.eqb_eq [(m_id info, _)]).
      left. simpl. now left.
  - intros k n Hin. apply (jsmap_In_set String.eqb String.eqb_eq) in Hin.
    destruct Hin as [[-> ->]|Hin].
    + exists info. split; [apply in_or_app; right; now left|auto].
    + destruct (H3 k n Hin) as (m & Hm & E1 & E2).
      exists m. split; [apply in_or_app; now left|auto].
Qed.

Lemma scanModules_scanned :
  forall project filePaths,
    (forall path sf cls,
        In path filePaths -> getSourceFile project path = Some sf ->
        In cls (sf_classes sf) -> P (moduleInfoOf sf cls)) ->
    scanned (scanModules project filePaths).
Proof.
  intros project filePaths HP. unfold scanModules.
  apply fold_left_invariant.
  - intros st path Hpath Hst. unfold scanStep.
    destruct (getSourceFile project path) as [sf|] eqn:E; [|assumption].
    apply fold_left_invariant; [|assumption].
    intros st' cls Hcls Hst'. apply scanClass_scanned; eauto.
  - repeat split; simpl; try (intros; contradiction). constructor.
Qed.

End ScanInvariant.

(* ------------------------------------------------------------------ *)
(** ** The wiring graph as a whole *)

Lemma wiring_final :
  forall (okPath : string -> Prop) project filePaths,
    (forall p, In p filePaths -> okPath p) ->
    (forall m r, In m (modules (scanModules project filePaths)) ->
                 In r (listedClasses m) -> okPath (ref_filePath r)) ->
    WInv okPath (scanModules project filePaths)
         (wireModules (scanModules project filePaths))
    /\ forall k, In k (JsMap.keys (byId (wireModules (scanModules project filePaths)))) ->
                 In k (map id (w_nodes (wireModules (scanModules project filePaths)))).
Proof.
  intros okPath project filePaths Hfps Hrefs.
  set (sc := scanModules project filePaths) in *.
  assert (scanned (fun m => In (m_filePath m) filePaths) sc) as (S1 & S2 & S3).
  { apply scanModules_scanned. intros path sf cls Hpath Hsf Hcls.
    destruct (moduleInfoOf_fields sf cls) as (_ & _ & -> & _).
    now rewrite (getSourceFile_path _ _ Hsf). }
  assert (forall m, In m (modules sc) -> moduleOk okPath sc m) as Hok.
  { intros m Hm. destruct (S2 m Hm) as (A & B & C).
    repeat split; auto. intros r Hr. eapply Hrefs; eauto. }
  assert (WInv okPath sc {| byId := scan_byId sc; w_nodes := []; w_edges := [] |}) as H0.
  { constructor; simpl; auto; try (intros; contradiction).
    intros k n Hin. destruct (S3 k n Hin) as (m & Hm & -> & ->).
    destruct (S2 m Hm) as (A & B & C). simpl. split; [reflexivity|].
    repeat split; simpl.
    - exists (m_name m). exact B.
    - now apply Hfps.
    - left. split; [reflexivity|]. left. exists m. auto. }
  destruct (@wireAll_inv okPath sc (modules sc) _ H0 Hok) as (Hinv & _ & Hpushed).
  fold (wireModules sc) in Hinv, Hpushed. split; [exact Hinv|].
  intros k Hk. destruct (inv_keys Hinv k Hk) as [Hs|Hn]; [|assumption].
  unfold JsMap.keys in Hs. apply in_map_iff in Hs. destruct Hs as ([k' n] & <- & Hin).
  destruct (S3 k' n Hin) as (m & Hm & -> & _). simpl. now apply Hpushed.
Qed.

(** What an injection edge records: the two nodes the map holds under the
    identifiers of the two classes. *)
Lemma injectionEdges_spec :
  forall project st e,
    In e (injectionEdges project st) ->
    exists fromId toId fromNode toNode,
      JsMap.get String.eqb fromId (byId st) = Some fromNode
      /\ JsMap.get String.eqb toId (byId st) = Some toNode
      /\ from e = id fromNode /\ to e = id toNode
      /\ crossFile e = differentFiles (filePath fromNode) (filePath toNode).
Proof.
  intros project st e H. unfold injectionEdges in H.
  apply in_flat_map in H. destruct H as ([k cls] & _ & H).
  unfold injectionEdgesOf in H. simpl in H.
  destruct (cls_constructors cls) as [|ctor rest]; [contradiction|].
  apply in_flat_map in H. destruct H as (p & _ & H).
  unfold injectionEdge in H.
  destruct (injectionTarget p) as [target|]; [|contradiction].
  destruct (JsMap.has String.eqb (classNodeId target) (byId st)); [|contradiction].
  destruct (JsMap.get String.eqb k (byId st)) as [fromNode|] eqn:G1; [|contradiction].
  destruct (JsMap.get String.eqb (classNodeId target) (byId st)) as [toNode|] eqn:G2;
    [|contradiction].
  destruct H as [<-|[]]. exists k, (classNodeId target), fromNode, toNode.
  simpl. auto.
Qed.

(** The raw edges of the wiring graph join identifiers of the node map. *)
Lemma wiring_raw_edge_keys :
  forall (okPath : string -> Prop) project filePaths e,
    WInv okPath (scanModules project filePaths)
         (wireModules (scanModules project filePaths)) ->
    In e (w_edges (wireModules (scanModules project filePaths))
          ++ injectionEdges project (wireModules (scanModules project filePaths))) ->
    In (from e) (JsMap.keys (byId (wireModules (scanModules project filePaths))))
    /\ In (to e) (JsMap.keys (byId (wireModules (scanModules project filePaths)))).
Proof.
  intros okPath project filePaths e Hinv He.
  set (st := wireModules (scanModules project filePaths)) in *.
  apply in_app_or in He. destruct He as [He|He].
  - destruct (inv_edges Hinv e He) as (A & B & _). auto.
  - apply injectionEdges_spec in He.
    destruct He as (k1 & k2 & n1 & n2 & G1 & G2 & -> & -> & _).
    pose proof (get_node_id _ Hinv G1) as ->. pose proof (get_node_id _ Hinv G2) as ->.
    apply (jsmap_get_In String.eqb String.eqb_eq) in G1, G2.
    split; [change k1 with (fst (k1, n1))|change k2 with (fst (k2, n2))];
      now apply in_map.
Qed.

Lemma wiring_graph_closed :
  forall project filePaths e,
    In e (edges (analyzeWiringGraph project filePaths)) ->
    In (from e) (map id (nodes (analyzeWiringGraph project filePaths)))
    /\ In (to e) (map id (nodes (analyzeWiringGraph project filePaths))).
Proof.
  intros project filePaths e H. simpl in *.
  apply (dedupBy_incl String.eqb String.eqb_eq) in H.
  destruct (@wiring_final (fun _ => True) project filePaths) as [Hinv Hkeys]; auto.
  destruct (@wiring_raw_edge_keys _ _ _ _ Hinv H) as [A B].
  unfold uniqueNodes. rewrite !(dedupBy_keys_iff String.eqb String.eqb_eq). auto.
Qed.

(* ------------------------------------------------------------------ *)
(** ** End points of edges are nodes (C10) *)

(** C10.  In the graph returned by [analyzeDirectoryGraph] and in the graph
    returned by [analyzeWiringGraph], the source and the target identifier of
    every edge are identifiers of nodes of the returned node list. *)
Theorem edge_endpoints_are_nodes :
  forall project filePaths,
    Forall (fun e =>
              In (from e) (map id (nodes (analyzeDirectoryGraph project filePaths)))
              /\ In (to e) (map id (nodes (analyzeDirectoryGraph project filePaths))))
           (edges (analyzeDirectoryGraph project filePaths))
    /\ Forall (fun e =>
                 In (from e) (map id (nodes (analyzeWiringGraph project filePaths)))
                 /\ In (to e) (map id (nodes (analyzeWiringGraph project filePaths))))
              (edges (analyzeWiringGraph project filePaths)).
Proof.
  intros project filePaths. split; apply Forall_forall; intros e He.
  - now apply call_graph_closed.
  - now apply wiring_graph_closed.
Qed.

(* ------------------------------------------------------------------ *)
(** ** The cross-file flag (C2) *)












(* ------------------------------------------------------------------ *)
(** ** Roles of containment targets (C7) *)

(** C7, the claim as first stated: [AppModule] imports and re-exports
    [DbModule]; the class listed under [exports] is read as a provider, so a
    containment edge runs from [AppModule] to the node of [DbModule], and
    that node is the module node registered by the scan. *)
Lemma containment_edge_to_module :
  exists m cls e n,
    In m (modules (scanModules Examples.reexportProject Examples.reexportFiles))
    /\ In cls (m_providers m)
    /\ In e (edges (analyzeWiringGraph Examples.reexportProject Examples.reexportFiles))
    /\ from e = m_id m /\ to e = classNodeId cls
    /\ In n (nodes (analyzeWiringGraph Examples.reexportProject Examples.reexportFiles))
    /\ id n = to e
    /\ role n = Some RModule.
Proof.
  eexists. exists Examples.dbModuleRef. eexists. eexists.
  split; [vm_compute; right; left; reflexivity|].
  split; [vm_compute; left; reflexivity|].
  split; [vm_compute; left; reflexivity|].
  split; [vm_compute; reflexivity|].
  split; [vm_compute; reflexivity|].
  split; [vm_compute; left; reflexivity|].
  split; vm_compute; reflexivity.
Qed.

Lemma wiring_node_roles :
  forall project filePaths n,
    In n (nodes (analyzeWiringGraph project filePaths)) ->
    roleGood (scanModules project filePaths) n.
Proof.
  intros project filePaths n Hn. simpl in Hn.
  apply (dedupBy_incl String.eqb String.eqb_eq) in Hn.
  destruct (@wiring_final (fun _ => True) project filePaths) as [Hinv _]; auto.
  apply (inv_nodes Hinv) in Hn. apply (inv_byId Hinv) in Hn.
  destruct Hn as (_ & _ & _ & H). exact H.
Qed.

(** C7 (as amended).  For a class listed under the controllers or providers
    of a scanned module, the containment edge of the wiring graph ends in a
    node of the graph whose role is controller, service or provider, unless
    the identifier of the class is the identifier of a scanned module or of a
    class some scanned module imports: then the node may be the module node
    registered under that identifier, with role module. *)
Theorem containment_target_role :
  forall project filePaths m cls e,
    In m (modules (scanModules project filePaths)) ->
    In cls (m_controllers m ++ m_providers m) ->
    In e (edges (analyzeWiringGraph project filePaths)) ->
    from e = m_id m -> to e = classNodeId cls ->
    (exists n, In n (nodes (analyzeWiringGraph project filePaths)) /\ id n = to e)
    /\ forall n,
        In n (nodes (analyzeWiringGraph project filePaths)) -> id n = to e ->
        role n = Some RController \/ role n = Some RService \/ role n = Some RProvider
        \/ (role n = Some RModule
            /\ moduleLike (scanModules project filePaths) (classNodeId cls)).
Proof.
  intros project filePaths m cls e Hm Hcls He Hfrom Hto. split.
  - destruct (wiring_graph_closed _ _ _ He) as [_ H].
    apply in_map_iff in H. destruct H as (n & Hid & Hn). eauto.
  - intros n Hn Hid. destruct (wiring_node_roles _ _ _ Hn) as [[R M]|[R|[R|R]]]; auto.
    right. right. right. split; [assumption|]. now rewrite <- Hto, <- Hid.
Qed.

Definition nestModuleInfo : ModuleInfo :=
  moduleInfoOf
    (Examples.classFile "/app/src/app.module.ts"
       [Examples.plainClass "AppModule"
          [Examples.moduleDeco [Examples.listOf "controllers" [Examples.userControllerRef];
                                Examples.listOf "providers" [Examples.userServiceRef]]] []])
    (Examples.plainClass "AppModule"
       [Examples.moduleDeco [Examples.listOf "controllers" [Examples.userControllerRef];
                             Examples.listOf "providers" [Examples.userServiceRef]]] []).

Definition nestServiceEdge : GraphEdge :=
  {| from := "/app/src/app.module.ts#AppModule::yimx50";
     to := "/app/src/user.service.ts#UserService::1otdpq";
     crossFile := true |}.

Lemma containment_target_role_nest :
  (exists n,
      In n (nodes (analyzeWiringGraph Examples.nestProject Examples.nestFiles))
      /\ id n = to nestServiceEdge)
  /\ forall n,
      In n (nodes (analyzeWiringGraph Examples.nestProject Examples.nestFiles)) ->
      id n = to nestServiceEdge ->
      role n = Some RController \/ role n = Some RService \/ role n = Some RProvider
      \/ (role n = Some RModule
          /\ moduleLike (scanModules Examples.nestProject Examples.nestFiles)
                        (classNodeId Examples.userServiceRef)).
Proof.
  apply (@containment_target_role Examples.nestProject Examples.nestFiles
           nestModuleInfo Examples.userServiceRef nestServiceEdge).
  - vm_compute. left. reflexivity.
  - vm_compute. right. left. reflexivity.
  - vm_compute. right. left. reflexivity.
  - vm_compute. reflexivity.
  - vm_compute. reflexivity.
Defined.

(* ------------------------------------------------------------------ *)
(** ** Self-loops (C1) *)

(** C1.  On a module that imports itself and lists itself as a provider, and
    a service whose constructor takes the service itself, the wiring graph
    holds an edge from the module to the module and an edge from the service
    to the service; the call graph of a function that calls itself holds no
    edge. *)
Theorem wiring_graph_records_self_loops :
  edges (analyzeWiringGraph Examples.selfWiredProject Examples.selfWiredFiles)
  = [ {| from := "/app/src/app.module.ts#AppModule::yimx50";
         to := "/app/src/loop.service.ts#LoopService::1yjywc";
         crossFile := true |};
      {| from := "/app/src/app.module.ts#AppModule::yimx50";
         to := "/app/src/app.module.ts#AppModule::yimx50";
         crossFile := false |};
      {| from := "/app/src/loop.service.ts#LoopService::1yjywc";
         to := "/app/src/loop.service.ts#LoopService::1yjywc";
         crossFile := false |} ]
  /\ edges (analyzeDirectoryGraph Examples.recursiveProject ["/app/src/rec.ts"]) = [].
Proof. split; vm_compute; reflexivity. Qed.

(* ------------------------------------------------------------------ *)
(** ** Determinism (C5)

    Two runs on the same input parse the same text twice: they see the same
    syntax and the same answers of the checker, but the declaration nodes are
    fresh objects in each run.  In the model a second run is the first one
    with the node identities renamed by an injective function. *)

Section Renaming.
Variable rho : nat -> nat.

Definition renameDecl (d : DeclNode) : DeclNode :=
  match d with
  | DCallable k u a => DCallable k (rho u) a
  | other => other
  end.

Definition renameSymbolData (s : SymbolData) : SymbolData :=
  {| getDeclarations := map renameDecl (getDeclarations s) |}.

Definition renameSymbol (s : Symbol) : Symbol :=
  {| sym_self := renameSymbolData (sym_self s);
     getAliasedSymbol := option_map renameSymbolData (getAliasedSymbol s) |}.

Definition renameParamDecorator (d : ParamDecorator) : ParamDecorator :=
  {| pdeco_name := pdeco_name d;
     pdeco_arg0 := option_map (option_map renameSymbol) (pdeco_arg0 d) |}.

Definition renameParam (p : ParameterDeclaration) : ParameterDeclaration :=
  {| par_typeText := par_typeText p;
     par_text := par_text p;
     par_decorators := map renameParamDecorator (par_decorators p);
     par_typeSymbol := option_map renameSymbol (par_typeSymbol p) |}.

Definition renameCallee (e : CalleeExpr) : CalleeExpr :=
  match e with
  | PropertyAccess s => PropertyAccess (option_map renameSymbol s)
  | ElementAccess arg props s =>
      ElementAccess arg (map (fun kv => (fst kv, renameSymbol (snd kv))) props)
                    (option_map renameSymbol s)
  | OtherCallee s => OtherCallee (option_map renameSymbol s)
  end.

Definition renameCall (c : CallExpression) : CallExpression :=
  {| getExpression := option_map renameCallee (getExpression c) |}.

Definition renameCallable (c : Callable) : Callable :=
  {| c_uid := rho (c_uid c);
     c_kind := c_kind c;
     c_name := c_name c;
     c_isAsync := c_isAsync c;
     c_params := map renameParam (c_params c);
     c_calls := map renameCall (c_calls c) |}.

Definition renameInitializer (i : Initializer) : Initializer :=
  match i with
  | InitCallable c => InitCallable (renameCallable c)
  | InitOther => InitOther
  end.

Definition renameProperty (p : PropertyDeclaration) : PropertyDeclaration :=
  {| prop_name := prop_name p;
     prop_initializer := option_map renameInitializer (prop_initializer p) |}.

Definition renameVariable (v : VariableDeclaration) : VariableDeclaration :=
  {| var_name := var_name v;
     var_initializer := option_map renameInitializer (var_initializer v) |}.

Definition renameElement (el : ArrayElement) : ArrayElement :=
  match el with
  | SpreadElement => SpreadElement
  | Element s => Element (option_map renameSymbol s)
  end.

Definition renameInitExpr (e : InitExpr) : InitExpr :=
  match e with
  | ArrayLiteral els => ArrayLiteral (map renameElement els)
  | OtherExpr s => OtherExpr (option_map renameSymbol s)
  end.

Definition renameObjectProperty (p : ObjectProperty) : ObjectProperty :=
  match p with
  | PropertyAssignment name init => PropertyAssignment name (option_map renameInitExpr init)
  | OtherProperty => OtherProperty
  end.

Definition renameDecoratorArg (a : DecoratorArg) : DecoratorArg :=
  match a with
  | ObjectLiteral props => ObjectLiteral (map renameObjectProperty props)
  | OtherArg => OtherArg
  end.

Definition renameDecorator (d : Decorator) : Decorator :=
  {| deco_name := deco_name d;
     deco_arg0 := option_map renameDecoratorArg (deco_arg0 d) |}.

Definition renameClass (c : ClassDeclaration) : ClassDeclaration :=
  {| cls_name := cls_name c;
     cls_decorators := map renameDecorator (cls_decorators c);
     cls_methods := map renameCallable (cls_methods c);
     cls_properties := map renameProperty (cls_properties c);
     cls_constructors := map (map renameParam) (cls_constructors c) |}.

Definition renameFile (sf : SourceFile) : SourceFile :=
  {| sf_filePath := sf_filePath sf;
     sf_functions := map renameCallable (sf_functions sf);
     sf_classes := map renameClass (sf_classes sf);
     sf_variables := map renameVariable (sf_variables sf) |}.

(** The model of a second run. *)
Definition renameProject (project : Project) : Project := map renameFile project.

Definition renameInfo (c : CallableInfo) : CallableInfo :=
  {| ci_id := ci_id c; ci_name := ci_name c; ci_filePath := ci_filePath c;
     ci_fileKey := ci_fileKey c; ci_className := ci_className c;
     ci_decl := renameCallable (ci_decl c);
     ci_isAsync := ci_isAsync c; ci_kind := ci_kind c; ci_role := ci_role c |}.

Definition renameCollected (st : Collected) : Collected :=
  {| callables := map renameInfo (callables st);
     callablesByDecl :=
       map (fun e => (rho (fst e), renameInfo (snd e))) (callablesByDecl st) |}.

Hypothesis rho_injective : forall a b, rho a = rho b -> a = b.

Lemma rho_eqb : forall a b, Nat.eqb (rho a) (rho b) = Nat.eqb a b.
Proof.
  intros a b. destruct (Nat.eqb_spec a b) as [->|Hne].
  - apply Nat.eqb_refl.
  - apply Nat.eqb_neq. intros H. apply Hne. now apply rho_injective.
Qed.

Lemma getSourceFile_rename :
  forall project path,
    getSourceFile (renameProject project) path
    = option_map renameFile (getSourceFile project path).
Proof.
  unfold getSourceFile. induction project as [|sf p IH]; intros path; simpl; [reflexivity|].
  destruct (String.eqb (sf_filePath sf) path); [reflexivity|apply IH].
Qed.

Lemma paramTypeText_rename : forall p, paramTypeText (renameParam p) = paramTypeText p.
Proof. reflexivity. Qed.

Lemma buildSignatureKey_rename :
  forall c, buildSignatureKey (renameCallable c) = buildSignatureKey c.
Proof.
  intros c. unfold buildSignatureKey. simpl. rewrite map_map.
  do 3 f_equal.
Qed.

Lemma mkInfo_rename :
  forall sfPath decl name cn r,
    mkInfo sfPath (renameCallable decl) name cn r = renameInfo (mkInfo sfPath decl name cn r).
Proof.
  intros. unfold mkInfo, renameInfo. simpl. now rewrite buildSignatureKey_rename.
Qed.

Lemma set_rename :
  forall (m : JsMap.t nat CallableInfo) u info,
    JsMap.set Nat.eqb (rho u) (renameInfo info)
              (map (fun e => (rho (fst e), renameInfo (snd e))) m)
    = map (fun e => (rho (fst e), renameInfo (snd e))) (JsMap.set Nat.eqb u info m).
Proof.
  induction m as [|[k c] m IH]; intros u info; simpl; [reflexivity|].
  rewrite rho_eqb. destruct (Nat.eqb k u); simpl; [reflexivity|]. now rewrite IH.
Qed.

Lemma get_rename :
  forall (m : JsMap.t nat CallableInfo) u,
    JsMap.get Nat.eqb (rho u) (map (fun e => (rho (fst e), renameInfo (snd e))) m)
    = option_map renameInfo (JsMap.get Nat.eqb u m).
Proof.
  induction m as [|[k c] m IH]; intros u; simpl; [reflexivity|].
  rewrite rho_eqb. destruct (Nat.eqb k u); [reflexivity|apply IH].
Qed.

Lemma addCallable_rename :
  forall sfPath decl name cn r st,
    addCallable sfPath (renameCallable decl) name cn r (renameCollected st)
    = renameCollected (addCallable sfPath decl name cn r st).
Proof.
  intros. unfold addCallable, renameCollected. simpl.
  rewrite mkInfo_rename, set_rename, map_app. reflexivity.
Qed.

Lemma addInitializer_rename :
  forall sfPath init name cn r st,
    addInitializer sfPath (option_map renameInitializer init) name cn r (renameCollected st)
    = renameCollected (addInitializer sfPath init name cn r st).
Proof.
  intros. unfold addInitializer. destruct init as [[c|]|]; simpl; try reflexivity.
  destruct (isFunctionValue (c_kind c)); [apply addCallable_rename|reflexivity].
Qed.

Lemma fold_left_map_commute :
  forall (S X : Type) (r : S -> S) (h : X -> X) (f g : S -> X -> S) (l : list X),
    (forall st x, g (r st) (h x) = r (f st x)) ->
    forall st, fold_left g (map h l) (r st) = r (fold_left f l st).
Proof.
  intros S X r h f g l H. induction l as [|x l IH]; intros st; simpl; [reflexivity|].
  now rewrite H, IH.
Qed.

Lemma collectClass_rename :
  forall sf st cls,
    collectClass (renameFile sf) (renameCollected st) (renameClass cls)
    = renameCollected (collectClass sf st cls).
Proof.
  intros sf st cls. unfold collectClass. simpl.
  assert (getClassRole (renameFile sf) (renameClass cls) = getClassRole sf cls) as ->.
  { unfold getClassRole. simpl. rewrite map_map. reflexivity. }
  rewrite (fold_left_map_commute renameCollected renameCallable
             (fun s m => addCallable (sf_filePath sf) m (c_name m) (cls_name cls)
                                     (getClassRole sf cls) s)).
  - apply fold_left_map_commute. intros st' p. apply addInitializer_rename.
  - intros st' m. apply addCallable_rename.
Qed.

Lemma collectFile_rename :
  forall sf st,
    collectFile (renameFile sf) (renameCollected st) = renameCollected (collectFile sf st).
Proof.
  intros sf st. unfold collectFile. simpl.
  rewrite (fold_left_map_commute renameCollected renameCallable
             (fun s fn => addCallable (sf_filePath sf) fn
                                      (Some (Str.orElse (c_name fn) "<anon>")) None
                                      (Some RHelper) s)).
  - rewrite (fold_left_map_commute renameCollected renameClass (collectClass sf)).
    + apply fold_left_map_commute. intros st' v. apply addInitializer_rename.
    + intros st' cls. apply collectClass_rename.
  - intros st' fn. apply addCallable_rename.
Qed.

Lemma collect_rename :
  forall project filePaths,
    collect (renameProject project) filePaths
    = renameCollected (collect project filePaths).
Proof.
  intros project filePaths. unfold collect.
  change emptyCollected with (renameCollected emptyCollected) at 1.
  generalize emptyCollected.
  induction filePaths as [|p ps IH]; intros st; simpl; [reflexivity|].
  rewrite <- IH. f_equal. unfold collectStep. rewrite getSourceFile_rename.
  destruct (getSourceFile project p) as [sf|]; simpl; [apply collectFile_rename|reflexivity].
Qed.

Lemma lookupProp_rename :
  forall name props,
    lookupProp name (map (fun kv => (fst kv, renameSymbol (snd kv))) props)
    = option_map renameSymbol (lookupProp name props).
Proof.
  induction props as [|[k s] props IH]; simpl; [reflexivity|].
  destruct (String.eqb k name); [reflexivity|apply IH].
Qed.

Lemma calleeSymbol_rename :
  forall e, calleeSymbol (renameCallee e) = option_map renameSymbol (calleeSymbol e).
Proof.
  intros [s|arg props s|s]; simpl; try reflexivity.
  destruct arg as [txt|]; [|reflexivity].
  destruct (Str.truthy (Str.stripQuotes txt)); [|reflexivity].
  rewrite lookupProp_rename. destruct (lookupProp _ props); reflexivity.
Qed.

Lemma unwrapAlias_rename :
  forall s, unwrapAlias (renameSymbol s) = renameSymbolData (unwrapAlias s).
Proof. intros s. unfold unwrapAlias. simpl. destruct (getAliasedSymbol s); reflexivity. Qed.

Lemma firstCallee_rename :
  forall (m : JsMap.t nat CallableInfo) decls,
    firstCallee (map (fun e => (rho (fst e), renameInfo (snd e))) m) (map renameDecl decls)
    = option_map renameInfo (firstCallee m decls).
Proof.
  intros m. induction decls as [|d ds IH]; simpl; [reflexivity|].
  assert (matchCallableFromDecl (map (fun e => (rho (fst e), renameInfo (snd e))) m)
                                (renameDecl d)
          = option_map renameInfo (matchCallableFromDecl m d)) as ->.
  { destruct d as [c|k u a|a]; simpl; try reflexivity.
    destruct k; apply get_rename. }
  destruct (matchCallableFromDecl m d); simpl; [reflexivity|apply IH].
Qed.

Lemma resolveCall_rename :
  forall (m : JsMap.t nat CallableInfo) call,
    resolveCall (map (fun e => (rho (fst e), renameInfo (snd e))) m) (renameCall call)
    = option_map renameInfo (resolveCall m call).
Proof.
  intros m call. unfold resolveCall. simpl.
  destruct (getExpression call) as [e|]; simpl; [|reflexivity].
  rewrite calleeSymbol_rename. destruct (calleeSymbol e) as [s|]; simpl; [|reflexivity].
  rewrite unwrapAlias_rename. apply firstCallee_rename.
Qed.

Lemma callEdge_rename :
  forall (m : JsMap.t nat CallableInfo) caller call,
    callEdge (map (fun e => (rho (fst e), renameInfo (snd e))) m)
             (renameInfo caller) (renameCall call)
    = callEdge m caller call.
Proof.
  intros m caller call. unfold callEdge. rewrite resolveCall_rename.
  destruct (resolveCall m call); reflexivity.
Qed.

Lemma flat_map_map :
  forall (A B C : Type) (h : A -> B) (f : B -> list C) (l : list A),
    flat_map f (map h l) = flat_map (fun x => f (h x)) l.
Proof.
  induction l as [|x l IH]; simpl; [reflexivity|]. now rewrite IH.
Qed.

Lemma callEdges_rename :
  forall st, callEdges (renameCollected st) = callEdges st.
Proof.
  intros st. unfold callEdges, renameCollected. simpl.
  rewrite flat_map_map. apply flat_map_ext. intros caller. simpl.
  rewrite flat_map_map. apply flat_map_ext. intros call. apply callEdge_rename.
Qed.

Lemma analyzeDirectoryGraph_rename :
  forall project filePaths,
    analyzeDirectoryGraph (renameProject project) filePaths
    = analyzeDirectoryGraph project filePaths.
Proof.
  intros project filePaths. unfold analyzeDirectoryGraph.
  rewrite collect_rename, callEdges_rename. f_equal.
  unfold renameCollected. simpl. rewrite map_map. reflexivity.
Qed.

(** The wiring pass reads classes, never identities. *)

Lemma classOfDecl_rename : forall d, classOfDecl (renameDecl d) = classOfDecl d.
Proof. intros [c|k u a|a]; reflexivity. Qed.

Lemma symbolDecls_rename :
  forall s, symbolDecls (option_map renameSymbol s) = map renameDecl (symbolDecls s).
Proof.
  intros [s|]; simpl; [|reflexivity]. now rewrite unwrapAlias_rename.
Qed.

Lemma pushIfClass_rename :
  forall s, pushIfClass (option_map renameSymbol s) = pushIfClass s.
Proof.
  intros s. unfold pushIfClass. rewrite symbolDecls_rename, flat_map_map.
  apply flat_map_ext. intros d. now rewrite classOfDecl_rename.
Qed.

Lemma firstClass_rename :
  forall decls, firstClass (map renameDecl decls) = firstClass decls.
Proof.
  induction decls as [|d ds IH]; simpl; [reflexivity|].
  rewrite classOfDecl_rename, IH. reflexivity.
Qed.

Lemma collectClasses_rename :
  forall e, collectClasses (renameInitExpr e) = collectClasses e.
Proof.
  intros [els|s]; simpl; [|apply pushIfClass_rename].
  rewrite flat_map_map. apply flat_map_ext.
  intros [|s]; simpl; [reflexivity|apply pushIfClass_rename].
Qed.

Lemma readProperty_rename :
  forall info p, readProperty info (renameObjectProperty p) = readProperty info p.
Proof.
  intros info [name [init|]|]; simpl; try reflexivity.
  now rewrite collectClasses_rename.
Qed.

Lemma findModuleDecorator_rename :
  forall cls,
    findModuleDecorator (renameClass cls)
    = option_map renameDecorator (findModuleDecorator cls).
Proof.
  intros cls. unfold findModuleDecorator. simpl. apply find_map.
Qed.

Lemma moduleInfoOf_rename :
  forall sf cls, moduleInfoOf (renameFile sf) (renameClass cls) = moduleInfoOf sf cls.
Proof.
  intros sf cls. unfold moduleInfoOf. rewrite findModuleDecorator_rename. simpl.
  destruct (findModuleDecorator cls) as [d|]; simpl; [|reflexivity].
  destruct (deco_arg0 d) as [[props|]|]; simpl; try reflexivity.
  generalize ({| m_id := wiringId (sf_filePath sf) (Str.orElse (cls_name cls) "<Module>");
                 m_name := Str.orElse (cls_name cls) "<Module>";
                 m_filePath := sf_filePath sf;
                 m_fileKey := moduleKeyFor (sf_filePath sf) (Str.orElse (cls_name cls) "<Module>");
                 m_controllers := []; m_providers := []; m_importedModules := [] |}).
  induction props as [|p props IH]; intros info; simpl; [reflexivity|].
  now rewrite readProperty_rename, IH.
Qed.

Lemma isModuleClass_rename :
  forall sf cls, isModuleClass (renameFile sf) (renameClass cls) = isModuleClass sf cls.
Proof.
  intros sf cls. unfold isModuleClass. rewrite findModuleDecorator_rename. simpl.
  destruct (findModuleDecorator cls); reflexivity.
Qed.

Lemma scanModules_rename :
  forall project filePaths,
    scanModules (renameProject project) filePaths = scanModules project filePaths.
Proof.
  intros project filePaths. unfold scanModules.
  generalize ({| modules := []; scan_byId := [] |}).
  induction filePaths as [|p ps IH]; intros st; simpl; [reflexivity|].
  rewrite <- IH. f_equal. unfold scanStep. rewrite getSourceFile_rename.
  destruct (getSourceFile project p) as [sf|]; simpl; [|reflexivity].
  generalize st. induction (sf_classes sf) as [|c cs IHc]; intros st'; simpl; [reflexivity|].
  rewrite <- IHc. f_equal. unfold scanClass.
  now rewrite isModuleClass_rename, moduleInfoOf_rename.
Qed.

Lemma findClassOfNode_rename :
  forall project n,
    findClassOfNode (renameProject project) n
    = option_map renameClass (findClassOfNode project n).
Proof.
  intros project n. unfold findClassOfNode. rewrite getSourceFile_rename.
  destruct (getSourceFile project (filePath n)) as [sf|]; simpl; [|reflexivity].
  apply find_map.
Qed.

Lemma set_renameClass :
  forall (m : JsMap.t string ClassDeclaration) k cls,
    JsMap.set String.eqb k (renameClass cls) (map (fun e => (fst e, renameClass (snd e))) m)
    = map (fun e => (fst e, renameClass (snd e))) (JsMap.set String.eqb k cls m).
Proof.
  induction m as [|[k0 c0] m IH]; intros k cls; simpl; [reflexivity|].
  destruct (String.eqb k0 k); simpl; [reflexivity|]. now rewrite IH.
Qed.

Lemma classDeclsById_rename :
  forall project ns,
    classDeclsById (renameProject project) ns
    = map (fun e => (fst e, renameClass (snd e))) (classDeclsById project ns).
Proof.
  intros project ns. unfold classDeclsById.
  change (@nil (string * ClassDeclaration))
    with (map (fun e : string * ClassDeclaration => (fst e, renameClass (snd e))) []) at 1.
  generalize (@nil (string * ClassDeclaration)).
  induction ns as [|n ns IH]; intros acc; simpl; [reflexivity|].
  rewrite <- IH. f_equal. unfold classDeclsStep.
  destruct (isInjectable n); [|reflexivity].
  rewrite findClassOfNode_rename.
  destruct (findClassOfNode project n); simpl; [apply set_renameClass|reflexivity].
Qed.

Lemma injectionTarget_rename :
  forall p, injectionTarget (renameParam p) = injectionTarget p.
Proof.
  intros p. unfold injectionTarget. simpl.
  rewrite symbolDecls_rename, firstClass_rename.
  rewrite (find_map renameParamDecorator
                    (fun d => String.eqb (pdeco_name d) "Inject") (par_decorators p)).
  simpl. destruct (find _ (par_decorators p)) as [inj|]; simpl; [|reflexivity].
  destruct (pdeco_arg0 inj) as [s|]; simpl; [|reflexivity].
  now rewrite symbolDecls_rename, firstClass_rename.
Qed.

Lemma injectionEdges_rename :
  forall project st, injectionEdges (renameProject project) st = injectionEdges project st.
Proof.
  intros project st. unfold injectionEdges. rewrite classDeclsById_rename.
  rewrite flat_map_map. apply flat_map_ext. intros [k cls].
  unfold injectionEdgesOf. simpl.
  destruct (cls_constructors cls) as [|ctor rest]; simpl; [reflexivity|].
  rewrite flat_map_map. apply flat_map_ext. intros p.
  unfold injectionEdge. now rewrite injectionTarget_rename.
Qed.

Lemma analyzeWiringGraph_rename :
  forall project filePaths,
    analyzeWiringGraph (renameProject project) filePaths
    = analyzeWiringGraph project filePaths.
Proof.
  intros project filePaths. unfold analyzeWiringGraph.
  now rewrite scanModules_rename, injectionEdges_rename.
Qed.

Lemma analyzeDirectoryModules_rename :
  forall project filePaths,
    analyzeDirectoryModules (renameProject project) filePaths
    = analyzeDirectoryModules project filePaths.
Proof.
  intros project filePaths. unfold analyzeDirectoryModules. f_equal. f_equal.
  generalize (@nil GraphNode).
  induction filePaths as [|p ps IH]; intros acc; simpl; [reflexivity|].
  rewrite <- IH. f_equal. unfold modulesOnlyStep. rewrite getSourceFile_rename.
  destruct (getSourceFile project p) as [sf|]; simpl; [|reflexivity].
  generalize acc. induction (sf_classes sf) as [|c cs IHc]; intros acc'; simpl; [reflexivity|].
  rewrite <- IHc. f_equal. unfold modulesOnlyClass.
  now rewrite isModuleClass_rename.
Qed.

End Renaming.

(** C5.  Analysis is deterministic: a run whose declaration nodes carry other
    identities than those of a first run on the same input (an injective
    renaming of the identities, everything else equal) returns the same
    graph, node for node and edge for edge, from each entry point. *)
Theorem analysis_is_deterministic :
  forall (rho : nat -> nat) project filePaths,
    (forall a b, rho a = rho b -> a = b) ->
    analyzeDirectoryGraph (renameProject rho project) filePaths
    = analyzeDirectoryGraph project filePaths
    /\ analyzeWiringGraph (renameProject rho project) filePaths
       = analyzeWiringGraph project filePaths
    /\ analyzeDirectoryModules (renameProject rho project) filePaths
       = analyzeDirectoryModules project filePaths.
Proof.
  intros rho project filePaths Hinj. repeat split.
  - now apply analyzeDirectoryGraph_rename.
  - apply analyzeWiringGraph_rename.
  - apply analyzeDirectoryModules_rename.
Qed.

Lemma analysis_is_deterministic_calls :
  analyzeDirectoryGraph (renameProject (fun u => u + 100)%nat Examples.callProject)
                        Examples.callFiles
  = analyzeDirectoryGraph Examples.callProject Examples.callFiles
  /\ analyzeWiringGraph (renameProject (fun u => u + 100)%nat Examples.callProject)
                        Examples.callFiles
     = analyzeWiringGraph Examples.callProject Examples.callFiles
  /\ analyzeDirectoryModules (renameProject (fun u => u + 100)%nat Examples.callProject)
                             Examples.callFiles
     = analyzeDirectoryModules Examples.callProject Examples.callFiles.
Proof.
  apply (analysis_is_deterministic (fun u => u + 100)%nat).
  intros a b H. lia.
Defined.

(* ================================================================== *)
(** * Further properties of the analysis and of its callers *)

(* ------------------------------------------------------------------ *)
(** ** The shape of a short hash *)

Lemma take_length : forall n s, (String.length (Str.take n s) <= n)%nat.
Proof.
  induction n as [|n IH]; intros [|c s]; simpl; try lia.
  specialize (IH s). lia.
Qed.

Lemma take_nonempty :
  forall n s, (0 < n)%nat -> (0 < String.length s)%nat ->
              (0 < String.length (Str.take n s))%nat.
Proof. intros [|n] [|c s] Hn Hs; simpl in *; lia. Qed.

Lemma toString36_aux_nonempty :
  forall fuel n acc, (0 < fuel)%nat ->
                     (0 < String.length (toString36_aux fuel n acc))%nat.
Proof.
  induction fuel as [|f IH]; intros n acc Hf; [lia|]. cbn [toString36_aux].
  destruct (n / 36 =? 0)%Z; [simpl; lia|].
  destruct f as [|f']; [simpl; lia|]. apply IH. lia.
Qed.

(** X1.  [shortHash] returns between one and six characters, each a digit
    or a lower-case letter. *)
Theorem shortHash_shape :
  forall input,
    (1 <= String.length (shortHash input) <= 6)%nat
    /\ allChars isDigit36 (shortHash input) = true.
Proof.
  intros input. split; [|apply shortHash_digits]. unfold shortHash. split.
  - apply take_nonempty; [lia|]. apply toString36_aux_nonempty. lia.
  - apply take_length.
Qed.

(* ------------------------------------------------------------------ *)
(** ** The hash loop in unsigned arithmetic *)

(** 32-bit FNV-1a on unsigned numbers: xor the code unit in, multiply by the
    prime, keep the low 32 bits. *)
Fixpoint fnv1a (h : Z) (input : string) : Z :=
  match input with
  | EmptyString => h
  | String c rest =>
      fnv1a ((Z.lxor h (charCodeAt c) * 16777619) mod 4294967296)%Z rest
  end.

Lemma toUint32_toInt32 : forall z, toUint32 (toInt32 z) = toUint32 z.
Proof.
  intros z. unfold toUint32, toInt32.
  rewrite Zminus_mod, Z.mod_mod by lia. rewrite <- Zminus_mod.
  f_equal. lia.
Qed.

Lemma lxor_mod_pow2 :
  forall x y n, (0 <= n)%Z ->
    (Z.lxor x y mod 2 ^ n = Z.lxor (x mod 2 ^ n) (y mod 2 ^ n))%Z.
Proof.
  intros x y n Hn. apply Z.bits_inj'. intros k Hk.
  rewrite Z.lxor_spec.
  destruct (Z.lt_ge_cases k n) as [Hlt|Hge].
  - rewrite !Z.mod_pow2_bits_low by lia. apply Z.lxor_spec.
  - rewrite !Z.mod_pow2_bits_high by lia. reflexivity.
Qed.

Lemma toUint32_xor32 :
  forall a b, toUint32 (xor32 a b) = Z.lxor (toUint32 a) (toUint32 b).
Proof.
  intros a b. unfold xor32. rewrite toUint32_toInt32. unfold toUint32.
  change 4294967296%Z with (2 ^ 32)%Z. rewrite lxor_mod_pow2 by lia.
  change (2 ^ 32)%Z with 4294967296%Z.
  fold (toUint32 (toInt32 a)). fold (toUint32 (toInt32 b)).
  now rewrite !toUint32_toInt32.
Qed.

Lemma toUint32_imul :
  forall a b, toUint32 (imul a b) = ((toUint32 a * toUint32 b) mod 4294967296)%Z.
Proof.
  intros a b. unfold imul. rewrite toUint32_toInt32. unfold toUint32 at 1.
  rewrite Z.mul_mod by lia.
  fold (toUint32 (toInt32 a)). fold (toUint32 (toInt32 b)).
  now rewrite !toUint32_toInt32.
Qed.

Lemma charCodeAt_range : forall c, (0 <= charCodeAt c < 256)%Z.
Proof.
  intros c. unfold charCodeAt. pose proof (nat_ascii_bounded c). lia.
Qed.

Lemma hashLoop_unsigned :
  forall input h, toUint32 (hashLoop h input) = fnv1a (toUint32 h) input.
Proof.
  induction input as [|c rest IH]; intros h; simpl; [reflexivity|].
  rewrite IH. f_equal. rewrite toUint32_imul, toUint32_xor32.
  pose proof (charCodeAt_range c) as Hc.
  assert (toUint32 (charCodeAt c) = charCodeAt c) as ->
      by (unfold toUint32; apply Z.mod_small; lia).
  assert (toUint32 16777619 = 16777619%Z) as -> by reflexivity.
  reflexivity.
Qed.

(** X2.  The loop of [shortHash], written with signed 32-bit operations
    ([^=] and [Math.imul]), computes the unsigned 32-bit FNV-1a hash of the
    code units: the digest is the first six base-36 digits of that number,
    which lies between 0 and 2^32 - 1. *)
Theorem shortHash_is_fnv1a :
  forall input,
    shortHash input = Str.take 6 (toString36 (fnv1a 2166136261 input))
    /\ (0 <= fnv1a 2166136261 input < 4294967296)%Z.
Proof.
  intros input. split.
  - unfold shortHash. now rewrite hashLoop_unsigned.
  - change 2166136261%Z with (toUint32 2166136261).
    rewrite <- hashLoop_unsigned.
    unfold toUint32 at 1. apply Z.mod_pos_bound. lia.
Qed.

(* ------------------------------------------------------------------ *)
(** ** [simplifyPath] *)

Lemma split_no_sep :
  forall sep s, Str.mem sep s = false -> Str.split sep s = [s].
Proof.
  intros sep. induction s as [|c s IH]; simpl; intros H; [reflexivity|].
  apply orb_false_iff in H. destruct H as [Hc Hs]. rewrite Hc, (IH Hs). reflexivity.
Qed.

Lemma split_app_sep :
  forall sep p rest,
    Str.mem sep p = false ->
    Str.split sep (p ++ String sep rest) = p :: Str.split sep rest.
Proof.
  intros sep. induction p as [|c p IH]; simpl; intros rest H.
  - now rewrite Ascii.eqb_refl.
  - apply orb_false_iff in H. destruct H as [Hc Hp]. rewrite Hc, (IH rest Hp). reflexivity.
Qed.

Lemma split_parts_no_sep :
  forall sep s, Forall (fun part => Str.mem sep part = false) (Str.split sep s).
Proof.
  intros sep. induction s as [|c s IH]; simpl.
  - repeat constructor.
  - destruct (Ascii.eqb c sep) eqn:E.
    + constructor; [reflexivity|assumption].
    + destruct (Str.split sep s) as [|p ps]; [repeat constructor; simpl; now rewrite E|].
      inversion IH; subst. constructor; [simpl; now rewrite E|assumption].
Qed.

(** A segment: not empty, without slash. *)
Definition isSegment (part : string) : Prop :=
  Str.truthy part = true /\ Str.mem "/" part = false.

Lemma pathParts_segments : forall p, Forall isSegment (pathParts p).
Proof.
  intros p. unfold pathParts. apply Forall_forall. intros part H.
  apply filter_In in H. destruct H as [Hin Ht]. split; [assumption|].
  pose proof (split_parts_no_sep "/" p) as Hall.
  rewrite Forall_forall in Hall. now apply Hall.
Qed.

Lemma split_join :
  forall parts,
    parts <> [] -> Forall isSegment parts ->
    Str.split "/" (Str.join "/" parts) = parts.
Proof.
  induction parts as [|p ps IH]; intros Hne Hall; [contradiction|].
  inversion Hall as [|? ? [_ Hp] Hps]; subst.
  destruct ps as [|q ps].
  - simpl. now apply split_no_sep.
  - change (Str.join "/" (p :: q :: ps)) with (p ++ String "/" (Str.join "/" (q :: ps)))%string.
    rewrite split_app_sep by assumption. f_equal. apply IH; [discriminate|assumption].
Qed.

Lemma filter_segments :
  forall parts, Forall isSegment parts -> filter Str.truthy parts = parts.
Proof.
  induction parts as [|p ps IH]; intros H; simpl; [reflexivity|].
  inversion H as [|? ? [Ht _] Hps]; subst. rewrite Ht. f_equal. auto.
Qed.

(** Joining segments and cutting the result again gives the segments back. *)
Lemma pathParts_join :
  forall parts, Forall isSegment parts -> pathParts (Str.join "/" parts) = parts.
Proof.
  intros parts H. unfold pathParts. destruct parts as [|p ps]; [reflexivity|].
  rewrite split_join by (auto; discriminate). now apply filter_segments.
Qed.

Lemma Forall_skipn :
  forall (A : Type) (P : A -> Prop) k (l : list A), Forall P l -> Forall P (skipn k l).
Proof.
  intros A P. induction k as [|k IH]; intros [|x l] H; simpl; auto.
  inversion H; subst. auto.
Qed.

(** The segments [simplifyPath] keeps. *)
Definition keptParts (p : string) : list string :=
  match Str.indexOf "src" (pathParts p) with
  | Some idx => skipn idx (pathParts p)
  | None => skipn (List.length (pathParts p) - 3) (pathParts p)
  end.

Lemma simplifyPath_join : forall p, simplifyPath p = Str.join "/" (keptParts p).
Proof.
  intros p. unfold simplifyPath, keptParts.
  destruct (Str.indexOf "src" (pathParts p)); reflexivity.
Qed.

Lemma pathParts_simplifyPath : forall p, pathParts (simplifyPath p) = keptParts p.
Proof.
  intros p. rewrite simplifyPath_join. apply pathParts_join.
  unfold keptParts. destruct (Str.indexOf "src" (pathParts p));
    apply Forall_skipn, pathParts_segments.
Qed.

Lemma indexOf_skipn_found :
  forall x l i, Str.indexOf x l = Some i -> Str.indexOf x (skipn i l) = Some O.
Proof.
  intros x. induction l as [|y l IH]; intros i H; simpl in H; [discriminate|].
  destruct (String.eqb y x) eqn:E.
  - injection H as <-. simpl. now rewrite E.
  - destruct (Str.indexOf x l) as [j|]; [|discriminate]. injection H as <-.
    simpl. now apply IH.
Qed.

Lemma indexOf_skipn_none :
  forall x l k, Str.indexOf x l = None -> Str.indexOf x (skipn k l) = None.
Proof.
  intros x. induction l as [|y l IH]; intros k H; [now destruct k|].
  simpl in H. destruct (String.eqb y x) eqn:E; [discriminate|].
  destruct (Str.indexOf x l) as [j|] eqn:F; [discriminate|].
  destruct k as [|k]; simpl; [now rewrite E, F|]. now apply IH.
Qed.

Lemma indexOf_zero_head :
  forall x l, Str.indexOf x l = Some O -> hd_error l = Some x.
Proof.
  intros x [|y l] H; simpl in *; [discriminate|].
  destruct (String.eqb_spec y x) as [->|]; [reflexivity|].
  destruct (Str.indexOf x l); discriminate.
Qed.

Lemma indexOf_firstn :
  forall x l i, Str.indexOf x l = Some i -> ~ In x (firstn i l).
Proof.
  intros x. induction l as [|y l IH]; intros i H; simpl in H; [discriminate|].
  destruct (String.eqb_spec y x) as [->|Hne].
  - injection H as <-. simpl. auto.
  - destruct (Str.indexOf x l) as [j|] eqn:E; [|discriminate]. injection H as <-.
    simpl. intros [Hy|Hin]; [contradiction|]. exact (IH j eq_refl Hin).
Qed.

Lemma indexOf_none_notin :
  forall x l, Str.indexOf x l = None -> ~ In x l.
Proof.
  intros x. induction l as [|y l IH]; simpl; intros H; [tauto|].
  destruct (String.eqb_spec y x) as [->|Hne]; [discriminate|].
  destruct (Str.indexOf x l) as [j|]; [discriminate|].
  intros [Hy|Hin]; [contradiction|]. exact (IH eq_refl Hin).
Qed.

(** X3.  [simplifyPath] is idempotent, and it cuts the path at the first
    segment [src]: the non-empty segments of the path are some segments,
    none of them [src], followed by the segments kept, and the result is the
    kept segments joined by slashes.  When the path has a segment [src], the
    kept segments start with it; when it has none, the kept segments are the
    last three, or all of them when there are fewer. *)
Theorem simplifyPath_idempotent :
  forall p,
    simplifyPath (simplifyPath p) = simplifyPath p
    /\ exists before kept,
         pathParts p = before ++ kept
         /\ simplifyPath p = Str.join "/" kept
         /\ pathParts (simplifyPath p) = kept
         /\ ~ In "src"%string before
         /\ (hd_error kept = Some "src"%string
             \/ (~ In "src"%string (pathParts p)
                 /\ List.length kept = Nat.min 3 (List.length (pathParts p)))).
Proof.
  intros p. split.
  - assert (keptParts (simplifyPath p) = keptParts p) as Hkept.
    { unfold keptParts at 1. rewrite pathParts_simplifyPath. unfold keptParts.
      destruct (Str.indexOf "src" (pathParts p)) as [idx|] eqn:E.
      - now rewrite (indexOf_skipn_found _ _ E).
      - rewrite (indexOf_skipn_none _ _ _ E).
        replace (List.length (skipn (List.length (pathParts p) - 3) (pathParts p)) - 3)%nat
          with O; [reflexivity|].
        rewrite length_skipn. lia. }
    rewrite (simplifyPath_join (simplifyPath p)), Hkept. symmetry. apply simplifyPath_join.
  - rewrite pathParts_simplifyPath, simplifyPath_join. unfold keptParts.
    destruct (Str.indexOf "src" (pathParts p)) as [idx|] eqn:E.
    + exists (firstn idx (pathParts p)), (skipn idx (pathParts p)).
      split; [symmetry; apply firstn_skipn|]. split; [reflexivity|].
      split; [reflexivity|]. split; [now apply indexOf_firstn|].
      left. apply indexOf_zero_head. now apply indexOf_skipn_found.
    + pose proof (indexOf_none_notin _ _ E) as Hno.
      exists (firstn (List.length (pathParts p) - 3) (pathParts p)),
             (skipn (List.length (pathParts p) - 3) (pathParts p)).
      split; [symmetry; apply firstn_skipn|]. split; [reflexivity|].
      split; [reflexivity|]. split.
      * intros Hin. apply Hno. rewrite <- (firstn_skipn (List.length (pathParts p) - 3)).
        apply in_or_app. now left.
      * right. split; [assumption|]. rewrite length_skipn. lia.
Qed.

(* ------------------------------------------------------------------ *)
(** ** What the nodes of the three graphs look like *)

Lemma orElse_truthy :
  forall a d, Str.truthy d = true -> Str.truthy (Str.orElse a d) = true.
Proof.
  intros [s|] d H; simpl; [|assumption]. destruct (Str.truthy s) eqn:E; assumption.
Qed.

Lemma call_graph_node_scoped :
  forall project filePaths n,
    In n (nodes (analyzeDirectoryGraph project filePaths)) ->
    In (filePath n) filePaths
    /\ (exists sf, getSourceFile project (filePath n) = Some sf)
    /\ fileKey n = (simplifyPath (filePath n) ++ "#" ++ shortHash (filePath n))%string
    /\ (isAsync n = Some true \/ isAsync n = Some false).
Proof.
  intros project filePaths n Hn. simpl in Hn.
  apply (dedupBy_incl String.eqb String.eqb_eq) in Hn.
  apply in_map_iff in Hn. destruct Hn as (c & <- & Hc).
  destruct (@collect_collected
              (fun c => In (ci_filePath c) filePaths
                        /\ (exists sf, getSourceFile project (ci_filePath c) = Some sf)
                        /\ ci_fileKey c = fileKeyFor (ci_filePath c))
              project filePaths) as [H1 _].
  { intros path sf decl name cn r Hpath Hsf. simpl.
    rewrite (getSourceFile_path _ _ Hsf). eauto. }
  destruct (H1 c Hc) as (A & B & C). simpl. repeat split; auto.
  destruct (ci_isAsync c); auto.
Qed.

(** X4.  The call graph is scoped to the listed files: every node of the
    graph returned by [analyzeDirectoryGraph] belongs to a listed path that
    has a source file in the model, its file key is the simplified path
    followed by [#] and the short hash of the path, its async flag is set,
    and no two nodes share an identifier. *)
Theorem call_graph_nodes_are_scoped :
  forall project filePaths,
    NoDup (map id (nodes (analyzeDirectoryGraph project filePaths)))
    /\ Forall (fun n =>
                 In (filePath n) filePaths
                 /\ (exists sf, getSourceFile project (filePath n) = Some sf)
                 /\ fileKey n = (simplifyPath (filePath n) ++ "#"
                                 ++ shortHash (filePath n))%string
                 /\ (isAsync n = Some true \/ isAsync n = Some false))
              (nodes (analyzeDirectoryGraph project filePaths)).
Proof.
  intros project filePaths. split.
  - apply (dedupBy_NoDup String.eqb String.eqb_eq).
  - apply Forall_forall. intros n Hn. now apply call_graph_node_scoped.
Qed.

Section ModulesOnlyInvariant.
Variable project : Project.
Variable filePaths : list string.

Definition moduleOnlyNode (n : GraphNode) : Prop :=
  role n = Some RModule
  /\ kind n = "ClassDeclaration"
  /\ id n = (filePath n ++ "#" ++ label n)%string
  /\ Str.truthy (label n) = true
  /\ fileKey n = simplifyPath (filePath n)
  /\ In (filePath n) filePaths.

Lemma modulesOnly_raw :
  forall n,
    In n (fold_left (modulesOnlyStep project) filePaths []) -> moduleOnlyNode n.
Proof.
  assert (forall l, (forall p, In p l -> In p filePaths) ->
                    forall acc, (forall n, In n acc -> moduleOnlyNode n) ->
                                forall n, In n (fold_left (modulesOnlyStep project) l acc) ->
                                          moduleOnlyNode n) as H.
  { intros l Hl acc Hacc.
    apply (@fold_left_invariant _ _ (fun acc => forall n, In n acc -> moduleOnlyNode n));
      [|assumption].
    intros st path Hpath Hst. unfold modulesOnlyStep.
    destruct (getSourceFile project path) as [sf|] eqn:E; [|assumption].
    apply fold_left_invariant; [|assumption].
    intros st' cls _ Hst'. unfold modulesOnlyClass.
    destruct (isModuleClass sf cls); [|assumption].
    intros n Hn. apply in_app_or in Hn. destruct Hn as [Hn|[<-|[]]]; [auto|].
    repeat split; simpl.
    - apply orElse_truthy. reflexivity.
    - rewrite (getSourceFile_path _ _ E). now apply Hl. }
  apply (H filePaths); [auto|intros n []].
Qed.

End ModulesOnlyInvariant.

(** X5.  [analyzeDirectoryModules] returns no edge, and nodes with pairwise
    distinct identifiers that are all modules of listed files: role module,
    kind class declaration, a non-empty label, the identifier
    [filePath#label] and the simplified path as file key. *)
Theorem modules_only_graph :
  forall project filePaths,
    edges (analyzeDirectoryModules project filePaths) = []
    /\ NoDup (map id (nodes (analyzeDirectoryModules project filePaths)))
    /\ Forall (moduleOnlyNode filePaths)
              (nodes (analyzeDirectoryModules project filePaths)).
Proof.
  intros project filePaths. split; [reflexivity|]. split.
  - apply (dedupBy_NoDup String.eqb String.eqb_eq).
  - apply Forall_forall. intros n Hn. simpl in Hn.
    apply (dedupBy_incl String.eqb String.eqb_eq) in Hn.
    eapply modulesOnly_raw; eauto.
Qed.

(** The two kinds of node of the wiring graph. *)
Definition wiringNode (n : GraphNode) : Prop :=
  kind n = "ClassDeclaration"
  /\ id n = wiringId (filePath n) (label n)
  /\ Str.truthy (label n) = true
  /\ ((role n = Some RModule /\ isAsync n = Some false /\ className n = None)
      \/ ((role n = Some RController \/ role n = Some RService \/ role n = Some RProvider)
          /\ isAsync n = None
          /\ (className n = Some "Controllers" \/ className n = Some "Providers"))).

Lemma moduleNode_wiringNode :
  forall path name key,
    Str.truthy name = true -> wiringNode (moduleNodeOf (wiringId path name) name path key).
Proof. intros. repeat split; simpl; auto. Qed.

Lemma scan_wiringNodes :
  forall project filePaths k n,
    In (k, n) (scan_byId (scanModules project filePaths)) -> wiringNode n.
Proof.
  intros project filePaths k n H.
  destruct (@scanModules_scanned (fun m => Str.truthy (m_name m) = true) project filePaths)
    as (_ & S2 & S3).
  { intros path sf cls _ _ _. destruct (moduleInfoOf_fields sf cls) as (_ & -> & _).
    apply orElse_truthy. reflexivity. }
  destruct (S3 k n H) as (m & Hm & _ & ->). destruct (S2 m Hm) as (T & -> & _).
  now apply moduleNode_wiringNode.
Qed.

Definition allWiringNodes (st : Wiring) : Prop :=
  (forall k n, In (k, n) (byId st) -> wiringNode n)
  /\ (forall n, In n (w_nodes st) -> wiringNode n).

Lemma registerNode_allWiringNodes :
  forall n st, wiringNode n -> allWiringNodes st -> allWiringNodes (registerNode n st).
Proof.
  intros n st Hn [H1 H2]. split; simpl.
  - intros k x Hx. apply (jsmap_In_set String.eqb String.eqb_eq) in Hx.
    destruct Hx as [[_ ->]|Hx]; eauto.
  - intros x Hx. apply in_app_or in Hx. destruct Hx as [Hx|[<-|[]]]; auto.
Qed.

Lemma pushNode_allWiringNodes :
  forall n st, wiringNode n -> allWiringNodes st -> allWiringNodes (pushNode n st).
Proof.
  intros n st Hn [H1 H2]. split; simpl; [assumption|].
  intros x Hx. apply in_app_or in Hx. destruct Hx as [Hx|[<-|[]]]; auto.
Qed.

Lemma ensureNode_allWiringNodes :
  forall m section st cls,
    section = "Controllers" \/ section = "Providers" ->
    allWiringNodes st -> allWiringNodes (ensureNode m section st cls).
Proof.
  intros m section st cls Hsec Hst. unfold ensureNode.
  match goal with |- allWiringNodes (pushEdge _ ?s) => assert (allWiringNodes s) as H end.
  { destruct (JsMap.has String.eqb (classNodeId cls) (byId st)); simpl.
    - destruct (hasNode (classNodeId cls) (w_nodes st)); simpl; [assumption|].
      destruct (JsMap.get String.eqb (classNodeId cls) (byId st)) as [n|] eqn:G;
        [|assumption].
      apply pushNode_allWiringNodes; [|assumption].
      apply (jsmap_get_In String.eqb String.eqb_eq) in G. destruct Hst as [H1 _]. eauto.
    - apply registerNode_allWiringNodes; [|assumption].
      repeat split; simpl.
      + apply orElse_truthy. reflexivity.
      + right. repeat split; [|destruct Hsec as [->| ->]; auto].
        unfold roleFor. destruct (includes "Controller" _); [auto|].
        destruct (includes "Injectable" _); auto. }
  destruct H as [H1 H2]. split; simpl; assumption.
Qed.

Lemma importModule_allWiringNodes :
  forall m st im, allWiringNodes st -> allWiringNodes (importModule m st im).
Proof.
  intros m st im Hst. unfold importModule.
  match goal with |- allWiringNodes (pushEdge _ ?s) => assert (allWiringNodes s) as H end.
  { destruct (JsMap.has String.eqb _ (byId st)); simpl; [assumption|].
    apply registerNode_allWiringNodes; [|assumption].
    apply moduleNode_wiringNode. apply orElse_truthy. reflexivity. }
  destruct H as [H1 H2]. split; simpl; assumption.
Qed.

Lemma wireModule_allWiringNodes :
  forall st m, allWiringNodes st -> allWiringNodes (wireModule st m).
Proof.
  intros st m Hst. unfold wireModule.
  apply fold_left_invariant; [intros; now apply importModule_allWiringNodes|].
  apply fold_left_invariant; [intros; apply ensureNode_allWiringNodes; auto|].
  apply fold_left_invariant; [intros; apply ensureNode_allWiringNodes; auto|].
  destruct (JsMap.get String.eqb (m_id m) (byId st)) as [n|] eqn:G; [|assumption].
  apply pushNode_allWiringNodes; [|assumption].
  apply (jsmap_get_In String.eqb String.eqb_eq) in G. destruct Hst as [H1 _]. eauto.
Qed.

(** X6.  Every node of the wiring graph is a class declaration with a
    non-empty label and the identifier [filePath#label::shortHash(label)];
    it is either a module node (role module, async flag false, no section)
    or a class node (role controller, service or provider, no async flag,
    section Controllers or Providers).  No node lacks a role, and no two
    nodes share an identifier. *)
Theorem wiring_graph_nodes :
  forall project filePaths,
    NoDup (map id (nodes (analyzeWiringGraph project filePaths)))
    /\ Forall wiringNode (nodes (analyzeWiringGraph project filePaths)).
Proof.
  intros project filePaths. split.
  - apply (dedupBy_NoDup String.eqb String.eqb_eq).
  - apply Forall_forall. intros n Hn. simpl in Hn.
    apply (dedupBy_incl String.eqb String.eqb_eq) in Hn.
    assert (allWiringNodes (wireModules (scanModules project filePaths))) as [_ H].
    { unfold wireModules. apply fold_left_invariant.
      - intros st m _ Hst. now apply wireModule_allWiringNodes.
      - split; simpl; [|intros x []].
        intros k x Hx. eapply scan_wiringNodes; eauto. }
    auto.
Qed.

(* ------------------------------------------------------------------ *)
(** ** The two module scans agree *)

Definition nodePathLabel (n : GraphNode) : string * string := (filePath n, label n).
Definition modulePathName (m : ModuleInfo) : string * string := (m_filePath m, m_name m).

(** The nodes pushed by [analyzeDirectoryModules] and the modules pushed by
    the first loop of [analyzeWiringGraph] are the same classes, in the same
    order. *)
Lemma modulesOnly_scan_parallel :
  forall project filePaths,
    map nodePathLabel (fold_left (modulesOnlyStep project) filePaths [])
    = map modulePathName (modules (scanModules project filePaths)).
Proof.
  intros project filePaths. unfold scanModules.
  assert (forall l acc st,
             map nodePathLabel acc = map modulePathName (modules st) ->
             map nodePathLabel (fold_left (modulesOnlyStep project) l acc)
             = map modulePathName (modules (fold_left (scanStep project) l st))) as H.
  { induction l as [|p l IH]; intros acc st Hrel; simpl; [assumption|].
    apply IH. unfold modulesOnlyStep, scanStep.
    destruct (getSourceFile project p) as [sf|]; [|assumption].
    revert acc st Hrel. induction (sf_classes sf) as [|c cs IHc]; intros acc st Hrel; simpl;
      [assumption|].
    apply IHc. unfold modulesOnlyClass, scanClass.
    destruct (isModuleClass sf c); [|assumption].
    cbn [modules]. rewrite !map_app, Hrel. f_equal. cbn [map]. f_equal.
    unfold nodePathLabel, modulePathName.
    destruct (moduleInfoOf_fields sf c) as (_ & E1 & E2 & _). rewrite E1, E2.
    reflexivity. }
  apply H. reflexivity.
Qed.

(** X7.  The module enumeration and the wiring graph agree on the modules of
    the listed files: every node of [analyzeDirectoryModules] has a node in
    the wiring graph whose identifier is its own followed by [::] and the
    short hash of its label, and every module scanned for the wiring graph
    has a node [filePath#name] in the module enumeration. *)
Theorem module_scans_agree :
  forall project filePaths,
    Forall (fun n =>
              In (id n ++ "::" ++ shortHash (label n))%string
                 (map id (nodes (analyzeWiringGraph project filePaths))))
           (nodes (analyzeDirectoryModules project filePaths))
    /\ Forall (fun m =>
                 In (m_filePath m ++ "#" ++ m_name m)%string
                    (map id (nodes (analyzeDirectoryModules project filePaths))))
              (modules (scanModules project filePaths)).
Proof.
  intros project filePaths.
  pose proof (modulesOnly_scan_parallel project filePaths) as Hpar.
  split; apply Forall_forall.
  - intros n Hn. simpl in Hn. apply (dedupBy_incl String.eqb String.eqb_eq) in Hn.
    pose proof (modulesOnly_raw _ _ _ Hn) as (_ & _ & Hid & _).
    assert (In (nodePathLabel n)
               (map modulePathName (modules (scanModules project filePaths)))) as Hm
        by (rewrite <- Hpar; now apply in_map).
    apply in_map_iff in Hm. destruct Hm as (m & [= Hp Hl] & Hm).
    destruct (@wiring_final (fun _ => True) project filePaths) as [Hinv Hkeys]; auto.
    destruct (@scanModules_scanned (fun _ => True) project filePaths) as (_ & S2 & _); auto.
    destruct (S2 m Hm) as (_ & Hshape & Hkey).
    unfold analyzeWiringGraph. cbn [nodes]. unfold uniqueNodes.
    rewrite (dedupBy_keys_iff String.eqb String.eqb_eq).
    replace (id n ++ "::" ++ shortHash (label n))%string with (m_id m).
    + apply Hkeys. apply (inv_scan Hinv). exact Hkey.
    + rewrite Hshape, Hid, Hp, Hl. unfold wiringId. now rewrite !str_app_assoc.
  - intros m Hm. simpl. unfold uniqueNodes.
    rewrite (dedupBy_keys_iff String.eqb String.eqb_eq).
    assert (In (modulePathName m)
               (map nodePathLabel (fold_left (modulesOnlyStep project) filePaths []))) as Hn
        by (rewrite Hpar; now apply in_map).
    apply in_map_iff in Hn. destruct Hn as (n & [= Hp Hl] & Hn).
    pose proof (modulesOnly_raw _ _ _ Hn) as (_ & _ & Hid & _).
    apply in_map_iff. exists n. split; [|assumption]. now rewrite Hid, Hp, Hl.
Qed.

(* ------------------------------------------------------------------ *)
(** ** The caller: files under a directory and the role filter (fs.ts, App.tsx) *)

(** A node of the directory tree: a file, or a directory with children. *)
#[warnings="-register-all"]
Inductive TreeNode :=
| FileNode (name path : string)
| DirectoryNode (name path : string) (children : list TreeNode).

(** [enumerateFilesUnder]: the inner [walk] pushes the path of every file,
    children in order. *)
Fixpoint enumerateFilesUnder (node : TreeNode) : list string :=
  match node with
  | FileNode _ path => [path]
  | DirectoryNode _ _ children => flat_map enumerateFilesUnder children
  end.

(** [d] lies in the tree below [root] (or is [root]). *)
Inductive Within (d : TreeNode) : TreeNode -> Prop :=
| within_self : Within d d
| within_child : forall name path children c,
    In c children -> Within d c -> Within d (DirectoryNode name path children).

(** X8.  The files of a directory of the tree are listed, in the same order
    and without gap, among the files of every directory that contains it. *)
Theorem enumerateFilesUnder_scoped :
  forall d root,
    Within d root ->
    exists before after,
      enumerateFilesUnder root = before ++ enumerateFilesUnder d ++ after.
Proof.
  intros d root H. induction H as [|name path children c Hc _ (b & a & IH)].
  - exists [], []. now rewrite app_nil_r.
  - apply in_split in Hc. destruct Hc as (l1 & l2 & ->).
    exists (flat_map enumerateFilesUnder l1 ++ b), (a ++ flat_map enumerateFilesUnder l2).
    simpl. rewrite flat_map_app. simpl. rewrite IH. now rewrite <- !app_assoc.
Qed.

Definition srcDirectory : TreeNode :=
  DirectoryNode "src" "/project/src"
    [FileNode "a.ts" "/project/src/a.ts"; FileNode "b.tsx" "/project/src/b.tsx"].

Definition projectDirectory : TreeNode :=
  DirectoryNode "project" "/project"
    [srcDirectory; FileNode "README.md" "/project/README.md"].

Lemma enumerateFilesUnder_scoped_src :
  exists before after,
    enumerateFilesUnder projectDirectory
    = before ++ enumerateFilesUnder srcDirectory ++ after.
Proof.
  apply enumerateFilesUnder_scoped.
  apply within_child with (c := srcDirectory); [now left|apply within_self].
Defined.

(** The role switches of the application. *)
Record FilterRoles := {
  show_module : bool;
  show_controller : bool;
  show_service : bool;
  show_provider : bool;
  show_helper : bool
}.

Inductive GraphType := WiringView | CallsView.

(** [n.role ?? (kind is a function declaration or an arrow ? helper : undefined)] *)
Definition effectiveRole (n : GraphNode) : option Role :=
  match role n with
  | Some r => Some r
  | None =>
      if String.eqb (kind n) "FunctionDeclaration" || String.eqb (kind n) "ArrowFunction"
      then Some RHelper else None
  end.

Definition roleEnabled (f : FilterRoles) (n : GraphNode) : bool :=
  match effectiveRole n with
  | Some RModule => show_module f
  | Some RController => show_controller f
  | Some RService => show_service f
  | Some RProvider => show_provider f
  | Some RHelper => show_helper f
  | None => show_helper f
  end.

(** The nodes the switches keep, and the edges between kept nodes. *)
Definition applyRoleFilter (f : FilterRoles) (g : Graph) : Graph :=
  let kept := filter (roleEnabled f) (nodes g) in
  let nodeIds := map id kept in
  {| nodes := kept;
     edges := filter (fun e => includes (from e) nodeIds && includes (to e) nodeIds)
                     (edges g) |}.

Definition isTypeScriptFile (p : string) : bool :=
  Str.endsWith ".ts" p || Str.endsWith ".tsx" p.

(** The graph the application shows (the [useMemo] of [App]). *)
Definition visibleGraph (projectRef : option Project) (selectedDir : option TreeNode)
           (graphType : GraphType) (filterRoles : FilterRoles) : Graph :=
  match projectRef, selectedDir with
  | Some project, Some dir =>
      let files := filter isTypeScriptFile (enumerateFilesUnder dir) in
      let g := match graphType with
               | WiringView => analyzeWiringGraph project files
               | CallsView => analyzeDirectoryGraph project files
               end in
      applyRoleFilter filterRoles g
  | _, _ => {| nodes := []; edges := [] |}
  end.

Definition allRoles : FilterRoles :=
  {| show_module := true; show_controller := true; show_service := true;
     show_provider := true; show_helper := true |}.

Lemma includes_In : forall x l, includes x l = true <-> In x l.
Proof.
  intros x l. unfold includes. rewrite existsb_exists. split.
  - intros (y & Hy & E). apply String.eqb_eq in E. now subst.
  - intros H. exists x. split; [assumption|apply String.eqb_refl].
Qed.

Lemma filter_all :
  forall (A : Type) (f : A -> bool) (l : list A),
    (forall x, In x l -> f x = true) -> filter f l = l.
Proof.
  induction l as [|x l IH]; intros H; simpl; [reflexivity|].
  rewrite H by now left. f_equal. apply IH. intros; apply H; now right.
Qed.

Lemma applyRoleFilter_all :
  forall g,
    Forall (fun e => In (from e) (map id (nodes g)) /\ In (to e) (map id (nodes g)))
           (edges g) ->
    applyRoleFilter allRoles g = g.
Proof.
  intros [ns es] Hclosed. unfold applyRoleFilter. simpl in *.
  assert (filter (roleEnabled allRoles) ns = ns) as ->.
  { apply filter_all. intros n _. unfold roleEnabled.
    destruct (effectiveRole n) as [[| | | |]|]; reflexivity. }
  f_equal. apply filter_all. intros e He. rewrite Forall_forall in Hclosed.
  destruct (Hclosed e He) as [A B].
  apply andb_true_iff. split; now apply includes_In.
Qed.

(** X9.  The role filter of the application never leaves a dangling edge
    and only keeps nodes of enabled roles; with every role enabled it shows
    the graph of the analysis unchanged, for the wiring graph and for the
    call graph alike. *)
Theorem visibleGraph_filter :
  forall project dir graphType filterRoles,
    Forall (fun e =>
              In (from e) (map id (nodes (visibleGraph (Some project) (Some dir)
                                                       graphType filterRoles)))
              /\ In (to e) (map id (nodes (visibleGraph (Some project) (Some dir)
                                                        graphType filterRoles))))
           (edges (visibleGraph (Some project) (Some dir) graphType filterRoles))
    /\ Forall (fun n => roleEnabled filterRoles n = true)
              (nodes (visibleGraph (Some project) (Some dir) graphType filterRoles))
    /\ visibleGraph (Some project) (Some dir) graphType allRoles
       = match graphType with
         | WiringView =>
             analyzeWiringGraph project
               (filter isTypeScriptFile (enumerateFilesUnder dir))
         | CallsView =>
             analyzeDirectoryGraph project
               (filter isTypeScriptFile (enumerateFilesUnder dir))
         end.
Proof.
  intros project dir graphType filterRoles. split; [|split].
  - apply Forall_forall. intros e He. unfold visibleGraph, applyRoleFilter in *.
    cbn [nodes edges] in *. apply filter_In in He. destruct He as [_ He].
    apply andb_true_iff in He. destruct He as [A B].
    split; now apply includes_In.
  - apply Forall_forall. intros n Hn. unfold visibleGraph, applyRoleFilter in Hn.
    cbn [nodes] in Hn. apply filter_In in Hn. tauto.
  - unfold visibleGraph. apply applyRoleFilter_all.
    apply Forall_forall. intros e He.
    destruct graphType; [now apply wiring_graph_closed|now apply call_graph_closed].
Qed.

(** X10.  Every node of the call graph the application shows belongs to a
    file with extension [.ts] or [.tsx] that lies under the selected
    directory. *)
Theorem visible_call_graph_scoped :
  forall project dir filterRoles,
    Forall (fun n => In (filePath n) (enumerateFilesUnder dir)
                     /\ isTypeScriptFile (filePath n) = true)
           (nodes (visibleGraph (Some project) (Some dir) CallsView filterRoles)).
Proof.
  intros project dir filterRoles. apply Forall_forall. intros n Hn.
  unfold visibleGraph, applyRoleFilter in Hn. cbn [nodes] in Hn.
  apply filter_In in Hn. destruct Hn as [Hn _].
  destruct (call_graph_node_scoped project
              (filter isTypeScriptFile (enumerateFilesUnder dir)) n Hn) as (Hp & _).
  apply filter_In in Hp. exact Hp.
Qed.

(* ------------------------------------------------------------------ *)
(** ** Escaping (DotView.tsx, dot.ts) *)

(** [s.replace(/c/g, rep)] for a one-character pattern and a replacement
    text without dollar sign. *)
Fixpoint replaceAll (c : ascii) (rep : string) (s : string) : string :=
  match s with
  | EmptyString => EmptyString
  | String x rest =>
      if Ascii.eqb x c then (rep ++ replaceAll c rep rest)%string
      else String x (replaceAll c rep rest)
  end.

Definition escapeHtml (s : string) : string :=
  replaceAll ">" "&gt;" (replaceAll "<" "&lt;" (replaceAll "&" "&amp;" s)).

Definition backslash : ascii := ascii_of_nat 92.
Definition newline : ascii := ascii_of_nat 10.

Definition escapeLabel (text : string) : string :=
  replaceAll newline (String backslash "n")
    (replaceAll Str.doubleQuote (String backslash (String Str.doubleQuote ""))
       (replaceAll backslash (String backslash (String backslash "")) text)).

(** One pass over the characters. *)
Fixpoint mapChars (f : ascii -> string) (s : string) : string :=
  match s with
  | EmptyString => EmptyString
  | String x rest => (f x ++ mapChars f rest)%string
  end.

Lemma replaceAll_app :
  forall c rep a b,
    replaceAll c rep (a ++ b) = (replaceAll c rep a ++ replaceAll c rep b)%string.
Proof.
  intros c rep. induction a as [|x a IH]; intros b; simpl; [reflexivity|].
  rewrite IH. destruct (Ascii.eqb x c); simpl; [now rewrite str_app_assoc|reflexivity].
Qed.

Lemma replaceAll_mapChars :
  forall c rep f s,
    replaceAll c rep (mapChars f s) = mapChars (fun x => replaceAll c rep (f x)) s.
Proof.
  intros c rep f. induction s as [|x s IH]; simpl; [reflexivity|].
  now rewrite replaceAll_app, IH.
Qed.

Lemma replaceAll_as_mapChars :
  forall c rep s,
    replaceAll c rep s
    = mapChars (fun x => if Ascii.eqb x c then rep else String x "") s.
Proof.
  intros c rep. induction s as [|x s IH]; simpl; [reflexivity|].
  rewrite IH. destruct (Ascii.eqb x c); reflexivity.
Qed.

Lemma mapChars_ext :
  forall f g s, (forall x, f x = g x) -> mapChars f s = mapChars g s.
Proof.
  intros f g s H. induction s as [|x s IH]; simpl; [reflexivity|]. now rewrite H, IH.
Qed.

Lemma replaceAll_removes :
  forall c rep s, Str.mem c rep = false -> Str.mem c (replaceAll c rep s) = false.
Proof.
  intros c rep s Hrep. induction s as [|x s IH]; simpl; [reflexivity|].
  destruct (Ascii.eqb x c) eqn:E.
  - rewrite str_mem_app, Hrep, IH. reflexivity.
  - simpl. now rewrite E, IH.
Qed.

Lemma replaceAll_keeps_absent :
  forall c rep d s,
    Str.mem d rep = false -> Str.mem d s = false ->
    Str.mem d (replaceAll c rep s) = false.
Proof.
  intros c rep d s Hrep. induction s as [|x s IH]; simpl; intros H; [reflexivity|].
  apply orb_false_iff in H. destruct H as [Hx Hs].
  destruct (Ascii.eqb x c).
  - rewrite str_mem_app, Hrep. now apply IH.
  - simpl. rewrite Hx. now apply IH.
Qed.

Section PrefixCode.
Variable f : ascii -> string.
Hypothesis f_code :
  forall x y r1 r2, (f x ++ r1 = f y ++ r2)%string -> x = y /\ r1 = r2.
Hypothesis f_nonempty : forall x, f x <> EmptyString.

Lemma mapChars_injective :
  forall s1 s2, mapChars f s1 = mapChars f s2 -> s1 = s2.
Proof.
  induction s1 as [|x s1 IH]; intros [|y s2] H; simpl in H.
  - reflexivity.
  - exfalso. apply (@f_nonempty y). destruct (f y); [reflexivity|discriminate].
  - exfalso. apply (@f_nonempty x). destruct (f x); [reflexivity|discriminate].
  - apply f_code in H. destruct H as [-> H]. f_equal. now apply IH.
Qed.

End PrefixCode.

Definition htmlChar (x : ascii) : string :=
  if Ascii.eqb x "&" then "&amp;"
  else if Ascii.eqb x "<" then "&lt;"
  else if Ascii.eqb x ">" then "&gt;"
  else String x "".

Lemma escapeHtml_one_pass : forall s, escapeHtml s = mapChars htmlChar s.
Proof.
  intros s. unfold escapeHtml.
  rewrite (replaceAll_as_mapChars "&" "&amp;" s), !replaceAll_mapChars.
  apply mapChars_ext. intros x. unfold htmlChar.
  destruct (Ascii.eqb_spec x "&") as [->|H1]; [reflexivity|].
  simpl. destruct (Ascii.eqb_spec x "<") as [->|H2]; [reflexivity|].
  simpl. destruct (Ascii.eqb x ">"); reflexivity.
Qed.

Lemma htmlChar_code :
  forall x y r1 r2, (htmlChar x ++ r1 = htmlChar y ++ r2)%string -> x = y /\ r1 = r2.
Proof.
  intros x y r1 r2. unfold htmlChar.
  destruct (Ascii.eqb_spec x "&") as [->|X1];
    [|destruct (Ascii.eqb_spec x "<") as [->|X2];
      [|destruct (Ascii.eqb_spec x ">") as [->|X3]]];
    (destruct (Ascii.eqb_spec y "&") as [->|Y1];
     [|destruct (Ascii.eqb_spec y "<") as [->|Y2];
       [|destruct (Ascii.eqb_spec y ">") as [->|Y3]]]);
    simpl; intros H; try discriminate;
      try (injection H as H; subst; try congruence; auto; fail).
Qed.

Lemma htmlChar_nonempty : forall x, htmlChar x <> EmptyString.
Proof.
  intros x. unfold htmlChar.
  destruct (Ascii.eqb x "&"); [discriminate|].
  destruct (Ascii.eqb x "<"); [discriminate|].
  destruct (Ascii.eqb x ">"); discriminate.
Qed.

(** X11.  [escapeHtml] leaves no [<] and no [>] in its result, and it
    loses nothing: two texts with the same escaped form are the same text. *)
Theorem escapeHtml_safe :
  forall s,
    Str.mem "<" (escapeHtml s) = false
    /\ Str.mem ">" (escapeHtml s) = false
    /\ forall s', escapeHtml s = escapeHtml s' -> s = s'.
Proof.
  intros s. split; [|split].
  - unfold escapeHtml. apply replaceAll_keeps_absent; [reflexivity|].
    apply replaceAll_removes. reflexivity.
  - unfold escapeHtml. apply replaceAll_removes. reflexivity.
  - intros s' H. rewrite !escapeHtml_one_pass in H.
    eapply mapChars_injective; [exact htmlChar_code|exact htmlChar_nonempty|exact H].
Qed.

Definition labelChar (x : ascii) : string :=
  if Ascii.eqb x backslash then String backslash (String backslash "")
  else if Ascii.eqb x Str.doubleQuote then String backslash (String Str.doubleQuote "")
  else if Ascii.eqb x newline then String backslash "n"
  else String x "".

Lemma escapeLabel_one_pass : forall s, escapeLabel s = mapChars labelChar s.
Proof.
  intros s. unfold escapeLabel.
  rewrite (replaceAll_as_mapChars backslash _ s), !replaceAll_mapChars.
  apply mapChars_ext. intros x. unfold labelChar.
  destruct (Ascii.eqb_spec x backslash) as [->|H1]; [reflexivity|].
  cbn [replaceAll]. destruct (Ascii.eqb_spec x Str.doubleQuote) as [->|H2]; [reflexivity|].
  cbn [replaceAll]. destruct (Ascii.eqb x newline); reflexivity.
Qed.

Lemma labelChar_code :
  forall x y r1 r2, (labelChar x ++ r1 = labelChar y ++ r2)%string -> x = y /\ r1 = r2.
Proof.
  intros x y r1 r2. unfold labelChar.
  destruct (Ascii.eqb_spec x backslash) as [->|X1];
    [|destruct (Ascii.eqb_spec x Str.doubleQuote) as [->|X2];
      [|destruct (Ascii.eqb_spec x newline) as [->|X3]]];
    (destruct (Ascii.eqb_spec y backslash) as [->|Y1];
     [|destruct (Ascii.eqb_spec y Str.doubleQuote) as [->|Y2];
       [|destruct (Ascii.eqb_spec y newline) as [->|Y3]]]);
    simpl; intros H; try discriminate;
      try (injection H as H; subst; try congruence; auto; fail).
Qed.

Lemma labelChar_nonempty : forall x, labelChar x <> EmptyString.
Proof.
  intros x. unfold labelChar.
  destruct (Ascii.eqb x backslash); [discriminate|].
  destruct (Ascii.eqb x Str.doubleQuote); [discriminate|].
  destruct (Ascii.eqb x newline); discriminate.
Qed.

(** X12.  [escapeLabel] leaves no line break in its result and maps
    different texts to different results: two node identifiers never share
    a name in the generated DOT text. *)
Theorem escapeLabel_safe :
  forall s,
    Str.mem newline (escapeLabel s) = false
    /\ forall s', escapeLabel s = escapeLabel s' -> s = s'.
Proof.
  intros s. split.
  - unfold escapeLabel. apply replaceAll_removes. reflexivity.
  - intros s' H. rewrite !escapeLabel_one_pass in H.
    eapply mapChars_injective; [exact labelChar_code|exact labelChar_nonempty|exact H].
Qed.

(* ------------------------------------------------------------------ *)
(** ** The DOT text (dot.ts) *)

(** [basename]: the last non-empty segment, or the path itself when there is
    none. *)
Definition dotBasename (p : string) : string :=
  match rev (pathParts p) with
  | [] => p
  | x :: _ => if Str.truthy x then x else p
  end.

(** The label of a file cluster: the file key up to its first [#]. *)
Definition dotFileLabel (fileKey : string) : string :=
  if Str.mem "#" fileKey then hd EmptyString (Str.split "#" fileKey) else fileKey.

(** The grouping loops of [generateDot]: a map from key to the nodes with
    that key, each node pushed at the end of its group. *)
Definition groupInsert (key : GraphNode -> string)
           (m : JsMap.t string (list GraphNode)) (n : GraphNode)
  : JsMap.t string (list GraphNode) :=
  match JsMap.get String.eqb (key n) m with
  | Some members => JsMap.set String.eqb (key n) (members ++ [n]) m
  | None => JsMap.set String.eqb (key n) [n] m
  end.

Definition groupBy (key : GraphNode -> string) (ns : list GraphNode)
  : JsMap.t string (list GraphNode) :=
  fold_left (groupInsert key) ns [].

Definition byFileKey (g : Graph) : JsMap.t string (list GraphNode) :=
  groupBy fileKey (nodes g).

Lemma mem_split_part :
  forall c sep s part,
    In part (Str.split sep s) -> Str.mem c part = true -> Str.mem c s = true.
Proof.
  intros c sep. induction s as [|x s IH]; simpl; intros part Hin Hc.
  - destruct Hin as [<-|[]]. discriminate.
  - destruct (Ascii.eqb x sep).
    + destruct Hin as [<-|Hin]; [discriminate|].
      rewrite (IH _ Hin Hc). apply orb_true_r.
    + destruct (Str.split sep s) as [|p ps] eqn:E.
      * destruct Hin as [<-|[]]. simpl in Hc. rewrite orb_false_r in Hc.
        now rewrite Hc.
      * destruct Hin as [<-|Hin].
        -- simpl in Hc. apply orb_true_iff in Hc. destruct Hc as [Hc|Hc].
           ++ now rewrite Hc.
           ++ rewrite (IH p (or_introl eq_refl) Hc). apply orb_true_r.
        -- rewrite (IH part (or_intror Hin) Hc). apply orb_true_r.
Qed.

Lemma mem_join :
  forall c parts,
    Str.mem c (Str.join "/" parts) = true ->
    c = "/"%char \/ exists part, In part parts /\ Str.mem c part = true.
Proof.
  intros c. induction parts as [|p ps IH]; simpl; intros H; [discriminate|].
  destruct ps as [|q ps].
  - right. exists p. auto.
  - rewrite str_mem_app in H. apply orb_true_iff in H. destruct H as [H|H].
    + right. exists p. auto.
    + change (Ascii.eqb "/" c || Str.mem c (Str.join "/" (q :: ps)) = true) in H.
      apply orb_true_iff in H. destruct H as [H|H].
      * left. apply Ascii.eqb_eq in H. now subst.
      * destruct (IH H) as [->|(part & Hp & Hc)]; [now left|].
        right. exists part. split; [now right|assumption].
Qed.

Lemma In_skipn_In :
  forall (A : Type) k (l : list A) x, In x (skipn k l) -> In x l.
Proof.
  intros A. induction k as [|k IH]; intros [|y l] x H; simpl in *; auto.
Qed.

Lemma mem_simplifyPath :
  forall c p, c <> "/"%char -> Str.mem c (simplifyPath p) = true -> Str.mem c p = true.
Proof.
  intros c p Hc H. rewrite simplifyPath_join in H.
  apply mem_join in H. destruct H as [->|(part & Hin & Hm)]; [contradiction|].
  assert (In part (pathParts p)) as Hp.
  { unfold keptParts in Hin. destruct (Str.indexOf "src" (pathParts p));
      eapply In_skipn_In; eauto. }
  unfold pathParts in Hp. apply filter_In in Hp. destruct Hp as [Hp _].
  eapply mem_split_part; eauto.
Qed.

(** X13.  The file key of a call-graph node carries the simplified path
    before its [#]: for a path without [#], the cluster label the DOT
    generator derives from the file key is the simplified path again. *)
Theorem dotFileLabel_of_fileKey :
  forall p,
    Str.mem "#" p = false ->
    dotFileLabel (fileKeyFor p) = simplifyPath p.
Proof.
  intros p Hp. unfold dotFileLabel, fileKeyFor.
  assert (Str.mem "#" (simplifyPath p) = false) as Hs.
  { destruct (Str.mem "#" (simplifyPath p)) eqn:E; [|reflexivity].
    apply mem_simplifyPath in E; [congruence|discriminate]. }
  change (simplifyPath p ++ "#" ++ shortHash p)%string
    with (simplifyPath p ++ String "#" (shortHash p))%string.
  rewrite str_mem_app. simpl. rewrite orb_true_r.
  now rewrite split_app_sep.
Qed.

Lemma dotFileLabel_of_fileKey_example :
  dotFileLabel (fileKeyFor "/project/src/file.ts") = simplifyPath "/project/src/file.ts".
Proof. apply dotFileLabel_of_fileKey. reflexivity. Defined.

(** Groups hold the nodes of their key, in the order of the node list. *)
Lemma groupBy_get :
  forall key ns k,
    JsMap.get String.eqb k (groupBy key ns)
    = match filter (fun n => String.eqb (key n) k) ns with
      | [] => None
      | members => Some members
      end.
Proof.
  intros key ns. unfold groupBy.
  induction ns as [|n ns IH] using rev_ind; intros k; [reflexivity|].
  rewrite fold_left_app. simpl. rewrite filter_app. simpl.
  unfold groupInsert at 1. rewrite (IH (key n)).
  destruct (String.eqb_spec (key n) k) as [->|Hne].
  - destruct (filter (fun n0 => String.eqb (key n0) k) ns) as [|x l] eqn:E;
      rewrite (jsmap_get_set_same String.eqb String.eqb_eq); reflexivity.
  - rewrite app_nil_r.
    destruct (filter (fun n0 => String.eqb (key n0) (key n)) ns);
      rewrite (jsmap_get_set_other String.eqb String.eqb_eq) by congruence;
      apply IH.
Qed.

Lemma groupBy_NoDup :
  forall key ns, NoDup (JsMap.keys (groupBy key ns)).
Proof.
  intros key ns. unfold groupBy. apply fold_left_invariant; [|constructor].
  intros m n _ H. unfold groupInsert.
  destruct (JsMap.get String.eqb (key n) m);
    now apply (jsmap_NoDup_set String.eqb String.eqb_eq).
Qed.

(** X14.  File clusters partition the nodes: the keys of the clusters are
    pairwise distinct, every cluster holds exactly the nodes with its file
    key, in the order of the node list and at least one, and every node
    lies in the cluster of its file key. *)
Theorem file_clusters_partition :
  forall g,
    NoDup (JsMap.keys (byFileKey g))
    /\ Forall (fun entry =>
                 snd entry = filter (fun n => String.eqb (fileKey n) (fst entry)) (nodes g)
                 /\ snd entry <> [])
              (byFileKey g)
    /\ Forall (fun n => exists members,
                   In (fileKey n, members) (byFileKey g) /\ In n members)
              (nodes g).
Proof.
  intros g. unfold byFileKey. split; [apply groupBy_NoDup|]. split.
  - apply Forall_forall. intros [k members] Hin.
    apply (jsmap_In_get String.eqb String.eqb_eq) in Hin; [|apply groupBy_NoDup].
    rewrite groupBy_get in Hin. simpl.
    destruct (filter (fun n => String.eqb (fileKey n) k) (nodes g)) as [|x l];
      [discriminate|].
    injection Hin as <-. split; [reflexivity|discriminate].
  - apply Forall_forall. intros n Hn.
    pose proof (groupBy_get fileKey (nodes g) (fileKey n)) as G.
    assert (In n (filter (fun x => String.eqb (fileKey x) (fileKey n)) (nodes g))) as Hf
        by (apply filter_In; split; [assumption|apply String.eqb_refl]).
    destruct (filter (fun x => String.eqb (fileKey x) (fileKey n)) (nodes g)) as [|x l];
      [contradiction|].
    exists (x :: l). split; [|assumption].
    now apply (jsmap_get_In String.eqb String.eqb_eq).
Qed.

(** *** [generateDot] *)

(** Decimal printing of the cluster counter. *)
Fixpoint uintToString (d : Decimal.uint) : string :=
  match d with
  | Decimal.Nil => EmptyString
  | Decimal.D0 d' => String "0" (uintToString d')
  | Decimal.D1 d' => String "1" (uintToString d')
  | Decimal.D2 d' => String "2" (uintToString d')
  | Decimal.D3 d' => String "3" (uintToString d')
  | Decimal.D4 d' => String "4" (uintToString d')
  | Decimal.D5 d' => String "5" (uintToString d')
  | Decimal.D6 d' => String "6" (uintToString d')
  | Decimal.D7 d' => String "7" (uintToString d')
  | Decimal.D8 d' => String "8" (uintToString d')
  | Decimal.D9 d' => String "9" (uintToString d')
  end.

Definition natToString (n : nat) : string := uintToString (Nat.to_uint n).

Definition quote : string := String Str.doubleQuote EmptyString.
Definition nl : string := String newline EmptyString.

Fixpoint concatStr (l : list string) : string :=
  match l with
  | [] => EmptyString
  | s :: rest => (s ++ concatStr rest)%string
  end.

Definition dotHeader : string :=
  ("digraph G {" ++ nl ++ "  rankdir=LR;" ++ nl
   ++ "  node [shape=box, fontsize=10];" ++ nl
   ++ "  edge [fontsize=9];" ++ nl)%string.

(** The statement declaring a node, without its indentation; the label is
    the node label, a backslash followed by [n], and the base name of the
    file. *)
Definition nodeDeclaration (n : GraphNode) : string :=
  (quote ++ escapeLabel (id n) ++ quote ++ " [label=" ++ quote
   ++ escapeLabel (label n ++ String backslash "n" ++ dotBasename (filePath n))
   ++ quote ++ "];" ++ nl)%string.

Definition edgeLine (e : GraphEdge) : string :=
  ("  " ++ quote ++ escapeLabel (from e) ++ quote ++ " -> "
   ++ quote ++ escapeLabel (to e) ++ quote
   ++ (if crossFile e then " [color=" ++ quote ++ "#aa0000" ++ quote ++ "]" else "")
   ++ ";" ++ nl)%string.

(** [if (f.className)]: a class name that is present and not empty. *)
Definition hasClass (f : GraphNode) : bool :=
  match className f with
  | Some c => Str.truthy c
  | None => false
  end.

Definition classKey (f : GraphNode) : string :=
  match className f with
  | Some c => c
  | None => EmptyString
  end.

(** The loop that sorts the nodes of a file into class groups and
    top-level nodes. *)
Definition splitStep (st : JsMap.t string (list GraphNode) * list GraphNode)
           (f : GraphNode) : JsMap.t string (list GraphNode) * list GraphNode :=
  if hasClass f then (groupInsert classKey (fst st) f, snd st)
  else (fst st, snd st ++ [f]).

Definition splitByClass (funcs : list GraphNode)
  : JsMap.t string (list GraphNode) * list GraphNode :=
  fold_left splitStep funcs ([], []).

(** The text and the cluster counter are threaded through the loops. *)
Definition classStep (st : string * nat) (entry : string * list GraphNode)
  : string * nat :=
  ((fst st ++ "    subgraph cluster_" ++ natToString (snd st) ++ " {" ++ nl
    ++ "      label=" ++ quote ++ escapeLabel (fst entry) ++ quote ++ ";" ++ nl
    ++ "      color=" ++ quote ++ "#bfe3ff" ++ quote ++ ";" ++ nl
    ++ concatStr (map (fun m => "      " ++ nodeDeclaration m) (snd entry))
    ++ "    }" ++ nl)%string,
   S (snd st)).

Definition fileStep (st : string * nat) (entry : string * list GraphNode)
  : string * nat :=
  let opened :=
    ((fst st ++ "  subgraph cluster_" ++ natToString (snd st) ++ " {" ++ nl
      ++ "    label=" ++ quote ++ escapeLabel (dotFileLabel (fst entry)) ++ quote
      ++ ";" ++ nl
      ++ "    style=filled; color=" ++ quote ++ "#eeeeee" ++ quote ++ ";" ++ nl)%string,
     S (snd st)) in
  let parts := splitByClass (snd entry) in
  let classes := fold_left classStep (fst parts) opened in
  ((fst classes
    ++ concatStr (map (fun f => "    " ++ nodeDeclaration f) (snd parts))
    ++ "  }" ++ nl)%string,
   snd classes).

Definition generateDot (g : Graph) : string :=
  (fst (fold_left fileStep (byFileKey g) (dotHeader, 0))
   ++ concatStr (map edgeLine (edges g))
   ++ "}" ++ nl)%string.

(** [piece] occurs in [s]. *)
Definition occursIn (piece s : string) : Prop :=
  exists a b, s = (a ++ piece ++ b)%string.

Lemma str_app_empty_r : forall s, (s ++ EmptyString)%string = s.
Proof. induction s as [|x s IH]; simpl; congruence. Qed.

Lemma occursIn_here :
  forall piece a b, occursIn piece (a ++ piece ++ b).
Proof. intros piece a b. now exists a, b. Qed.

Lemma occursIn_app_l :
  forall piece s t, occursIn piece s -> occursIn piece (s ++ t).
Proof.
  intros piece s t (a & b & ->). exists a, (b ++ t)%string.
  now rewrite !str_app_assoc.
Qed.

Lemma occursIn_app_r :
  forall piece s t, occursIn piece t -> occursIn piece (s ++ t).
Proof.
  intros piece s t (a & b & ->). exists (s ++ a)%string, b.
  now rewrite !str_app_assoc.
Qed.

Lemma prefix_app :
  forall piece b, String.prefix piece (piece ++ b) = true.
Proof.
  induction piece as [|x piece IH]; intros b; simpl.
  - now destruct b.
  - destruct (ascii_dec x x) as [_|N]; [apply IH|now elim N].
Qed.

Lemma occursIn_contains :
  forall piece s, occursIn piece s -> Str.contains piece s = true.
Proof.
  intros piece s (a & b & ->). induction a as [|x a IH].
  - change (EmptyString ++ piece ++ b)%string with (piece ++ b)%string.
    pose proof (prefix_app piece b) as P.
    destruct (piece ++ b)%string; cbn [Str.contains]; now rewrite P.
  - change ((String x a ++ piece ++ b)%string) with (String x (a ++ piece ++ b)).
    cbn [Str.contains]. rewrite IH. apply orb_true_r.
Qed.

Lemma occursIn_concatStr :
  forall (X : Type) (f : X -> string) piece l x,
    In x l -> occursIn piece (f x) -> occursIn piece (concatStr (map f l)).
Proof.
  intros X f piece. induction l as [|y l IH]; intros x Hin Hx; [destruct Hin|].
  simpl. destruct Hin as [->|Hin].
  - now apply occursIn_app_l.
  - apply occursIn_app_r. eauto.
Qed.

Section TextLoops.
Variable X : Type.
Variable step : string * nat -> X -> string * nat.
Hypothesis step_appends :
  forall st y, exists t, fst (step st y) = (fst st ++ t)%string.

Lemma fold_appends :
  forall l st, exists t, fst (fold_left step l st) = (fst st ++ t)%string.
Proof.
  induction l as [|y l IH]; intros st; simpl.
  - exists EmptyString. now rewrite str_app_empty_r.
  - destruct (IH (step st y)) as (t & ->).
    destruct (step_appends st y) as (u & ->).
    exists (u ++ t)%string. now rewrite str_app_assoc.
Qed.

Lemma fold_writes :
  forall piece l x,
    In x l ->
    (forall st, occursIn piece (fst (step st x))) ->
    forall st, occursIn piece (fst (fold_left step l st)).
Proof.
  intros piece. induction l as [|y l IH]; intros x Hin Hx st; [destruct Hin|].
  simpl. destruct Hin as [->|Hin].
  - destruct (fold_appends l (step st x)) as (t & ->).
    apply occursIn_app_l, Hx.
  - eapply IH; eauto.
Qed.
End TextLoops.

Lemma classStep_appends :
  forall st y, exists t, fst (classStep st y) = (fst st ++ t)%string.
Proof. intros st y. unfold classStep. simpl. eauto. Qed.

Lemma fileStep_appends :
  forall st y, exists t, fst (fileStep st y) = (fst st ++ t)%string.
Proof.
  intros st y. unfold fileStep. cbn [fst snd].
  match goal with
  | |- context [fold_left classStep ?l ?o] =>
      destruct (fold_appends classStep classStep_appends l o) as (t & ->)
  end.
  cbn [fst]. rewrite !str_app_assoc. eauto.
Qed.

Lemma splitByClass_spec :
  forall funcs,
    splitByClass funcs
    = (groupBy classKey (filter hasClass funcs),
       filter (fun f => negb (hasClass f)) funcs).
Proof.
  intros funcs. unfold splitByClass, groupBy.
  change (filter (fun f => negb (hasClass f)) funcs)
    with (snd (@nil (string * list GraphNode), @nil GraphNode)
          ++ filter (fun f => negb (hasClass f)) funcs).
  change (fold_left (groupInsert classKey) (filter hasClass funcs) [])
    with (fold_left (groupInsert classKey) (filter hasClass funcs)
            (fst (@nil (string * list GraphNode), @nil GraphNode))).
  generalize (@nil (string * list GraphNode), @nil GraphNode).
  induction funcs as [|f funcs IH]; intros st; simpl.
  - rewrite app_nil_r. now destruct st.
  - rewrite IH. unfold splitStep. destruct (hasClass f); simpl.
    + reflexivity.
    + now rewrite <- app_assoc.
Qed.

Lemma groupBy_member :
  forall key ns n,
    In n ns ->
    exists members, In (key n, members) (groupBy key ns) /\ In n members.
Proof.
  intros key ns n Hn.
  pose proof (groupBy_get key ns (key n)) as G.
  assert (In n (filter (fun x => String.eqb (key x) (key n)) ns)) as Hf
      by (apply filter_In; split; [assumption|apply String.eqb_refl]).
  destruct (filter (fun x => String.eqb (key x) (key n)) ns) as [|x l];
    [contradiction|].
  exists (x :: l). split; [|assumption].
  now apply (jsmap_get_In String.eqb String.eqb_eq).
Qed.

Lemma fileStep_writes :
  forall st k funcs n,
    In n funcs -> occursIn (nodeDeclaration n) (fst (fileStep st (k, funcs))).
Proof.
  intros st k funcs n Hn. unfold fileStep. cbn [fst snd].
  rewrite splitByClass_spec. cbn [fst snd].
  destruct (hasClass n) eqn:Hc.
  - apply occursIn_app_l.
    destruct (groupBy_member classKey (filter hasClass funcs) n) as (members & Hm & Hin).
    { apply filter_In. auto. }
    eapply (fold_writes classStep classStep_appends); [exact Hm|].
    intros st'. unfold classStep. cbn [fst snd].
    repeat match goal with
           | |- occursIn _ (?a ++ _) =>
               lazymatch a with
               | concatStr _ => fail
               | _ => apply occursIn_app_r
               end
           end.
    apply occursIn_app_l.
    eapply occursIn_concatStr; [exact Hin|].
    exists "      "%string, EmptyString. now rewrite str_app_empty_r.
  - apply occursIn_app_r, occursIn_app_l.
    eapply occursIn_concatStr with (x := n).
    + apply filter_In. split; [assumption|now rewrite Hc].
    + exists "    "%string, EmptyString. now rewrite str_app_empty_r.
Qed.

(** X15.  Nothing of the graph is dropped from the DOT text: the
    declaration of every node (its escaped id and label) and the line of
    every edge (escaped endpoints, coloured when the edge crosses files)
    occur in the output of [generateDot]. *)
Theorem generateDot_writes_graph :
  forall g,
    Forall (fun n => Str.contains (nodeDeclaration n) (generateDot g) = true) (nodes g)
    /\ Forall (fun e => Str.contains (edgeLine e) (generateDot g) = true) (edges g).
Proof.
  intros g. split; apply Forall_forall.
  - intros n Hn. apply occursIn_contains. unfold generateDot.
    apply occursIn_app_l.
    destruct (groupBy_member fileKey (nodes g) n Hn) as (members & Hm & Hin).
    eapply (fold_writes fileStep fileStep_appends); [exact Hm|].
    intros st. now apply fileStep_writes.
  - intros e He. apply occursIn_contains. unfold generateDot.
    apply occursIn_app_r, occursIn_app_l.
    eapply occursIn_concatStr; [exact He|].
    exists EmptyString, EmptyString. simpl. now rewrite str_app_empty_r.
Qed.

(* ------------------------------------------------------------------ *)
(** ** Both graphs are free of parallel edges *)

Lemma NoDup_map_through :
  forall (A B C : Type) (f : A -> B) (h : B -> C) (l : list A),
    NoDup (map (fun x => h (f x)) l) -> NoDup (map f l).
Proof.
  intros A B C f h. induction l as [|x l IH]; simpl; intros H; [constructor|].
  inversion H as [|? ? Hx Hl]; subst. constructor; [|auto].
  intros Hin. apply Hx. apply in_map_iff in Hin. destruct Hin as (y & E & Hy).
  apply in_map_iff. exists y. split; [now rewrite E|assumption].
Qed.

Lemma uniqueEdges_pairs :
  forall es, NoDup (map edgePair (uniqueEdges es)).
Proof.
  intros es.
  apply NoDup_map_through with (h := fun p => (fst p ++ "|" ++ snd p)%string).
  exact (dedupBy_NoDup String.eqb String.eqb_eq edgeKey es).
Qed.

(** X16.  The call graph is a simple directed graph: no two of its edges
    join the same ordered pair of nodes and no edge joins a node to
    itself; the wiring graph has no two edges for the same ordered pair
    either. *)
Theorem graphs_have_no_parallel_edges :
  forall project filePaths,
    NoDup (map edgePair (edges (analyzeDirectoryGraph project filePaths)))
    /\ Forall (fun e => from e <> to e)
              (edges (analyzeDirectoryGraph project filePaths))
    /\ NoDup (map edgePair (edges (analyzeWiringGraph project filePaths))).
Proof.
  intros project filePaths. split; [apply uniqueEdges_pairs|]. split.
  - apply Forall_forall. intros e He. eapply call_graph_no_self_loop; eauto.
  - apply uniqueEdges_pairs.
Qed.

(* ------------------------------------------------------------------ *)
(** ** The label of a node in the DOT text *)

(** X17.  [escapeLabel] works piece by piece: the escape of a
    concatenation is the concatenation of the escapes.  The label
    [generateDot] writes for a node is therefore the escaped node label, two
    backslashes and the letter n, and the escaped base name of the file:
    the backslash of the separator is itself escaped. *)
Theorem escapeLabel_concat :
  forall a b label0 base,
    escapeLabel (a ++ b) = (escapeLabel a ++ escapeLabel b)%string
    /\ escapeLabel (label0 ++ String backslash "n" ++ base)
       = (escapeLabel label0
          ++ String backslash (String backslash "n")
          ++ escapeLabel base)%string.
Proof.
  assert (forall a b, escapeLabel (a ++ b) = (escapeLabel a ++ escapeLabel b)%string) as H
      by (intros a b; unfold escapeLabel; now rewrite !replaceAll_app).
  intros a b label0 base. split; [apply H|].
  rewrite H. change (String backslash "n" ++ base)%string
    with (String backslash "n" ++ base)%string.
  rewrite (H (String backslash "n") base). reflexivity.
Qed.

(* ------------------------------------------------------------------ *)
(** ** Drill-down from the wiring graph (App.tsx) *)

(** The test that scopes the call graph to the clicked node: for a module
    the file key has to contain the first word of the module's file key,
    for any other node the file path or the class name has to match. *)
Definition scopeTest (clicked n : GraphNode) : bool :=
  match role clicked with
  | Some RModule =>
      Str.contains (hd EmptyString (Str.split " " (fileKey clicked))) (fileKey n)
  | _ =>
      String.eqb (filePath n) (filePath clicked)
      || match className n with
         | Some c => String.eqb c (label clicked)
         | None => false
         end
  end.

(** The call graph of the [.ts] and [.tsx] files under the selected
    directory. *)
Definition selectedCallGraph (project : Project) (dir : TreeNode) : Graph :=
  analyzeDirectoryGraph project (filter isTypeScriptFile (enumerateFilesUnder dir)).

(** The click handler of the flow view; [None] when it returns without
    setting the detail graph. *)
Definition drillDown (projectRef : option Project) (selectedDir : option TreeNode)
           (graphType : GraphType) (graph : Graph) (clickedId : string)
  : option Graph :=
  match projectRef, selectedDir with
  | Some project, Some dir =>
      match graphType with
      | CallsView => None
      | WiringView =>
          match find (fun n => String.eqb (id n) clickedId) (nodes graph) with
          | None => None
          | Some clicked =>
              let files := filter isTypeScriptFile (enumerateFilesUnder dir) in
              let callGraph := analyzeDirectoryGraph project files in
              let fileScopedIds :=
                map id (filter (scopeTest clicked) (nodes callGraph)) in
              Some {| nodes := filter (fun n => includes (id n) fileScopedIds)
                                      (nodes callGraph);
                      edges := filter (fun e => includes (from e) fileScopedIds
                                                && includes (to e) fileScopedIds)
                                      (edges callGraph) |}
          end
      end
  | _, _ => None
  end.

Lemma NoDup_map_eq :
  forall (A B : Type) (f : A -> B) (l : list A) x y,
    NoDup (map f l) -> In x l -> In y l -> f x = f y -> x = y.
Proof.
  intros A B f. induction l as [|a l IH]; intros x y H Hx Hy E; [destruct Hx|].
  simpl in H. inversion H as [|? ? Ha Hl]; subst.
  destruct Hx as [->|Hx], Hy as [->|Hy]; auto.
  - elim Ha. rewrite E. now apply in_map.
  - elim Ha. rewrite <- E. now apply in_map.
Qed.

(** With pairwise distinct ids, selecting by the ids of the selected nodes
    selects the same nodes. *)
Lemma filter_by_ids :
  forall (p : GraphNode -> bool) l,
    NoDup (map id l) ->
    filter (fun n => includes (id n) (map id (filter p l))) l = filter p l.
Proof.
  intros p l Hnd. apply filter_ext_in. intros n Hn.
  destruct (p n) eqn:Hp.
  - apply includes_In. apply in_map. apply filter_In. auto.
  - destruct (includes (id n) (map id (filter p l))) eqn:E; [|reflexivity].
    apply includes_In in E. apply in_map_iff in E. destruct E as (m & Hid & Hm).
    apply filter_In in Hm. destruct Hm as [Hm Hpm].
    assert (m = n) by (eapply NoDup_map_eq; eauto). subst. congruence.
Qed.

(** X18.  A click in the wiring view on a node that is not shown changes
    nothing.  Otherwise the detail graph is the call graph of the selected
    directory restricted to the nodes that pass the scope test of the first
    shown node with the clicked id, together with exactly the call edges
    between two such nodes. *)
Theorem drillDown_scope :
  forall project dir graph clickedId,
    match drillDown (Some project) (Some dir) WiringView graph clickedId with
    | None => Forall (fun n => id n <> clickedId) (nodes graph)
    | Some detail =>
        exists clicked,
          In clicked (nodes graph) /\ id clicked = clickedId
          /\ nodes detail
             = filter (scopeTest clicked) (nodes (selectedCallGraph project dir))
          /\ forall e,
               In e (edges detail) <->
               In e (edges (selectedCallGraph project dir))
               /\ In (from e) (map id (nodes detail))
               /\ In (to e) (map id (nodes detail))
    end.
Proof.
  intros project dir graph clickedId. unfold drillDown.
  set (callGraph := selectedCallGraph project dir).
  destruct (find (fun n => String.eqb (id n) clickedId) (nodes graph)) as [clicked|] eqn:F.
  - apply find_some in F. destruct F as [Hin Hid]. apply String.eqb_eq in Hid.
    exists clicked. cbn [nodes edges].
    change (analyzeDirectoryGraph project
              (filter isTypeScriptFile (enumerateFilesUnder dir))) with callGraph.
    assert (NoDup (map id (nodes callGraph))) as Hnd
        by apply (dedupBy_NoDup String.eqb String.eqb_eq).
    rewrite (filter_by_ids (scopeTest clicked) (nodes callGraph) Hnd).
    repeat split; auto.
    + apply filter_In in H. tauto.
    + apply filter_In in H. destruct H as [_ H]. apply andb_true_iff in H.
      apply includes_In. tauto.
    + apply filter_In in H. destruct H as [_ H]. apply andb_true_iff in H.
      apply includes_In. tauto.
    + intros (He & Hf & Ht). apply filter_In. split; [assumption|].
      apply andb_true_iff. split; now apply includes_In.
  - apply Forall_forall. intros n Hn E.
    apply (find_none _ _ F) in Hn. apply String.eqb_neq in Hn. contradiction.
Qed.

(** *** Drill-down on a module *)

(** The file key of a module node is the module name followed by the file
    key of its file in parentheses. *)
Definition moduleKeyed (n : GraphNode) : Prop :=
  role n = Some RModule -> fileKey n = moduleKeyFor (filePath n) (label n).

Definition allModuleKeyed (st : Wiring) : Prop :=
  (forall k n, In (k, n) (byId st) -> moduleKeyed n)
  /\ (forall n, In n (w_nodes st) -> moduleKeyed n).

Lemma scan_moduleKeyed :
  forall project filePaths k n,
    In (k, n) (scan_byId (scanModules project filePaths)) -> moduleKeyed n.
Proof.
  intros project filePaths k n H.
  destruct (@scanModules_scanned
              (fun m => m_fileKey m = moduleKeyFor (m_filePath m) (m_name m))
              project filePaths) as (_ & S2 & S3).
  { intros path sf cls _ _ _.
    destruct (moduleInfoOf_fields sf cls) as (_ & -> & -> & ->). reflexivity. }
  destruct (S3 k n H) as (m & Hm & _ & ->). destruct (S2 m Hm) as (T & _).
  intros _. exact T.
Qed.

Lemma registerNode_allModuleKeyed :
  forall n st, moduleKeyed n -> allModuleKeyed st -> allModuleKeyed (registerNode n st).
Proof.
  intros n st Hn [H1 H2]. split; simpl.
  - intros k x Hx. apply (jsmap_In_set String.eqb String.eqb_eq) in Hx.
    destruct Hx as [[_ ->]|Hx]; eauto.
  - intros x Hx. apply in_app_or in Hx. destruct Hx as [Hx|[<-|[]]]; auto.
Qed.

Lemma pushNode_allModuleKeyed :
  forall n st, moduleKeyed n -> allModuleKeyed st -> allModuleKeyed (pushNode n st).
Proof.
  intros n st Hn [H1 H2]. split; simpl; [assumption|].
  intros x Hx. apply in_app_or in Hx. destruct Hx as [Hx|[<-|[]]]; auto.
Qed.

Lemma ensureNode_allModuleKeyed :
  forall m section st cls,
    allModuleKeyed st -> allModuleKeyed (ensureNode m section st cls).
Proof.
  intros m section st cls Hst. unfold ensureNode.
  match goal with |- allModuleKeyed (pushEdge _ ?s) => assert (allModuleKeyed s) as H end.
  { destruct (JsMap.has String.eqb (classNodeId cls) (byId st)); simpl.
    - destruct (hasNode (classNodeId cls) (w_nodes st)); simpl; [assumption|].
      destruct (JsMap.get String.eqb (classNodeId cls) (byId st)) as [n|] eqn:G;
        [|assumption].
      apply pushNode_allModuleKeyed; [|assumption].
      apply (jsmap_get_In String.eqb String.eqb_eq) in G. destruct Hst as [H1 _]. eauto.
    - apply registerNode_allModuleKeyed; [|assumption].
      intros R. simpl in R. unfold roleFor in R.
      destruct (includes "Controller" _); [discriminate|].
      destruct (includes "Injectable" _); discriminate. }
  destruct H as [H1 H2]. split; simpl; assumption.
Qed.

Lemma importModule_allModuleKeyed :
  forall m st im, allModuleKeyed st -> allModuleKeyed (importModule m st im).
Proof.
  intros m st im Hst. unfold importModule.
  match goal with |- allModuleKeyed (pushEdge _ ?s) => assert (allModuleKeyed s) as H end.
  { destruct (JsMap.has String.eqb _ (byId st)); simpl; [assumption|].
    apply registerNode_allModuleKeyed; [|assumption]. intros _. reflexivity. }
  destruct H as [H1 H2]. split; simpl; assumption.
Qed.

Lemma wireModule_allModuleKeyed :
  forall st m, allModuleKeyed st -> allModuleKeyed (wireModule st m).
Proof.
  intros st m Hst. unfold wireModule.
  apply fold_left_invariant; [intros; now apply importModule_allModuleKeyed|].
  apply fold_left_invariant; [intros; now apply ensureNode_allModuleKeyed|].
  apply fold_left_invariant; [intros; now apply ensureNode_allModuleKeyed|].
  destruct (JsMap.get String.eqb (m_id m) (byId st)) as [n|] eqn:G; [|assumption].
  apply pushNode_allModuleKeyed; [|assumption].
  apply (jsmap_get_In String.eqb String.eqb_eq) in G. destruct Hst as [H1 _]. eauto.
Qed.

Lemma wiring_graph_moduleKeyed :
  forall project filePaths n,
    In n (nodes (analyzeWiringGraph project filePaths)) -> moduleKeyed n.
Proof.
  intros project filePaths n Hn. simpl in Hn.
  apply (dedupBy_incl String.eqb String.eqb_eq) in Hn.
  assert (allModuleKeyed (wireModules (scanModules project filePaths))) as [_ H].
  { unfold wireModules. apply fold_left_invariant.
    - intros st m _ Hst. now apply wireModule_allModuleKeyed.
    - split; simpl; [|intros x []].
      intros k x Hx. eapply scan_moduleKeyed; eauto. }
  auto.
Qed.

(** X19.  For a module node of the wiring graph whose name holds no space,
    the scope test of the drill-down asks whether the file key of a call
    graph node contains the module's name: the module is matched by its
    name against simplified paths, not by its file. *)
Theorem module_drillDown_by_name :
  forall project filePaths clicked,
    In clicked (nodes (analyzeWiringGraph project filePaths)) ->
    role clicked = Some RModule ->
    Str.mem " " (label clicked) = false ->
    fileKey clicked
    = (label clicked ++ " (" ++ fileKeyFor (filePath clicked) ++ ")")%string
    /\ forall n, scopeTest clicked n = Str.contains (label clicked) (fileKey n).
Proof.
  intros project filePaths clicked Hin Hrole Hspace.
  pose proof (wiring_graph_moduleKeyed _ _ _ Hin Hrole) as K.
  split; [exact K|].
  intros n. unfold scopeTest. rewrite Hrole, K. unfold moduleKeyFor.
  change (label clicked ++ " (" ++ (simplifyPath (filePath clicked) ++ "#"
                                    ++ shortHash (filePath clicked)) ++ ")")%string
    with (label clicked ++ String " " ("(" ++ (simplifyPath (filePath clicked) ++ "#"
                                    ++ shortHash (filePath clicked)) ++ ")"))%string.
  rewrite (split_app_sep _ _ _ Hspace). reflexivity.
Qed.

(** The first node of the wiring graph of the example project: its module. *)
Definition nestModuleNode : GraphNode :=
  hd (moduleNodeOf "" "" "" "")
     (nodes (analyzeWiringGraph Examples.nestProject Examples.nestFiles)).

Lemma module_drillDown_nest :
  label nestModuleNode = "AppModule"
  /\ fileKey nestModuleNode
     = (label nestModuleNode ++ " (" ++ fileKeyFor (filePath nestModuleNode) ++ ")")%string
  /\ forall n, scopeTest nestModuleNode n
               = Str.contains (label nestModuleNode) (fileKey n).
Proof.
  split; [reflexivity|].
  apply (module_drillDown_by_name Examples.nestProject Examples.nestFiles).
  - left. reflexivity.
  - reflexivity.
  - reflexivity.
Defined.
